(** * Cakemail MCP server: the resilient request layer of [BaseApiClient]

    A shallow embedding of [src/api/base-client.ts] and of the parts of
    [src/api/campaign-api.ts] that issue requests.  Asynchronous methods
    are terms of a small free monad [Async] whose constructors are the
    effects the TypeScript code performs: reading and assigning the fields
    of [this], reading the clock, awaiting [fetch], awaiting a timer.  The
    same term is given two readings: [run], one caller against a scripted
    network, and [advance]/[play], several callers interleaved at their
    suspension points.  The collaborators of [types/retry], [types/errors]
    and [utils/pagination] are not among the sources; they are modelled
    from the specification and marked as such.

    The clients built on [BaseApiClient] follow: the senders of
    [SenderApi], the transactional email of [TransactionalApi], and the
    pagination configuration registry.  Functions of the runtime they
    call ([JSON.stringify], [String]) are parameters of their sections. *)

From Stdlib Require Import ZArith List String Bool Lia Arith.
Import ListNotations.
Local Open Scope string_scope.
Local Open Scope list_scope.
Local Open Scope Z_scope.

Set Implicit Arguments.

(** ** Values exchanged with the service *)

(** The result of [JSON.parse]. *)
#[local] Unset Elimination Schemes.
Inductive json : Type :=
| JNull
| JBool (b : bool)
| JNum (n : Z)
| JStr (s : string)
| JArr (xs : list json)
| JObj (fields : list (string * json)).
#[local] Set Elimination Schemes.

Fixpoint lookup_field (k : string) (fields : list (string * json)) : option json :=
  match fields with
  | [] => None
  | (k', v) :: rest => if String.eqb k k' then Some v else lookup_field k rest
  end.

Definition field (k : string) (j : json) : option json :=
  match j with
  | JObj fields => lookup_field k fields
  | _ => None
  end.

(** [CakemailToken] of [types/cakemail-types]: the fields the client reads.
    [refresh_token] is optional in the declaration. *)
Record CakemailToken := {
  access_token : string;
  refresh_token : option string;
  token_type : string;
  expires_in : Z;
  accounts : list Z
}.

Definition field_string (k : string) (j : json) : option string :=
  match field k j with
  | Some (JStr s) => Some s
  | _ => None
  end.

Definition field_number (k : string) (j : json) : option Z :=
  match field k j with
  | Some (JNum n) => Some n
  | _ => None
  end.

Definition json_numbers (j : option json) : list Z :=
  match j with
  | Some (JArr xs) =>
      flat_map (fun x => match x with JNum n => [n] | _ => [] end) xs
  | _ => []
  end.

(** The cast [await response.json() as CakemailToken] of a body that is
    not [null].  The cast checks nothing at run time.  The record holds
    what the client reads of a grant of the declared type ([typedGrant]
    below); on a body that departs from the declaration the record is not
    what the client holds, and the statements about stored credentials
    assume the declaration.  The body [null] is handled where the grant is
    stored ([storeGrant]). *)
Definition asCakemailToken (j : json) : CakemailToken :=
  {| access_token := match field_string "access_token" j with Some s => s | None => "" end;
     refresh_token := field_string "refresh_token" j;
     token_type := match field_string "token_type" j with Some s => s | None => "" end;
     expires_in := match field_number "expires_in" j with Some n => n | None => 0 end;
     accounts := json_numbers (field "accounts" j) |}.

(** JavaScript truthiness of a string and of an optional string. *)
Definition truthy_string (s : string) : bool :=
  match s with
  | EmptyString => false
  | _ => true
  end.

Definition truthy_opt_string (o : option string) : bool :=
  match o with
  | Some s => truthy_string s
  | None => false
  end.

Definition is_some {A : Type} (o : option A) : bool :=
  match o with
  | Some _ => true
  | None => false
  end.

(** JavaScript truthiness of a parsed value. *)
Definition truthy (j : json) : bool :=
  match j with
  | JNull => false
  | JBool b => b
  | JNum n => negb (n =? 0)
  | JStr s => truthy_string s
  | JArr _ => true
  | JObj _ => true
  end.


(** [`${v}`]: the conversion to a string throws on an object whose own
    [toString] is not a function, and on an array that holds one. *)
Fixpoint printable (v : json) : bool :=
  match v with
  | JObj fields => negb (is_some (lookup_field "toString" fields))
  | JArr xs => forallb printable xs
  | _ => true
  end.

(** [hay.includes(needle)]. *)
Fixpoint includes (needle hay : string) : bool :=
  String.prefix needle hay ||
  match hay with
  | EmptyString => false
  | String _ rest => includes needle rest
  end.

(** A [node-fetch] response, as far as the client observes it.  [body] is
    what [response.text()] resolves to ([None] when reading the body
    rejects) and [parsed] is [JSON.parse] of that text ([None] when it
    throws); [response.json()] is the composition of the two. *)
Record Response := {
  status : Z;
  statusText : string;
  contentType : option string;
  body : option string;
  parsed : option json
}.

(** [response.ok] *)
Definition ok (r : Response) : bool := (200 <=? status r) && (status r <=? 299).

(** ** Errors *)

(** The message of a [CakemailAuthenticationError] is kept as the template
    that built it together with the template's arguments: the status and,
    for a failed password request, the value the template prints after it;
    the message of a [CakemailNetworkError] built by the client is a
    function of its cause and is not kept apart from it. *)
Inductive AuthReason : Type :=
| AuthenticationFailed (st : Z) (detail : json)
| NoRefreshTokenAvailable
| RefreshTokenInvalid
| TokenRefreshFailed (st : Z) (text : string)
| NoAuthenticationToken.

#[local] Unset Elimination Schemes.
Inductive Error : Type :=
| CakemailAuthenticationError (why : AuthReason) (response : option json)
| CakemailNetworkError (cause : option Error)
| CakemailApiError (statusCode : Z) (errorBody : json)
| TimeoutError (ms : Z)
| CircuitOpenError
| SyntaxError
| BodyReadError
| JsError (message : string)
| AfterAttempts (attempts : nat) (last : Error).
#[local] Set Elimination Schemes.

Inductive Result (A : Type) : Type :=
| Ok (a : A)
| Err (e : Error).
Arguments Ok {A} a.
Arguments Err {A} e.

(** ** Requests *)

(** An endpoint string [path?query]; the query is kept as the key/value
    list handed to [URLSearchParams]. *)
Inductive QueryValue : Type :=
| QStr (s : string)
| QNum (n : Z)
| QBool (b : bool).

Record Endpoint := {
  path : string;
  query : list (string * QueryValue)
}.

Definition plain (p : string) : Endpoint := {| path := p; query := [] |}.

(** [RequestInit], the fields callers set. *)
Record RequestInit := {
  method : option string;
  headers : list (string * string);
  reqBody : option string
}.

Definition noOptions : RequestInit :=
  {| method := None; headers := []; reqBody := None |}.

Inductive Request : Type :=
| TokenPassword (baseUrl username password : string)
| TokenRefresh (baseUrl refreshTok : string)
| ApiCall (baseUrl : string) (endpoint : Endpoint) (meth : option string)
          (hdrs : list (string * string)) (payload : option string).

Definition is_auth_request (r : Request) : bool :=
  match r with
  | ApiCall _ _ _ _ _ => false
  | _ => true
  end.

Definition is_password_request (r : Request) : bool :=
  match r with
  | TokenPassword _ _ _ => true
  | _ => false
  end.

Definition is_refresh_request (r : Request) : bool :=
  match r with
  | TokenRefresh _ _ => true
  | _ => false
  end.

(** What awaiting [fetch] yields: the promise rejects or resolves. *)
Inductive FetchResult : Type :=
| Rejected (e : Error)
| Responded (r : Response).

(** ** The client object *)

(** Modelled from the spec: [RetryConfig] of [types/retry], which is not
    among the sources.  Section 3 gives the policy as
    {max_attempts, base_delay, max_delay, jitter_strategy}; the random
    perturbation is a function of the attempt number and the delay. *)
Record RetryConfig := {
  maxAttempts : nat;
  baseDelay : Z;
  maxDelay : Z;
  jitter : nat -> Z -> Z
}.

(** Modelled from the spec: the [RateBudget] of section 3.  Tokens are
    counted in thousandths, so that [refillRate] tokens per second is
    [refillRate] thousandths per millisecond. *)
Record RateBudget := {
  capacity : Z;
  refillRate : Z;
  currentTokens : Z;
  lastRefillAt : Z
}.

(** Modelled from the spec: [CircuitState] and its counters (sections 3
    and 4.4). *)
Inductive CircuitState : Type := Closed | Open | HalfOpen.

Record Breaker := {
  circuit : CircuitState;
  consecutiveFailures : Z;
  openedAt : Z;
  failureThreshold : Z;
  resetTimeout : Z
}.

(** Modelled from the spec: the [QueueSlot] counter of section 3. *)
Record Queue := {
  maxConcurrent : Z;
  inFlight : Z
}.

(** The fields of [BaseApiClient]. *)
Record Client := {
  username : string;
  password : string;
  baseUrl : string;
  debugMode : bool;
  timeout : Z;
  token : option CakemailToken;
  mockToken : option CakemailToken;
  tokenExpiry : option Z;
  currentAccountId : option Z;
  retryManager : RetryConfig;
  rateLimiter : option RateBudget;
  circuitBreaker : option Breaker;
  requestQueue : Queue
}.

Definition set_token (t : option CakemailToken) (c : Client) : Client :=
  {| username := username c; password := password c; baseUrl := baseUrl c;
     debugMode := debugMode c; timeout := timeout c;
     token := t; mockToken := mockToken c; tokenExpiry := tokenExpiry c;
     currentAccountId := currentAccountId c; retryManager := retryManager c;
     rateLimiter := rateLimiter c; circuitBreaker := circuitBreaker c;
     requestQueue := requestQueue c |}.

Definition set_tokenExpiry (e : option Z) (c : Client) : Client :=
  {| username := username c; password := password c; baseUrl := baseUrl c;
     debugMode := debugMode c; timeout := timeout c;
     token := token c; mockToken := mockToken c; tokenExpiry := e;
     currentAccountId := currentAccountId c; retryManager := retryManager c;
     rateLimiter := rateLimiter c; circuitBreaker := circuitBreaker c;
     requestQueue := requestQueue c |}.

Definition set_mockToken (t : option CakemailToken) (c : Client) : Client :=
  {| username := username c; password := password c; baseUrl := baseUrl c;
     debugMode := debugMode c; timeout := timeout c;
     token := token c; mockToken := t; tokenExpiry := tokenExpiry c;
     currentAccountId := currentAccountId c; retryManager := retryManager c;
     rateLimiter := rateLimiter c; circuitBreaker := circuitBreaker c;
     requestQueue := requestQueue c |}.

Definition set_currentAccountId (a : option Z) (c : Client) : Client :=
  {| username := username c; password := password c; baseUrl := baseUrl c;
     debugMode := debugMode c; timeout := timeout c;
     token := token c; mockToken := mockToken c; tokenExpiry := tokenExpiry c;
     currentAccountId := a; retryManager := retryManager c;
     rateLimiter := rateLimiter c; circuitBreaker := circuitBreaker c;
     requestQueue := requestQueue c |}.

Definition set_rateLimiter (r : option RateBudget) (c : Client) : Client :=
  {| username := username c; password := password c; baseUrl := baseUrl c;
     debugMode := debugMode c; timeout := timeout c;
     token := token c; mockToken := mockToken c; tokenExpiry := tokenExpiry c;
     currentAccountId := currentAccountId c; retryManager := retryManager c;
     rateLimiter := r; circuitBreaker := circuitBreaker c;
     requestQueue := requestQueue c |}.

Definition set_circuitBreaker (b : option Breaker) (c : Client) : Client :=
  {| username := username c; password := password c; baseUrl := baseUrl c;
     debugMode := debugMode c; timeout := timeout c;
     token := token c; mockToken := mockToken c; tokenExpiry := tokenExpiry c;
     currentAccountId := currentAccountId c; retryManager := retryManager c;
     rateLimiter := rateLimiter c; circuitBreaker := b;
     requestQueue := requestQueue c |}.

Definition set_requestQueue (q : Queue) (c : Client) : Client :=
  {| username := username c; password := password c; baseUrl := baseUrl c;
     debugMode := debugMode c; timeout := timeout c;
     token := token c; mockToken := mockToken c; tokenExpiry := tokenExpiry c;
     currentAccountId := currentAccountId c; retryManager := retryManager c;
     rateLimiter := rateLimiter c; circuitBreaker := circuitBreaker c;
     requestQueue := q |}.

(** ** Asynchronous code *)

(** Entry points of the stages a call passes through; recorded in the
    event log, without effect on the client. *)
Inductive Stage : Type :=
| StEnsureValid
| StQueueAdmit
| StQueueRelease
| StBreakerGate
| StAttempt (n : nat)
| StRateAcquire.

(** A method body.  [Fetch] and [Sleep] are the points where the method
    suspends ([await fetch(...)], [await new Promise(r => setTimeout(r, ms))]);
    everything between two of them runs without interruption.  [Fetch]
    carries the deadline of [withTimeout] when the call is wrapped in one.
    Calls of the logger have no effect on the client and are left out,
    except where building the logged value can throw: lines 335-340 of
    [base-client.ts] and lines 247 and 265 of [campaign-api.ts]. *)
Inductive Async (A : Type) : Type :=
| Ret (a : A)
| Throw (e : Error)
| GetThis (k : Client -> Async A)
| Update (f : Client -> Client) (k : Async A)
| DateNow (k : Z -> Async A)
| Fetch (r : Request) (deadline : option Z) (k : FetchResult -> Async A)
| Sleep (ms : Z) (k : Async A)
| Mark (s : Stage) (k : Async A).
Arguments Ret {A} a.
Arguments Throw {A} e.
Arguments GetThis {A} k.
Arguments Update {A} f k.
Arguments DateNow {A} k.
Arguments Fetch {A} r deadline k.
Arguments Sleep {A} ms k.
Arguments Mark {A} s k.

Fixpoint bind {A B : Type} (m : Async A) (f : A -> Async B) : Async B :=
  match m with
  | Ret a => f a
  | Throw e => Throw e
  | GetThis k => GetThis (fun c => bind (k c) f)
  | Update g k => Update g (bind k f)
  | DateNow k => DateNow (fun t => bind (k t) f)
  | Fetch r d k => Fetch r d (fun x => bind (k x) f)
  | Sleep ms k => Sleep ms (bind k f)
  | Mark s k => Mark s (bind k f)
  end.

(** [try { m } catch (error) { h error }] *)
Fixpoint catch {A : Type} (m : Async A) (h : Error -> Async A) : Async A :=
  match m with
  | Ret a => Ret a
  | Throw e => h e
  | GetThis k => GetThis (fun c => catch (k c) h)
  | Update g k => Update g (catch k h)
  | DateNow k => DateNow (fun t => catch (k t) h)
  | Fetch r d k => Fetch r d (fun x => catch (k x) h)
  | Sleep ms k => Sleep ms (catch k h)
  | Mark s k => Mark s (catch k h)
  end.

Declare Scope async_scope.
Delimit Scope async_scope with async.
Notation "x <- m ;; k" := (bind m (fun x => k))
  (at level 61, m at next level, right associativity) : async_scope.
Notation "m ;;; k" := (bind m (fun _ => k))
  (at level 61, right associativity) : async_scope.
Local Open Scope async_scope.

Definition this : Async Client := GetThis (fun c => Ret c).
Definition assign (f : Client -> Client) : Async unit := Update f (Ret tt).
Definition now : Async Z := DateNow (fun t => Ret t).
Definition sleep (ms : Z) : Async unit := Sleep ms (Ret tt).
Definition mark (s : Stage) : Async unit := Mark s (Ret tt).

(** [await fetch(...)] and [await withTimeout(fetch(...), ms, message)]: a
    rejection is thrown at the [await]. *)
Definition settled (x : FetchResult) : Async Response :=
  match x with
  | Rejected e => Throw e
  | Responded resp => Ret resp
  end.

Definition fetch (r : Request) : Async Response := Fetch r None settled.

Definition fetchWithTimeout (r : Request) (ms : Z) : Async Response :=
  Fetch r (Some ms) settled.

(** ** One caller against a scripted network *)

(** The [n]-th awaited [fetch] of a run is answered by [net n]: after
    [latency] milliseconds, with [answer]. *)
Record Reply := {
  latency : N;
  answer : FetchResult
}.

Record World := {
  self : Client;
  clock : Z;
  served : nat
}.

(** Modelled from the spec: [withTimeout] of [types/retry], which is not
    among the sources.  Section 4.6: a fixed per-call timeout aborts the
    network call and raises a timeout-classified error if exceeded.
    [race d reply] is the time the [await] takes and what it yields. *)
Definition race (deadline : option Z) (reply : Reply) : Z * FetchResult :=
  match deadline with
  | Some ms =>
      if Z.max 0 ms <? Z.of_N (latency reply)
      then (Z.max 0 ms, Rejected (TimeoutError ms))
      else (Z.of_N (latency reply), answer reply)
  | None => (Z.of_N (latency reply), answer reply)
  end.

Inductive Event : Type :=
| EvFetch (at_ : Z) (r : Request) (x : FetchResult)
| EvSleep (ms : Z)
| EvStage (s : Stage).

Record Run (A : Type) := {
  post : World;
  log : list Event;
  res : Result A
}.

Definition emit {A : Type} (e : Event) (r : Run A) : Run A :=
  {| post := post r; log := e :: log r; res := res r |}.

Section Sequential.
Variable net : nat -> Reply.

Fixpoint run {A : Type} (m : Async A) (w : World) : Run A :=
  match m with
  | Ret a => {| post := w; log := []; res := Ok a |}
  | Throw e => {| post := w; log := []; res := Err e |}
  | GetThis k => run (k (self w)) w
  | Update f k =>
      run k {| self := f (self w); clock := clock w; served := served w |}
  | DateNow k => run (k (clock w)) w
  | Fetch r d k =>
      let settle := race d (net (served w)) in
      emit (EvFetch (clock w) r (snd settle))
        (run (k (snd settle))
             {| self := self w;
                clock := clock w + fst settle;
                served := S (served w) |})
  | Sleep ms k =>
      emit (EvSleep ms)
        (run k {| self := self w; clock := clock w + Z.max 0 ms; served := served w |})
  | Mark s k => emit (EvStage s) (run k w)
  end.

(** Sequencing two runs. *)
Definition andThen {A B : Type} (r : Run A) (f : A -> World -> Run B) : Run B :=
  match res r with
  | Ok a =>
      let r' := f a (post r) in
      {| post := post r'; log := log r ++ log r'; res := res r' |}
  | Err e => {| post := post r; log := log r; res := Err e |}
  end.

Definition orElse {A : Type} (r : Run A) (h : Error -> World -> Run A) : Run A :=
  match res r with
  | Ok a => r
  | Err e =>
      let r' := h e (post r) in
      {| post := post r'; log := log r ++ log r'; res := res r' |}
  end.

End Sequential.

(** ** Credential lifecycle ([base-client.ts], lines 92-206 and 382-521) *)

Definition lift {A : Type} (r : Result A) : Async A :=
  match r with
  | Ok a => Ret a
  | Err e => Throw e
  end.

(** [await response.text()] and [await response.json()] *)
Definition response_text (r : Response) : Result string :=
  match body r with
  | Some text => Ok text
  | None => Err BodyReadError
  end.

Definition response_json (r : Response) : Result json :=
  match body r with
  | Some _ =>
      match parsed r with
      | Some j => Ok j
      | None => Err SyntaxError
      end
  | None => Err BodyReadError
  end.

(** [contentType && contentType.includes('application/json')] *)
Definition is_json_content (r : Response) : bool :=
  match contentType r with
  | Some ct => truthy_string ct && includes "application/json" ct
  | None => false
  end.

(** [parseErrorResponse]: every exception is caught inside, so the method
    always resolves. *)
Definition parseErrorResponse (response : Response) : json :=
  let outer_catch := JObj [("detail", JStr (statusText response))] in
  if is_json_content response then
    match response_json response with
    | Ok j => j
    | Err _ => outer_catch
    end
  else
    match response_text response with
    | Ok text =>
        match parsed response with
        | Some j => j
        | None =>
            JObj [("detail",
                   JStr (if truthy_string text then text else statusText response))]
        end
    | Err _ => outer_catch
    end.

(** The safety margin subtracted from a credential's lifetime, and the
    lead time before the stored expiry at which a refresh is due. *)
Definition expiryBuffer : Z := 60000.
Definition refreshLead : Z := 300000.

(** The two assignments that store a credential (lines 155-156 and
    200-201).  Points in time are integers of any size: the bounds of
    [Date] are not modelled, so the expiry stored for a numeric
    [expires_in] is a date, and logging it in debug mode does not throw. *)
Definition storeToken (tokenData : CakemailToken) : Async unit :=
  assign (set_token (Some tokenData)) ;;;
  t <- now ;;
  assign (set_tokenExpiry (Some (t + expires_in tokenData * 1000 - expiryBuffer))).

(** Lines 154-156 and 199-201, after [await response.json()]:
    [this.token = tokenData] and then the expiry computed from
    [tokenData.expires_in].  With the body [null] the first assignment is
    made and reading [expires_in] throws. *)
Definition storeGrant (tokenData : json) : Async unit :=
  match tokenData with
  | JNull =>
      assign (set_token None) ;;;
      Throw (JsError "Cannot read properties of null (reading 'expires_in')")
  | _ => storeToken (asCakemailToken tokenData)
  end.

(** [errorBody?.error_description || errorBody?.message || errorBody?.error
     || response.statusText] *)
Definition failureDetail (errorBody : json) (response : Response) : json :=
  let pick (k : string) (otherwise : json) :=
    match field k errorBody with
    | Some v => if truthy v then v else otherwise
    | None => otherwise
    end in
  pick "error_description" (pick "message" (pick "error" (JStr (statusText response)))).

(** The error of a failed password request: the message is built first,
    as [`Authentication failed (${response.status}): ${detail}`]. *)
Definition authenticationFailure (response : Response) : Error :=
  let errorBody := parseErrorResponse response in
  let detail := failureDetail errorBody response in
  if printable detail then
    CakemailAuthenticationError (AuthenticationFailed (status response) detail)
      (Some errorBody)
  else JsError "Cannot convert object to primitive value".

Definition passwordAuthenticate : Async unit :=
  c <- this ;;
  response <- fetch (TokenPassword (baseUrl c) (username c) (password c)) ;;
  if negb (ok response) then Throw (authenticationFailure response)
  else
    tokenData <- lift (response_json response) ;;
    storeGrant tokenData.

Definition refreshToken : Async unit :=
  c <- this ;;
  match token c with
  | Some tok =>
      match refresh_token tok with
      | Some rt =>
          if truthy_string rt then
            response <- fetch (TokenRefresh (baseUrl c) rt) ;;
            if negb (ok response) then
              let errorBody := parseErrorResponse response in
              if (status response =? 401) || (status response =? 403) then
                assign (set_token None) ;;;
                assign (set_tokenExpiry None) ;;;
                Throw (CakemailAuthenticationError RefreshTokenInvalid (Some errorBody))
              else
                Throw (CakemailAuthenticationError
                         (TokenRefreshFailed (status response) (statusText response))
                         (Some errorBody))
            else
              tokenData <- lift (response_json response) ;;
              storeGrant tokenData
          else Throw (CakemailAuthenticationError NoRefreshTokenAvailable None)
      | None => Throw (CakemailAuthenticationError NoRefreshTokenAvailable None)
      end
  | None => Throw (CakemailAuthenticationError NoRefreshTokenAvailable None)
  end.

Record TokenStatus := {
  hasToken : bool;
  isExpired : bool;
  expiresAt : option Z;
  timeUntilExpiry : option Z;
  needsRefresh : bool;
  tokenType : option string;
  hasRefreshToken : bool
}.

(** [getTokenStatus]; [t] is the [new Date()] it reads. *)
Definition getTokenStatus (c : Client) (t : Z) : TokenStatus :=
  let hasToken :=
    match token c with
    | Some tok => truthy_string (access_token tok)
    | None => false
    end in
  {| hasToken := hasToken;
     isExpired :=
       match tokenExpiry c with
       | Some e => t >=? e
       | None => negb hasToken
       end;
     expiresAt := tokenExpiry c;
     timeUntilExpiry :=
       match tokenExpiry c with
       | Some e => Some (e - t)
       | None => None
       end;
     needsRefresh :=
       match (if hasToken then tokenExpiry c else None) with
       | Some e => t >=? e - refreshLead
       | None => negb hasToken
       end;
     tokenType :=
       match token c with
       | Some tok => if truthy_string (token_type tok) then Some (token_type tok) else None
       | None => None
       end;
     hasRefreshToken :=
       match token c with
       | Some tok => truthy_opt_string (refresh_token tok)
       | None => false
       end |}.

(** The guard of line 99:
    [this.token?.refresh_token && this.tokenExpiry &&
     new Date() < new Date(this.tokenExpiry.getTime() - 300000)] *)
Definition refreshFirst (c : Client) (t : Z) : bool :=
  match token c, tokenExpiry c with
  | Some tok, Some e => truthy_opt_string (refresh_token tok) && (t <? e - refreshLead)
  | _, _ => false
  end.

(** The [try] block of [authenticate]: one attempt. *)
Definition authAttempt : Async unit :=
  c <- this ;;
  t <- now ;;
  if refreshFirst c t then
    catch refreshToken (fun _ => passwordAuthenticate)
  else
    passwordAuthenticate.

Definition maxRetries : Z := 3.

(** The [while (retryCount < maxRetries)] loop, unrolled [fuel] times. *)
Fixpoint authenticateLoop (fuel : nat) (retryCount : Z) : Async unit :=
  match fuel with
  | O => Ret tt
  | S fuel' =>
      if retryCount <? maxRetries then
        catch authAttempt
          (fun error =>
             let retryCount := retryCount + 1 in
             if retryCount >=? maxRetries then Throw error
             else
               sleep (2 ^ retryCount * 1000) ;;;
               authenticateLoop fuel' retryCount)
      else Ret tt
  end.

Definition authenticate : Async unit :=
  authenticateLoop (Z.to_nat maxRetries) 0.

Definition ensureValidToken : Async unit :=
  mark StEnsureValid ;;;
  c <- this ;;
  if is_some (mockToken c) then Ret tt
  else
    t <- now ;;
    let status := getTokenStatus c t in
    if negb (hasToken status) || isExpired status then authenticate
    else if needsRefresh status && hasRefreshToken status then
      catch refreshToken (fun _ => authenticate)
    else Ret tt.

(** ** The collaborators of [types/retry] *)

(** [try { m } finally { f }] *)
Definition reify {A : Type} (m : Async A) : Async (Result A) :=
  catch (a <- m ;; Ret (Ok a)) (fun e => Ret (Err e)).

Definition finally {A : Type} (m : Async A) (f : Async unit) : Async A :=
  r <- reify m ;; f ;;; lift r.

(** Modelled from the spec: [RateLimiter.acquire], not among the sources.
    Section 4.2: the budget refills continuously at [refillRate] up to
    [capacity]; with at least one token available the call debits it and
    returns at once, otherwise it waits the minimal time that covers the
    deficit and then debits.  [refillRate] is positive. *)
Definition refilled (b : RateBudget) (t : Z) : Z :=
  Z.min (capacity b * 1000) (currentTokens b + (t - lastRefillAt b) * refillRate b).

Definition debit (b : RateBudget) (available t : Z) : RateBudget :=
  {| capacity := capacity b; refillRate := refillRate b;
     currentTokens := available - 1000; lastRefillAt := t |}.

Definition rateLimiter_acquire (b : RateBudget) : Async unit :=
  mark StRateAcquire ;;;
  t <- now ;;
  let available := refilled b t in
  if 1000 <=? available then
    assign (set_rateLimiter (Some (debit b available t)))
  else
    let wait := (1000 - available + refillRate b - 1) / refillRate b in
    sleep wait ;;;
    t' <- now ;;
    assign (set_rateLimiter
              (Some (debit b (Z.min (capacity b * 1000)
                                    (available + (t' - t) * refillRate b)) t'))).

(** Modelled from the spec: the retry classifier, not among the sources.
    Section 4.3: network errors, server errors in the 5xx range and
    rate-limit responses (429) are retryable; other 4xx client errors and
    authentication failures are not.  Section 4.6 classifies a timeout as
    retryable.  Errors the spec does not name are not retried. *)
Definition isRetryable (e : Error) : bool :=
  match e with
  | CakemailNetworkError _ => true
  | TimeoutError _ => true
  | CakemailApiError st _ => ((500 <=? st) && (st <=? 599)) || (st =? 429)
  | _ => false
  end.

(** Modelled from the spec: delay before attempt [n] (n >= 2) is
    [min(base_delay * 2^(n-2), max_delay)], perturbed by jitter. *)
Definition backoff (cfg : RetryConfig) (n : nat) : Z :=
  jitter cfg n (Z.min (baseDelay cfg * 2 ^ (Z.of_nat n - 2)) (maxDelay cfg)).

(** Modelled from the spec: [RetryManager.executeWithRetry], not among the
    sources.  Section 4.3: the operation runs up to [max_attempts] times;
    a failure that is not retryable propagates at once; when the attempts
    are exhausted the last error is surfaced, tagged with the number of
    attempts made.  [retries] counts the attempts still allowed after the
    current one; the operation runs at least once. *)
Fixpoint retryLoop {A : Type} (cfg : RetryConfig) (retries : nat) (attempt : nat)
    (operation : Async A) : Async A :=
  mark (StAttempt attempt) ;;;
  catch operation
    (fun error =>
       if isRetryable error then
         match retries with
         | O => Throw (AfterAttempts attempt error)
         | S retries' =>
             sleep (backoff cfg (S attempt)) ;;;
             retryLoop cfg retries' (S attempt) operation
         end
       else Throw error).

Definition executeWithRetry {A : Type} (operation : Async A) : Async A :=
  c <- this ;;
  let cfg := retryManager c in
  retryLoop cfg (Nat.pred (maxAttempts cfg)) 1 operation.

(** Modelled from the spec: [CircuitBreaker.execute], not among the
    sources.  Section 4.4. *)
Definition set_circuit (b : Breaker) (s : CircuitState) (failures opened : Z) : Breaker :=
  {| circuit := s; consecutiveFailures := failures; openedAt := opened;
     failureThreshold := failureThreshold b; resetTimeout := resetTimeout b |}.

Definition onSuccess : Async unit :=
  assign (fun c =>
            match circuitBreaker c with
            | Some b => set_circuitBreaker (Some (set_circuit b Closed 0 (openedAt b))) c
            | None => c
            end).

Definition onFailure : Async unit :=
  t <- now ;;
  assign (fun c =>
            match circuitBreaker c with
            | Some b =>
                let failures := consecutiveFailures b + 1 in
                match circuit b with
                | HalfOpen => set_circuitBreaker (Some (set_circuit b Open failures t)) c
                | _ =>
                    if failures >=? failureThreshold b
                    then set_circuitBreaker (Some (set_circuit b Open failures t)) c
                    else set_circuitBreaker
                           (Some (set_circuit b (circuit b) failures (openedAt b))) c
                end
            | None => c
            end).

Definition guarded {A : Type} (operation : Async A) : Async A :=
  r <- reify operation ;;
  match r with
  | Ok a => onSuccess ;;; Ret a
  | Err e => onFailure ;;; Throw e
  end.

Definition circuitBreaker_execute {A : Type} (b : Breaker) (operation : Async A) : Async A :=
  mark StBreakerGate ;;;
  t <- now ;;
  match circuit b with
  | Closed => guarded operation
  | Open =>
      if t - openedAt b >=? resetTimeout b then
        assign (set_circuitBreaker
                  (Some (set_circuit b HalfOpen (consecutiveFailures b) (openedAt b)))) ;;;
        guarded operation
      else Throw CircuitOpenError
  | HalfOpen => Throw CircuitOpenError
  end.

(** Modelled from the spec: [RequestQueue.add], not among the sources.
    Section 4.5: the operation holds one slot from admission until it
    completes or fails, and the slot is released exactly once.  A single
    caller is admitted at once; waiting for a free slot only arises among
    concurrent callers. *)
Definition occupy (d : Z) (c : Client) : Client :=
  set_requestQueue {| maxConcurrent := maxConcurrent (requestQueue c);
                      inFlight := inFlight (requestQueue c) + d |} c.

Definition requestQueue_add {A : Type} (operation : Async A) : Async A :=
  mark StQueueAdmit ;;;
  assign (occupy 1) ;;;
  finally operation (assign (occupy (-1)) ;;; mark StQueueRelease).

(** Modelled from the spec: [createCakemailError] of [types/errors], not
    among the sources.  Section 4.6: a non-2xx status becomes a structured
    API error carrying the status code and the parsed error body. *)
Definition createCakemailError (response : Response) (errorBody : json) : Error :=
  CakemailApiError (status response) errorBody.

(** ** The request executor ([base-client.ts], lines 227-347) *)

(** [Object.assign(headers, extra)] on insertion-ordered objects. *)
Fixpoint set_header (k v : string) (hs : list (string * string)) : list (string * string) :=
  match hs with
  | [] => [(k, v)]
  | (k', v') :: rest =>
      if String.eqb k k' then (k, v) :: rest else (k', v') :: set_header k v rest
  end.

Definition assign_headers (hs extra : list (string * string)) : list (string * string) :=
  fold_left (fun acc kv => set_header (fst kv) (snd kv) acc) extra hs.

(** [this.mockToken || this.token] *)
Definition activeToken (c : Client) : option CakemailToken :=
  match mockToken c with
  | Some t => Some t
  | None => token c
  end.

(** Lines 334-343: in debug mode the logged summary reads [result.data],
    which throws on [null]; then [return result]. *)
Definition inspected (debug : bool) (result : json) : Result json :=
  if debug then
    match result with
    | JNull => Err (JsError "Cannot read properties of null (reading 'data')")
    | _ => Ok result
    end
  else Ok result.

Definition executeRequest (endpoint : Endpoint) (options : RequestInit) : Async json :=
  c <- this ;;
  match activeToken c with
  | None => Throw (CakemailAuthenticationError NoAuthenticationToken None)
  | Some tok =>
      let hdrs :=
        assign_headers
          [("Authorization", ("Bearer " ++ access_token tok)%string);
           ("Accept", "application/json");
           ("Content-Type", "application/json")]
          (headers options) in
      response <-
        catch (fetchWithTimeout
                 (ApiCall (baseUrl c) endpoint (method options) hdrs (reqBody options))
                 (timeout c))
              (fun error =>
                 match error with
                 | CakemailNetworkError _ => Throw error
                 | _ => Throw (CakemailNetworkError (Some error))
                 end) ;;
      if negb (ok response) then
        let errorBody := parseErrorResponse response in
        Throw (createCakemailError response errorBody)
      else if is_json_content response then
        result <- lift (response_json response) ;;
        lift (inspected (debugMode c) result)
      else
        Ret (JObj [("success", JBool true); ("status", JNum (status response))])
  end.

Definition makeRequest (endpoint : Endpoint) (options : RequestInit) : Async json :=
  ensureValidToken ;;;
  let operation :=
    c <- this ;;
    match rateLimiter c with
    | Some b => rateLimiter_acquire b
    | None => Ret tt
    end ;;;
    executeRequest endpoint options in
  requestQueue_add
    (c <- this ;;
     match circuitBreaker c with
     | Some b => circuitBreaker_execute b (executeWithRetry operation)
     | None => executeWithRetry operation
     end).

(** ** Campaign operations ([campaign-api.ts], lines 31-97 and 620-649;
       [base-client.ts], lines 350-365) *)

(** JavaScript truthiness of an optional number. *)
Definition truthy_opt_number (o : option Z) : bool :=
  match o with
  | Some n => negb (n =? 0)
  | None => false
  end.

(** [account.data?.id || null], for an [id] of the declared type
    [number]: zero is dropped like a missing [id]. *)
Definition accountIdOf (account : json) : option Z :=
  match field "data" account with
  | Some d =>
      match field_number "id" d with
      | Some n => if n =? 0 then None else Some n
      | None => None
      end
  | None => None
  end.

Definition getCurrentAccountId : Async (option Z) :=
  c <- this ;;
  if truthy_opt_number (currentAccountId c) then Ret (currentAccountId c)
  else
    catch
      (account <- makeRequest (plain "/accounts/self") noOptions ;;
       match account with
       | JNull => Throw (JsError "Cannot read properties of null (reading 'data')")
       | _ =>
           assign (set_currentAccountId (accountIdOf account)) ;;;
           Ret (accountIdOf account)
       end)
      (fun _ => Ret None).

(** [GetCampaignsParams & { account_id?: number }] *)
Record GetCampaignsParams := {
  sort : option string;
  order : option string;
  filter_status : option string;
  filter_name : option string;
  filter_type : option string;
  filter_list_id : option string;
  page : option Z;
  per_page : option Z;
  with_count : option bool;
  account_id : option Z
}.

Definition noParams : GetCampaignsParams :=
  {| sort := None; order := None; filter_status := None; filter_name := None;
     filter_type := None; filter_list_id := None; page := None; per_page := None;
     with_count := None; account_id := None |}.

Definition validSortTerms : list string :=
  ["name"; "created_on"; "scheduled_for"; "scheduled_on"; "updated_on"; "type"].

Definition whenTruthy (k : string) (v : option string) : list string :=
  match v with
  | Some s => if truthy_string s then [(k ++ "==" ++ s)%string] else []
  | None => []
  end.

Definition perPageLimit : Z := 50.

Definition getCampaigns (params : option GetCampaignsParams) : Async json :=
  let p := match params with Some p => p | None => noParams end in
  (* 1. sorting *)
  let sortParam :=
    if truthy_opt_string (sort p) then
      match sort p with
      | Some s =>
          ((match order p with
            | Some "desc" => "-"
            | _ => "+"
            end) ++ s)%string
      | None => "-created_on"
      end
    else "-created_on" in
  (* 2. filtering *)
  let filters :=
    whenTruthy "status" (filter_status p) ++ whenTruthy "name" (filter_name p) ++
    whenTruthy "type" (filter_type p) ++ whenTruthy "list_id" (filter_list_id p) in
  let apiParams :=
    [("sort", QStr sortParam)] ++
    match filters with
    | [] => []
    | _ => [("filter", QStr (String.concat ";" filters))]
    end ++
    (* 3. direct parameters *)
    (if truthy_opt_number (page p)
     then match page p with Some n => [("page", QNum n)] | None => [] end else []) ++
    (if truthy_opt_number (per_page p)
     then match per_page p with Some n => [("per_page", QNum n)] | None => [] end else []) ++
    match with_count p with
    | Some true => [("with_count", QBool true)]
    | _ => []
    end in
  (* 4. account scoping *)
  accountId <-
    (if truthy_opt_number (account_id p) then Ret (account_id p)
     else getCurrentAccountId) ;;
  let apiParams :=
    apiParams ++
    (if truthy_opt_number accountId
     then match accountId with Some a => [("account_id", QNum a)] | None => [] end
     else []) in
  (* 5. sort term *)
  if truthy_opt_string (sort p) &&
     negb (existsb (String.eqb (match sort p with Some s => s | None => "" end))
             validSortTerms)
  then
    Throw (JsError ("Invalid sort term '" ++
                    (match sort p with Some s => s | None => "" end) ++
                    "'. Valid terms: " ++ String.concat ", " validSortTerms))
  (* 6. pagination limit *)
  else if truthy_opt_number (per_page p) &&
          (match per_page p with Some n => n >? perPageLimit | None => false end)
  then Throw (JsError "per_page cannot exceed 50 (API limit)")
  else makeRequest {| path := "/campaigns"; query := apiParams |} noOptions.

(** [PaginationParams] *)
Record PaginationParams := {
  pg_page : option Z;
  pg_per_page : option Z;
  pg_with_count : option bool
}.

(** The query of [getCampaignRevisions] and [getCampaignLinks]. *)
Definition pagedQuery (params : option PaginationParams) (accountId : option Z)
    : list (string * QueryValue) :=
  [("page",
    QNum (match params with
          | Some p => if truthy_opt_number (pg_page p)
                      then match pg_page p with Some n => n | None => 1 end else 1
          | None => 1
          end));
   ("per_page",
    QNum (match params with
          | Some p => if truthy_opt_number (pg_per_page p)
                      then match pg_per_page p with Some n => n | None => 50 end else 50
          | None => 50
          end));
   ("with_count",
    QBool (match params with
           | Some p => match pg_with_count p with Some false => false | _ => true end
           | None => true
           end))] ++
  (if truthy_opt_number accountId
   then match accountId with Some a => [("account_id", QNum a)] | None => [] end
   else []).

Definition getCampaignRevisions (id : string) (params : option PaginationParams)
    : Async json :=
  accountId <- getCurrentAccountId ;;
  makeRequest {| path := ("/campaigns/" ++ id ++ "/revisions")%string;
                 query := pagedQuery params accountId |} noOptions.

Definition getCampaignLinks (id : string) (params : option PaginationParams)
    : Async json :=
  accountId <- getCurrentAccountId ;;
  makeRequest {| path := ("/campaigns/" ++ id ++ "/links")%string;
                 query := pagedQuery params accountId |} noOptions.

(** ** The latest campaign ([campaign-api.ts], lines 220-281) *)

(** The [params] object of [getLatestCampaign], with the [account_id] it
    holds at the moment. *)
Definition latestParams (status : option string) (accountId : option Z)
    : GetCampaignsParams :=
  {| sort := Some "created_on"; order := Some "desc";
     filter_status := if truthy_opt_string status then status else None;
     filter_name := None; filter_type := None; filter_list_id := None;
     page := Some 1; per_page := Some 1; with_count := None;
     account_id := accountId |}.

(** In debug mode the campaign found is logged as [`${result.data[0].id}`]
    before it is returned. *)
Definition announced (debug : bool) (x : json) : Result (option json) :=
  if debug then
    match x with
    | JNull => Err (JsError "Cannot read properties of null (reading 'id')")
    | _ =>
        if match field "id" x with Some v => printable v | None => true end
        then Ok (Some x)
        else Err (JsError "Cannot convert object to primitive value")
    end
  else Ok (Some x).

(** [result.data && Array.isArray(result.data) && result.data.length > 0],
    and [result.data[0]] when it holds. *)
Definition firstOf (debug : bool) (result : json) : Result (option json) :=
  match result with
  | JNull => Err (JsError "Cannot read properties of null (reading 'data')")
  | _ =>
      match field "data" result with
      | Some (JArr (x :: _)) => announced debug x
      | _ => Ok None
      end
  end.

(** The body shared by the two [try] blocks, from the call of
    [getCampaigns] on: [Some x] when the block returns [x]. *)
Definition latestOf (p : GetCampaignsParams) : Async (option json) :=
  result <- getCampaigns (Some p) ;;
  c <- this ;;
  lift (firstOf (debugMode c) result).

(** [params] is assigned inside the first [try] block and read after it.
    The block is split at the assignment, so that the code after the
    block sees the [account_id] that was set when the exception was
    thrown; both handlers only log. *)
Definition getLatestCampaign (status : option string) : Async json :=
  tried <-
    catch
      (accountId <- getCurrentAccountId ;;
       let account := if truthy_opt_number accountId then accountId else None in
       catch
         (found <- latestOf (latestParams status account) ;; Ret (account, found))
         (fun _ => Ret (account, None)))
      (fun _ => Ret (None, None)) ;;
  match snd tried with
  | Some campaign => Ret campaign
  | None =>
      if truthy_opt_number (fst tried) then
        found <- catch (latestOf (latestParams status None)) (fun _ => Ret None) ;;
        match found with
        | Some campaign => Ret campaign
        | None => Ret JNull
        end
      else Ret JNull
  end.

(** ** Regular expressions and [isValidEmail] ([base-client.ts], lines
       367-371) *)

Section Patterns.
Import Ascii.

(** The regular expressions the client uses are built from character
    classes, sequence and repetition; [test] on a pattern anchored at both
    ends asks whether the whole string is in the language.  A string is
    its sequence of code units, each below 256. *)
Inductive Regex : Type :=
| Never
| Empty
| Class (accepts : Ascii.ascii -> bool)
| Seq (r1 r2 : Regex)
| Alt (r1 r2 : Regex)
| Star (r : Regex).

(** [r+] *)
Definition Plus (r : Regex) : Regex := Seq r (Star r).

Fixpoint nullable (r : Regex) : bool :=
  match r with
  | Never => false
  | Empty => true
  | Class _ => false
  | Seq r1 r2 => nullable r1 && nullable r2
  | Alt r1 r2 => nullable r1 || nullable r2
  | Star _ => true
  end.

(** What is left of [r] after the code unit [c]. *)
Fixpoint derivative (c : Ascii.ascii) (r : Regex) : Regex :=
  match r with
  | Never => Never
  | Empty => Never
  | Class accepts => if accepts c then Empty else Never
  | Seq r1 r2 =>
      if nullable r1
      then Alt (Seq (derivative c r1) r2) (derivative c r2)
      else Seq (derivative c r1) r2
  | Alt r1 r2 => Alt (derivative c r1) (derivative c r2)
  | Star r1 => Seq (derivative c r1) (Star r1)
  end.

(** [/^r$/.test(s)] *)
Fixpoint test (r : Regex) (s : string) : bool :=
  match s with
  | EmptyString => nullable r
  | String c rest => test (derivative c r) rest
  end.

(** [\s], among the code units below 256: tab, line feed, vertical tab,
    form feed, carriage return, space and no-break space. *)
Definition isWhiteSpace (c : Ascii.ascii) : bool :=
  let n := Z.of_N (Ascii.N_of_ascii c) in
  ((9 <=? n) && (n <=? 13)) || (n =? 32) || (n =? 160).

(** [[^\s@]] *)
Definition notSpaceOrAt (c : Ascii.ascii) : bool :=
  negb (isWhiteSpace c || Ascii.eqb c "@"%char).

(** [/^[^\s@]+@[^\s@]+\.[^\s@]+$/] *)
Definition emailRegex : Regex :=
  Seq (Plus (Class notSpaceOrAt))
    (Seq (Class (Ascii.eqb "@"%char))
       (Seq (Plus (Class notSpaceOrAt))
          (Seq (Class (Ascii.eqb "."%char))
             (Plus (Class notSpaceOrAt))))).

Definition isValidEmail (email : string) : bool := test emailRegex email.

End Patterns.

(** ** Senders ([handlers/reports/list-account-stats.ts], lines 415-525) *)

(** [accountId ? `?account_id=${accountId}` : ''] *)
Definition accountQuery (accountId : option Z) : list (string * QueryValue) :=
  if truthy_opt_number accountId
  then match accountId with Some a => [("account_id", QNum a)] | None => [] end
  else [].

Module CreateSenderData.
Record t := {
  name : string;
  email : string;
  language : option string
}.
End CreateSenderData.

Module UpdateSenderData.
Record t := {
  name : option string;
  email : option string;
  language : option string
}.
End UpdateSenderData.

(** [array.find(predicate)], with a predicate that may throw. *)
Fixpoint find_ (predicate : json -> Result bool) (xs : list json) : Result (option json) :=
  match xs with
  | [] => Ok None
  | x :: rest =>
      match predicate x with
      | Ok true => Ok (Some x)
      | Ok false => find_ predicate rest
      | Err e => Err e
      end
  end.

(** [s => s.email === email] *)
Definition hasEmail (email : string) (s : json) : Result bool :=
  match s with
  | JNull => Err (JsError "Cannot read properties of null (reading 'email')")
  | _ =>
      Ok (match field_string "email" s with
          | Some e => String.eqb e email
          | None => false
          end)
  end.

(** [s => s.is_default === true] *)
Definition isDefault (s : json) : Result bool :=
  match s with
  | JNull => Err (JsError "Cannot read properties of null (reading 'is_default')")
  | _ =>
      Ok (match field "is_default" s with
          | Some (JBool true) => true
          | _ => false
          end)
  end.

(** [response.data]; reading it off [null] throws. *)
Definition dataOf (response : json) : Result (option json) :=
  match response with
  | JNull => Err (JsError "Cannot read properties of null (reading 'data')")
  | _ => Ok (field "data" response)
  end.

Section Senders.

(** [JSON.stringify], the runtime's. *)
Variable JSON_stringify : json -> string.

Definition getSenders : Async json :=
  accountId <- getCurrentAccountId ;;
  makeRequest {| path := "/brands/default/senders"; query := accountQuery accountId |}
    noOptions.

Definition createSender (data : CreateSenderData.t) : Async json :=
  if negb (isValidEmail (CreateSenderData.email data)) then
    Throw (JsError "Invalid email format")
  else
    let senderData :=
      JObj [("name", JStr (CreateSenderData.name data));
            ("email", JStr (CreateSenderData.email data));
            ("language",
             JStr (match CreateSenderData.language data with
                   | Some l => if truthy_string l then l else "en_US"
                   | None => "en_US"
                   end))] in
    accountId <- getCurrentAccountId ;;
    makeRequest {| path := "/brands/default/senders"; query := accountQuery accountId |}
      {| method := Some "POST"; headers := [];
         reqBody := Some (JSON_stringify senderData) |}.

Definition getSender (senderId : string) : Async json :=
  accountId <- getCurrentAccountId ;;
  makeRequest {| path := ("/brands/default/senders/" ++ senderId)%string;
                 query := accountQuery accountId |}
    noOptions.

(** A field of [updateData], unless it is [undefined]. *)
Definition defined (k : string) (v : option string) : list (string * json) :=
  match v with
  | Some s => [(k, JStr s)]
  | None => []
  end.

Definition updateSender (senderId : string) (data : UpdateSenderData.t) : Async json :=
  if truthy_opt_string (UpdateSenderData.email data) &&
     negb (isValidEmail (match UpdateSenderData.email data with
                         | Some e => e
                         | None => ""
                         end))
  then Throw (JsError "Invalid email format")
  else
    let updateData :=
      JObj (defined "name" (UpdateSenderData.name data) ++
            defined "email" (UpdateSenderData.email data) ++
            defined "language" (UpdateSenderData.language data)) in
    accountId <- getCurrentAccountId ;;
    makeRequest {| path := ("/brands/default/senders/" ++ senderId)%string;
                   query := accountQuery accountId |}
      {| method := Some "PATCH"; headers := [];
         reqBody := Some (JSON_stringify updateData) |}.

Definition deleteSender (senderId : string) : Async json :=
  accountId <- getCurrentAccountId ;;
  makeRequest {| path := ("/brands/default/senders/" ++ senderId)%string;
                 query := accountQuery accountId |}
    {| method := Some "DELETE"; headers := []; reqBody := None |}.

(** [response.data?.find(s => s.email === email)], then [sender || null]. *)
Definition senderWithEmail (email : string) (response : json) : Result json :=
  match dataOf response with
  | Err e => Err e
  | Ok None => Ok JNull
  | Ok (Some JNull) => Ok JNull
  | Ok (Some (JArr xs)) =>
      match find_ (hasEmail email) xs with
      | Ok (Some sender) => Ok sender
      | Ok None => Ok JNull
      | Err e => Err e
      end
  | Ok (Some _) => Err (JsError "response.data?.find is not a function")
  end.

Definition findSenderByEmail (email : string) : Async json :=
  response <- getSenders ;;
  lift (senderWithEmail email response).

(** The result is [None] where the method returns [undefined]. *)
Definition ensureSenderExists (email name : string) (language : option string)
    : Async (option json) :=
  existing <- findSenderByEmail email ;;
  if truthy existing then Ret (Some existing)
  else
    response <-
      createSender {| CreateSenderData.name := name;
                      CreateSenderData.email := email;
                      CreateSenderData.language := language |} ;;
    data <- lift (dataOf response) ;;
    Ret data.

(** The body of [getDefaultSender] after the listing. *)
Definition defaultAmong (response : json) : Result json :=
  match dataOf response with
  | Err e => Err e
  | Ok None => Ok JNull
  | Ok (Some data) =>
      if negb (truthy data) then Ok JNull
      else
        match data with
        | JArr [] => Ok JNull
        | JArr (first :: rest) =>
            match find_ isDefault (first :: rest) with
            | Ok (Some sender) => Ok sender
            | Ok None => Ok first
            | Err e => Err e
            end
        | JObj fields =>
            match lookup_field "length" fields with
            | Some (JNum 0) => Ok JNull
            | _ => Err (JsError "response.data.find is not a function")
            end
        | _ => Err (JsError "response.data.find is not a function")
        end
  end.

Definition getDefaultSender : Async json :=
  response <- getSenders ;;
  lift (defaultAmong response).

End Senders.

(** ** Transactional email ([unnamed/part_001], lines 11-99) *)

Module TransactionalEmailData.
Record t := {
  to_email : string;
  to_name : option string;
  sender_id : option json;
  subject : option string;
  html_content : option string;
  text_content : option string;
  template_id : option json;
  list_id : option json
}.
End TransactionalEmailData.

(** JavaScript truthiness of a value that may be [undefined]. *)
Definition truthy_opt (v : option json) : bool :=
  match v with
  | Some j => truthy j
  | None => false
  end.

(** A field added when its value is truthy. *)
Definition whenSet (k : string) (v : option string) : list (string * json) :=
  match v with
  | Some s => if truthy_string s then [(k, JStr s)] else []
  | None => []
  end.

Section Transactional.

(** The runtime's [JSON.stringify] and [String], and [value > 0] on a
    value that is not a number; the [message] of an error of
    [types/errors], which is not among the sources. *)
Variable JSON_stringify : json -> string.
Variable String_of : option json -> string.
Variable positive : json -> bool.
Variable describe : Error -> string.

(** [error.message] *)
Definition messageOf (e : Error) : string :=
  match e with
  | JsError m => m
  | _ => describe e
  end.

(** [emailData] before [list_id] is set. *)
Definition emailData (data : TransactionalEmailData.t) : list (string * json) :=
  let content :=
    if truthy_opt (TransactionalEmailData.template_id data) then
      [("type", JStr "transactional");
       ("template",
        JObj [("id", JStr (String_of (TransactionalEmailData.template_id data)))]);
       ("encoding", JStr "utf-8")] ++
      whenSet "subject" (TransactionalEmailData.subject data)
    else
      [("type", JStr "transactional")] ++
      match TransactionalEmailData.subject data with
      | Some s => [("subject", JStr s)]
      | None => []
      end ++
      [("encoding", JStr "utf-8")] ++
      whenSet "html" (TransactionalEmailData.html_content data) ++
      whenSet "text" (TransactionalEmailData.text_content data) in
  [("email", JStr (TransactionalEmailData.to_email data));
   ("sender", JObj [("id", JStr (String_of (TransactionalEmailData.sender_id data)))]);
   ("content", JObj content)] ++
  whenSet "name" (TransactionalEmailData.to_name data).

(** [lists.data && lists.data.length > 0], and [lists.data[0].id] when it
    holds: [Ok None] when the guard fails, [Ok (Some id)] with the value
    read, which may be [undefined]. *)
Definition firstListId (lists : json) : Result (option (option json)) :=
  let idOf (entry : option json) : Result (option (option json)) :=
    match entry with
    | None => Err (JsError "Cannot read properties of undefined (reading 'id')")
    | Some JNull => Err (JsError "Cannot read properties of null (reading 'id')")
    | Some x => Ok (Some (field "id" x))
    end in
  match lists with
  | JNull => Err (JsError "Cannot read properties of null (reading 'data')")
  | _ =>
      match field "data" lists with
      | None => Ok None
      | Some data =>
          if negb (truthy data) then Ok None
          else
            match data with
            | JArr [] => Ok None
            | JArr (x :: _) => idOf (Some x)
            | JStr (String c _) => idOf (Some (JStr (String c "")))
            | JObj fields =>
                if match lookup_field "length" fields with
                   | None => false
                   | Some JNull => false
                   | Some (JBool b) => b
                   | Some (JNum n) => n >? 0
                   | Some other => positive other
                   end
                then idOf (lookup_field "0" fields)
                else Ok None
            | _ => Ok None
            end
      end
  end.

Definition noListsMessage : string :=
  "No contact lists available. A list_id is required for v2 API. Please create a contact list first.".

(** The value of [emailData.list_id]. *)
Definition resolveListId (data : TransactionalEmailData.t) : Async string :=
  if negb (truthy_opt (TransactionalEmailData.list_id data)) then
    catch
      (lists <- makeRequest {| path := "/lists"; query := [("per_page", QNum 1)] |}
                  noOptions ;;
       found <- lift (firstListId lists) ;;
       match found with
       | Some id => Ret (String_of id)
       | None => Throw (JsError noListsMessage)
       end)
      (fun error =>
         Throw (JsError ("Failed to get default list for transactional email: " ++
                         messageOf error ++ ". Please provide a list_id parameter.")))
  else Ret (String_of (TransactionalEmailData.list_id data)).

Definition sendTransactionalEmail (data : TransactionalEmailData.t) : Async json :=
  if negb (isValidEmail (TransactionalEmailData.to_email data)) then
    Throw (JsError "Invalid recipient email format")
  else
    listId <- resolveListId data ;;
    accountId <- getCurrentAccountId ;;
    makeRequest {| path := "/v2/emails"; query := accountQuery accountId |}
      {| method := Some "POST"; headers := [];
         reqBody :=
           Some (JSON_stringify (JObj (emailData data ++ [("list_id", JStr listId)]))) |}.

Definition getEmailStatus (emailId : string) : Async json :=
  accountId <- getCurrentAccountId ;;
  makeRequest {| path := ("/v2/emails/" ++ emailId)%string;
                 query := accountQuery accountId |}
    noOptions.

End Transactional.

(** ** Manual refresh and the test hook ([base-client.ts], lines 411-442
       and 524-526) *)




Definition setMockToken (tok : CakemailToken) : Async unit :=
  assign (set_mockToken (Some tok)).

(** ** The pagination configuration registry ([campaign-api.ts], lines
       722-854) *)

(** A JavaScript [Map] with string keys: bindings in insertion order, one
    per key.  [set] on a key already present replaces the value where it
    stands. *)
Section InsertionOrderedMap.
Variable V : Type.

Fixpoint Map_get (k : string) (m : list (string * V)) : option V :=
  match m with
  | [] => None
  | (k', v) :: rest => if String.eqb k k' then Some v else Map_get k rest
  end.

Fixpoint Map_set (k : string) (v : V) (m : list (string * V)) : list (string * V) :=
  match m with
  | [] => [(k, v)]
  | (k', v') :: rest =>
      if String.eqb k k' then (k, v) :: rest else (k', v') :: Map_set k v rest
  end.

Definition Map_has (k : string) (m : list (string * V)) : bool :=
  is_some (Map_get k m).

Definition Map_delete (k : string) (m : list (string * V)) : list (string * V) :=
  filter (fun kv => negb (String.eqb k (fst kv))) m.

End InsertionOrderedMap.

Inductive PaginationStrategy : Type := OFFSET | CURSOR.

Record PaginationConfig := {
  strategy : PaginationStrategy;
  default_limit : Z;
  max_limit : Z;
  page_param : option string;
  size_param : option string;
  cursor_param : option string
}.

Definition offsetConfig (default_limit max_limit : Z) : PaginationConfig :=
  {| strategy := OFFSET; default_limit := default_limit; max_limit := max_limit;
     page_param := Some "page"; size_param := Some "per_page"; cursor_param := None |}.

Definition cursorConfig (default_limit max_limit : Z) : PaginationConfig :=
  {| strategy := CURSOR; default_limit := default_limit; max_limit := max_limit;
     page_param := None; size_param := None; cursor_param := Some "cursor" |}.

(** The static field [configs]; every method below takes the current
    value of the field and, where it assigns, returns the new one. *)
Definition Registry : Type := list (string * PaginationConfig).

Definition configs : Registry :=
  [("lists", offsetConfig 50 100);
   ("contacts", offsetConfig 50 100);
   ("campaigns", offsetConfig 10 50);
   ("templates", offsetConfig 50 100);
   ("senders", offsetConfig 50 100);
   ("sub_accounts", offsetConfig 50 100);
   ("logs", cursorConfig 50 100);
   ("campaign_logs", cursorConfig 50 100);
   ("email_logs", offsetConfig 50 100);
   ("email_stats", offsetConfig 50 100);
   ("actions", offsetConfig 50 100);
   ("workflows", offsetConfig 50 100);
   ("campaign_reports", offsetConfig 50 100);
   ("exports", offsetConfig 50 100)].

Definition getConfig (endpoint : string) (reg : Registry) : PaginationConfig :=
  match Map_get endpoint reg with
  | Some config => config
  | None => offsetConfig 50 100
  end.

Definition registerEndpoint (endpoint : string) (config : PaginationConfig)
    (reg : Registry) : Registry :=
  Map_set endpoint config reg.

Definition getAllConfigs (reg : Registry) : Registry := reg.

Definition hasConfig (endpoint : string) (reg : Registry) : bool :=
  Map_has endpoint reg.

Definition removeConfig (endpoint : string) (reg : Registry) : bool * Registry :=
  (Map_has endpoint reg, Map_delete endpoint reg).

Definition clear (reg : Registry) : Registry := [].

(** * Notions used in the statements, and the scenarios they are tried on *)

(** ** What one token request does *)

(** The world after an awaited [fetch] that took [dt] milliseconds. *)
Definition tick (w : World) (dt : Z) : World :=
  {| self := self w; clock := clock w + dt; served := S (served w) |}.

(** The world after the two assignments of [storeToken]. *)
Definition stored (td : CakemailToken) (w : World) : World :=
  {| self := set_tokenExpiry (Some (clock w + expires_in td * 1000 - expiryBuffer))
               (set_token (Some td) (self w));
     clock := clock w; served := served w |}.

(** The world after [this.token = null; this.tokenExpiry = null]. *)
Definition cleared (w : World) : World :=
  {| self := set_tokenExpiry None (set_token None (self w));
     clock := clock w; served := served w |}.

(** The world after [this.token = null] alone. *)
Definition dropped (w : World) : World :=
  {| self := set_token None (self w); clock := clock w; served := served w |}.

(** The grant read from the body of a 2xx answer. *)
Definition grantOf (response : Response) : Result CakemailToken :=
  match response_json response with
  | Ok JNull => Err (JsError "Cannot read properties of null (reading 'expires_in')")
  | Ok j => Ok (asCakemailToken j)
  | Err e => Err e
  end.

(** The answer is a 2xx whose body is [null]. *)
Definition voids (x : FetchResult) : bool :=
  match x with
  | Rejected _ => false
  | Responded response =>
      ok response &&
      match response_json response with
      | Ok JNull => true
      | _ => false
      end
  end.

(** How [passwordAuthenticate] reads the answer to its request. *)
Definition passwordGrant (x : FetchResult) : Result CakemailToken :=
  match x with
  | Rejected e => Err e
  | Responded response =>
      if ok response then grantOf response
      else Err (authenticationFailure response)
  end.

(** [response.status === 401 || response.status === 403] on a failed refresh. *)
Definition invalidates (x : FetchResult) : bool :=
  match x with
  | Rejected _ => false
  | Responded response =>
      negb (ok response) && ((status response =? 401) || (status response =? 403))
  end.

(** How [refreshToken] reads the answer to its request. *)
Definition refreshGrant (x : FetchResult) : Result CakemailToken :=
  match x with
  | Rejected e => Err e
  | Responded response =>
      if ok response then grantOf response
      else if (status response =? 401) || (status response =? 403) then
        Err (CakemailAuthenticationError RefreshTokenInvalid
               (Some (parseErrorResponse response)))
      else
        Err (CakemailAuthenticationError
               (TokenRefreshFailed (status response) (statusText response))
               (Some (parseErrorResponse response)))
  end.

(** [this.token?.refresh_token], when truthy. *)
Definition usableRefreshToken (c : Client) : option string :=
  match token c with
  | Some tok =>
      match refresh_token tok with
      | Some rt => if truthy_string rt then Some rt else None
      | None => None
      end
  | None => None
  end.

Definition passwordRequest (c : Client) : Request :=
  TokenPassword (baseUrl c) (username c) (password c).

(** ** The stored credential and its safety margin *)

Inductive CredentialOp : Type := PasswordAcquisition | Refresh.

Definition perform (op : CredentialOp) : Async unit :=
  match op with
  | PasswordAcquisition => passwordAuthenticate
  | Refresh => refreshToken
  end.





(** A client that has not authenticated yet, and a service that grants
    every token request. *)
Definition demoRetry : RetryConfig :=
  {| maxAttempts := 3; baseDelay := 1000; maxDelay := 30000; jitter := fun _ d => d |}.

Definition freshClient : Client :=
  {| username := "user@example.com"; password := "secret";
     baseUrl := "https://api.cakemail.dev"; debugMode := false; timeout := 30000;
     token := None; mockToken := None; tokenExpiry := None;
     currentAccountId := None; retryManager := demoRetry;
     rateLimiter := None; circuitBreaker := None;
     requestQueue := {| maxConcurrent := 10; inFlight := 0 |} |}.

Definition startWorld : World :=
  {| self := freshClient; clock := 1000000; served := 0 |}.

Definition tokenJson : json :=
  JObj [("access_token", JStr "A1"); ("refresh_token", JStr "R1");
        ("token_type", JStr "bearer"); ("expires_in", JNum 3600)].

Definition jsonResponse (st : Z) (j : json) : Response :=
  {| status := st; statusText := ""; contentType := Some "application/json";
     body := Some "{}"; parsed := Some j |}.

Definition after (ms : N) (resp : Response) : Reply :=
  {| latency := ms; answer := Responded resp |}.

Definition alwaysGrant (n : nat) : Reply := after 20 (jsonResponse 200 tokenJson).

(** ** The retry loop of [authenticate] *)

(** The world after [await new Promise(resolve => setTimeout(resolve, ms))]. *)
Definition pause (ms : Z) (w : World) : World :=
  {| self := self w; clock := clock w + Z.max 0 ms; served := served w |}.

Definition requests (l : list Event) : list Request :=
  flat_map (fun e => match e with EvFetch _ r _ => [r] | _ => [] end) l.

Definition sleeps (l : list Event) : list Z :=
  flat_map (fun e => match e with EvSleep ms => [ms] | _ => [] end) l.

Definition passwordCount (l : list Event) : nat :=
  List.length (filter is_password_request (requests l)).

(** ** [ensureValidToken] *)

Definition done {A : Type} (a : A) (w : World) : Run A :=
  {| post := w; log := []; res := Ok a |}.

Definition staleToken : CakemailToken :=
  {| access_token := "A0"; refresh_token := Some "R0"; token_type := "bearer";
     expires_in := 3600; accounts := [] |}.

(** A client whose credential is due for refresh (stored expiry 100 s
    ahead), and a service that rejects the refresh token. *)
Definition staleWorld : World :=
  {| self := set_tokenExpiry (Some 1100000) (set_token (Some staleToken) freshClient);
     clock := 1000000; served := 0 |}.

Definition invalidGrant : Response :=
  jsonResponse 401 (JObj [("error", JStr "invalid_grant")]).


Definition rejectRefresh (n : nat) : Reply :=
  match n with
  | O => after 20 invalidGrant
  | _ => after 20 (jsonResponse 200 tokenJson)
  end.

(** ** Response classification in [executeRequest] *)

Definition apiRequest (c : Client) (tok : CakemailToken)
    (endpoint : Endpoint) (options : RequestInit) : Request :=
  ApiCall (baseUrl c) endpoint (method options)
    (assign_headers
       [("Authorization", ("Bearer " ++ access_token tok)%string);
        ("Accept", "application/json");
        ("Content-Type", "application/json")]
       (headers options))
    (reqBody options).

Definition successValue (response : Response) : json :=
  JObj [("success", JBool true); ("status", JNum (status response))].

(** What [executeRequest] makes of the settled network call. *)
Definition classified (debug : bool) (x : FetchResult) : Result json :=
  match x with
  | Rejected (CakemailNetworkError cause) => Err (CakemailNetworkError cause)
  | Rejected e => Err (CakemailNetworkError (Some e))
  | Responded response =>
      if negb (ok response) then
        Err (createCakemailError response (parseErrorResponse response))
      else if is_json_content response then
        match response_json response with
        | Ok result => inspected debug result
        | Err e => Err e
        end
      else Ok (successValue response)
  end.

Definition authedWorld : World :=
  {| self := set_tokenExpiry (Some 4600000) (set_token (Some staleToken) freshClient);
     clock := 1000000; served := 0 |}.

Definition noContent : Response :=
  {| status := 204; statusText := "No Content"; contentType := None;
     body := Some ""; parsed := None |}.

Definition deleted (n : nat) : Reply := after 15 noContent.

(** ** The retry manager *)

Definition attemptMarks (l : list Event) : nat :=
  List.length (filter (fun e => match e with EvStage (StAttempt _) => true | _ => false end) l).

Definition failed {A : Type} (e : Error) (w : World) : Run A :=
  {| post := w; log := []; res := Err e |}.

Definition notFound : Response :=
  jsonResponse 404 (JObj [("detail", JStr "Not found")]).

Definition missing (n : nat) : Reply := after 15 notFound.

(** ** Requests the client does not look into *)

(** Two runs that end in the same world with the same result; the logged
    requests may differ. *)
Definition sameOutcome {A : Type} (r1 r2 : Run A) : Prop :=
  post r1 = post r2 /\ res r1 = res r2.

(** Two methods that end alike from every world. *)
Definition similar (net : nat -> Reply) {A : Type} (m1 m2 : Async A) : Prop :=
  forall w, sameOutcome (run net m1 w) (run net m2 w).

(** ** Properties of every logged event *)

(** Every event a method logs satisfies [P]. *)
Definition allEvents (net : nat -> Reply) (P : Event -> Prop) {A : Type}
    (m : Async A) : Prop :=
  forall w, Forall P (log (run net m w)).

(** ** The pagination limit of [getCampaigns] *)

Definition with_per_page (n : option Z) (p : GetCampaignsParams) : GetCampaignsParams :=
  {| sort := sort p; order := order p; filter_status := filter_status p;
     filter_name := filter_name p; filter_type := filter_type p;
     filter_list_id := filter_list_id p; page := page p; per_page := n;
     with_count := with_count p; account_id := account_id p |}.

(** The sort term passes check 5 of [getCampaigns]. *)
Definition sortAccepted (p : GetCampaignsParams) : bool :=
  negb (truthy_opt_string (sort p) &&
        negb (existsb (String.eqb (match sort p with Some s => s | None => "" end))
                validSortTerms)).

(** Section 1 of the specification, in its own words: the client "does not
    implement business validation rules (e.g., per_page <= 50)".  For an
    operation taking a [per_page], this says that its result is the same
    whatever [per_page] is. *)
Definition noPerPageRule (operation : option Z -> Async json) : Prop :=
  forall (net : nat -> Reply) (w : World) (n m : option Z),
    res (run net (operation n) w) = res (run net (operation m) w).

Definition toAccountsSelf (ev : Event) : Prop :=
  match ev with
  | EvFetch _ (ApiCall _ ep _ _ _) _ => ep = plain "/accounts/self"
  | _ => True
  end.

Definition accountJson : json := JObj [("data", JObj [("id", JNum 42)])].
Definition campaignsJson : json := JObj [("data", JArr [])].

(** A service that answers the account lookup and then the listing. *)
Definition accountThenCampaigns (n : nat) : Reply :=
  match n with
  | O => after 15 (jsonResponse 200 accountJson)
  | _ => after 15 (jsonResponse 200 campaignsJson)
  end.

(** ** Several callers on one client *)

(** A caller between two suspension points: finished, or parked at an
    awaited [fetch], or parked at a timer until a point in time. *)
Inductive Task (A : Type) : Type :=
| Finished (r : Result A)
| AwaitingFetch (r : Request) (deadline : option Z) (k : FetchResult -> Async A)
| AwaitingTimer (until : Z) (k : Async A).
Arguments Finished {A} r.
Arguments AwaitingFetch {A} r deadline k.
Arguments AwaitingTimer {A} until k.

(** Runs a method body on the shared client up to its next suspension
    point; nothing else runs in between. *)
Fixpoint advance {A : Type} (m : Async A) (c : Client) (t : Z) : Client * Task A :=
  match m with
  | Ret a => (c, Finished (Ok a))
  | Throw e => (c, Finished (Err e))
  | GetThis k => advance (k c) c t
  | Update f k => advance k (f c) t
  | DateNow k => advance (k t) c t
  | Fetch r d k => (c, AwaitingFetch r d k)
  | Sleep ms k => (c, AwaitingTimer (t + Z.max 0 ms) k)
  | Mark _ k => advance k c t
  end.

Record Pool := {
  shared : Client;
  time : Z;
  tasks : list (Task unit)
}.

Definition idle (c : Client) (t : Z) : Pool :=
  {| shared := c; time := t; tasks := [] |}.

(** What the event loop does next: a new caller enters
    [ensureValidToken]; time passes; the fetch of caller [i] settles; the
    timer of caller [i] fires. *)
Inductive Action : Type :=
| Call
| Elapse (ms : N)
| Settle (i : nat) (x : FetchResult)
| Fire (i : nat).

Fixpoint replace_nth {A : Type} (i : nat) (x : A) (l : list A) : list A :=
  match l, i with
  | [], _ => []
  | _ :: rest, O => x :: rest
  | y :: rest, S j => y :: replace_nth j x rest
  end.

Definition act (a : Action) (p : Pool) : Pool :=
  match a with
  | Call =>
      let (c, task) := advance ensureValidToken (shared p) (time p) in
      {| shared := c; time := time p; tasks := tasks p ++ [task] |}
  | Elapse ms =>
      {| shared := shared p; time := time p + Z.of_N ms; tasks := tasks p |}
  | Settle i x =>
      match nth_error (tasks p) i with
      | Some (AwaitingFetch _ _ k) =>
          let (c, task) := advance (k x) (shared p) (time p) in
          {| shared := c; time := time p; tasks := replace_nth i task (tasks p) |}
      | _ => p
      end
  | Fire i =>
      match nth_error (tasks p) i with
      | Some (AwaitingTimer until k) =>
          if until <=? time p then
            let (c, task) := advance k (shared p) (time p) in
            {| shared := c; time := time p; tasks := replace_nth i task (tasks p) |}
          else p
      | _ => p
      end
  end.

Definition play (schedule : list Action) (p : Pool) : Pool :=
  fold_left (fun q a => act a q) schedule p.

(** The authentication requests in flight. *)
Definition authInFlight (ts : list (Task unit)) : nat :=
  List.length
    (filter (fun task => match task with
                         | AwaitingFetch r _ _ => is_auth_request r
                         | _ => false
                         end) ts).

(** Section 4.1 of the specification, in its own words: "only one network
    authentication call is in flight at a time". *)
Definition serialized (c : Client) (t : Z) : Prop :=
  forall schedule, (authInFlight (tasks (play schedule (idle c t))) <= 1)%nat.

(** The client finds a credential it can use as it is. *)
Definition usable (c : Client) (t : Z) : bool :=
  is_some (mockToken c) ||
  (hasToken (getTokenStatus c t) && negb (isExpired (getTokenStatus c t)) &&
   negb (needsRefresh (getTokenStatus c t) && hasRefreshToken (getTokenStatus c t))).

(** ** Offset pagination *)

Local Open Scope nat_scope.

Section OffsetPagination.
Variable T : Type.

(** The page-fetch function an iterator is built over: page number and
    page size to the items of that page. *)
Variable fetchPage : nat -> nat -> list T.

(** Modelled from the spec: the offset iterator behind [toArray] of
    [utils/pagination], which is not among the sources.  Section 4.7: the
    offset strategy advances [page += 1] each call and terminates when a
    fetched page's item count is less than the requested [per_page];
    [toArray] concatenates in arrival order.  The result carries the page
    numbers requested, in order; [fuel] bounds the number of fetches, and
    [None] means the bound was reached before a short page. *)
Fixpoint collectFrom (fuel per_page page : nat) : option (list T * list nat) :=
  match fuel with
  | O => None
  | S fuel' =>
      let items := fetchPage page per_page in
      if List.length items <? per_page then Some (items, [page])
      else
        match collectFrom fuel' per_page (S page) with
        | Some (rest, pages) => Some (items ++ rest, page :: pages)
        | None => None
        end
  end.

Definition toArray (fuel per_page : nat) : option (list T * list nat) :=
  collectFrom fuel per_page 1.

End OffsetPagination.

(** An offset-paged resource holding [all]: page [p] of size [per_page]. *)
Definition pageOf {T : Type} (all : list T) (page per_page : nat) : list T :=
  firstn per_page (skipn ((page - 1) * per_page) all).

Local Close Scope nat_scope.

(** ** Refresh and its fallback *)

(** A refresh request whose answer [refreshToken] turns into an error. *)
Definition failedRefresh (ev : Event) : bool :=
  match ev with
  | EvFetch _ (TokenRefresh _ _) x =>
      match refreshGrant x with
      | Ok _ => false
      | Err _ => true
      end
  | _ => false
  end.

Definition isPasswordFetch (ev : Event) : bool :=
  match ev with
  | EvFetch _ (TokenPassword _ _ _) _ => true
  | _ => false
  end.

(** Every failed refresh in the log is followed at once by a password
    request (so none is the last event). *)
Fixpoint fallsBack (l : list Event) : bool :=
  match l with
  | [] => true
  | ev :: rest =>
      (if failedRefresh ev
       then match rest with
            | next :: _ => isPasswordFetch next
            | [] => false
            end
       else true)
      && fallsBack rest
  end.

(** A refresh request was sent with the refresh token [w] holds, at a time
    before the expiry [w] has stored. *)
Definition guardedRefresh (w : World) (ev : Event) : Prop :=
  match ev with
  | EvFetch t (TokenRefresh _ rt) _ =>
      usableRefreshToken (self w) = Some rt /\
      exists e, tokenExpiry (self w) = Some e /\ t < e
  | _ => True
  end.

(** The log ends with a password request that failed with [e]. *)
Definition endsInPasswordError (l : list Event) (e : Error) : Prop :=
  exists pre t c x,
    l = pre ++ [EvFetch t (passwordRequest c) x] /\ passwordGrant x = Err e.

(** [w'] still holds the credential of [w], or none. *)
Definition keeps (w w' : World) : Prop :=
  (token (self w') = token (self w) /\ tokenExpiry (self w') = tokenExpiry (self w)) \/
  token (self w') = None.

(** ** Invariants of the client across a method *)

(** A method keeps the invariant [Inv] of the client. *)
Definition preserves (net : nat -> Reply) (Inv : Client -> Prop) {A : Type}
    (m : Async A) : Prop :=
  forall w, Inv (self w) -> Inv (self (post (run net m w))).

(** ** The order of the stages of [makeRequest] *)

(** The stages of a call, as the log shows them: the entry marks, and the
    network call itself (the fetch of the API request). *)
Inductive Step : Type :=
| Validate
| Admit
| Gate
| Try (n : nat)
| Acquire
| NetworkCall
| Release.

Definition stepOf (ev : Event) : list Step :=
  match ev with
  | EvStage StEnsureValid => [Validate]
  | EvStage StQueueAdmit => [Admit]
  | EvStage StQueueRelease => [Release]
  | EvStage StBreakerGate => [Gate]
  | EvStage (StAttempt n) => [Try n]
  | EvStage StRateAcquire => [Acquire]
  | EvFetch _ (ApiCall _ _ _ _ _) _ => [NetworkCall]
  | _ => []
  end.

Definition steps (l : list Event) : list Step := flat_map stepOf l.

(** One attempt of the retry manager, as [makeRequest] builds it. *)
Definition attemptSteps (limited : bool) (n : nat) : list Step :=
  Try n :: (if limited then [Acquire] else []) ++ [NetworkCall].

(** The [operation] closure of [makeRequest]. *)
Definition operation (endpoint : Endpoint) (options : RequestInit) : Async json :=
  c <- this ;;
  match rateLimiter c with
  | Some b => rateLimiter_acquire b
  | None => Ret tt
  end ;;;
  executeRequest endpoint options.

(** Section 4.6 of the specification, in its own words: queue admission,
    then the circuit-breaker gate, then the retry manager, "which
    internally performs: Rate Limiter acquire, Credential ensureValid,
    network call, response classification". *)
Definition makeRequestAsSpecified (endpoint : Endpoint) (options : RequestInit)
    : Async json :=
  let attempt :=
    c <- this ;;
    match rateLimiter c with
    | Some b => rateLimiter_acquire b
    | None => Ret tt
    end ;;;
    ensureValidToken ;;;
    executeRequest endpoint options in
  requestQueue_add
    (c <- this ;;
     match circuitBreaker c with
     | Some b => circuitBreaker_execute b (executeWithRetry attempt)
     | None => executeWithRetry attempt
     end).

(** Every network call of the request comes after a credential check made
    within the same attempt, after that attempt's rate-limit acquisition. *)
Fixpoint validatedPerAttempt (validated : bool) (l : list Step) : bool :=
  match l with
  | [] => true
  | Try _ :: rest => validatedPerAttempt false rest
  | Acquire :: rest => validatedPerAttempt false rest
  | Validate :: rest => validatedPerAttempt true rest
  | NetworkCall :: rest => validated && validatedPerAttempt validated rest
  | _ :: rest => validatedPerAttempt validated rest
  end.

(** The client is ready for an attempt: a token to send, and a rate
    limiter or none. *)
Definition Ready (limited : bool) (c : Client) : Prop :=
  is_some (activeToken c) = true /\ is_some (rateLimiter c) = limited.

(** A client with a rate limiter and a circuit breaker, holding a valid
    credential; a service that fails once and then answers. *)
Definition guardedWorld : World :=
  {| self :=
       set_circuitBreaker
         (Some {| circuit := Closed; consecutiveFailures := 0; openedAt := 0;
                  failureThreshold := 5; resetTimeout := 60000 |})
         (set_rateLimiter
            (Some {| capacity := 10; refillRate := 5; currentTokens := 10000;
                     lastRefillAt := 0 |})
            (self authedWorld));
     clock := 1000000; served := 0 |}.

Definition serverError : Response :=
  {| status := 500; statusText := "Internal Server Error"; contentType := Some "text/plain";
     body := Some "boom"; parsed := None |}.

Definition failsOnce (n : nat) : Reply :=
  match n with
  | O => after 15 serverError
  | _ => after 15 (jsonResponse 200 accountJson)
  end.





(** ** The registry between calls *)

(** The calls that assign the static field. *)
Inductive RegistryCall : Type :=
| Register (endpoint : string) (config : PaginationConfig)
| Remove (endpoint : string)
| Clear.

Definition call (c : RegistryCall) (reg : Registry) : Registry :=
  match c with
  | Register endpoint config => registerEndpoint endpoint config reg
  | Remove endpoint => snd (removeConfig endpoint reg)
  | Clear => clear reg
  end.

(** The limits of a configuration are usable, and it names the parameters
    its strategy needs. *)
Definition wellFormed (config : PaginationConfig) : Prop :=
  0 < default_limit config /\ default_limit config <= max_limit config /\
  match strategy config with
  | OFFSET => is_some (page_param config) = true /\ is_some (size_param config) = true
  | CURSOR => is_some (cursor_param config) = true
  end.

Definition registered (c : RegistryCall) : option PaginationConfig :=
  match c with
  | Register _ config => Some config
  | _ => None
  end.

(** ** Headers of a request *)

(** The headers [executeRequest] starts from. *)
Definition defaultHeaders (tok : CakemailToken) : list (string * string) :=
  [("Authorization", ("Bearer " ++ access_token tok)%string);
   ("Accept", "application/json");
   ("Content-Type", "application/json")].

(** ** A credential that does not outlast the buffer *)



(** ** What a method keeps, logs and returns *)

(** From a client satisfying [Inv], the method leaves a client satisfying
    [Inv], logs only events satisfying [P], and returns, when it returns,
    a value satisfying [Q]. *)
Definition ensures (net : nat -> Reply) (Inv : Client -> Prop) (P : Event -> Prop)
    {A : Type} (m : Async A) (Q : A -> Prop) : Prop :=
  forall w, Inv (self w) ->
    Inv (self (post (run net m w))) /\
    Forall P (log (run net m w)) /\
    match res (run net m w) with
    | Ok a => Q a
    | Err _ => True
    end.

Definition anything {A : Type} (a : A) : Prop := True.

(** ** The requests of [getLatestCampaign] *)

(** A request of the API goes to the account lookup, or to the campaign
    listing with the query [q]. *)
Definition lookupOrListing (q : list (string * QueryValue)) (ev : Event) : Prop :=
  match ev with
  | EvFetch _ (ApiCall _ ep _ _ _) _ =>
      ep = plain "/accounts/self" \/ ep = {| path := "/campaigns"; query := q |}
  | _ => True
  end.

(** The query [getCampaigns] builds when the account id comes out as
    [accountId]. *)
Definition listingQuery (p : GetCampaignsParams) (accountId : option Z)
    : list (string * QueryValue) :=
  ([("sort",
     QStr (if truthy_opt_string (sort p) then
             match sort p with
             | Some s =>
                 ((match order p with
                   | Some "desc" => "-"
                   | _ => "+"
                   end) ++ s)%string
             | None => "-created_on"
             end
           else "-created_on"))] ++
   match whenTruthy "status" (filter_status p) ++ whenTruthy "name" (filter_name p) ++
         whenTruthy "type" (filter_type p) ++ whenTruthy "list_id" (filter_list_id p) with
   | [] => []
   | _ =>
       [("filter",
         QStr (String.concat ";"
                 (whenTruthy "status" (filter_status p) ++
                  whenTruthy "name" (filter_name p) ++
                  whenTruthy "type" (filter_type p) ++
                  whenTruthy "list_id" (filter_list_id p))))]
   end ++
   (if truthy_opt_number (page p)
    then match page p with Some n => [("page", QNum n)] | None => [] end else []) ++
   (if truthy_opt_number (per_page p)
    then match per_page p with Some n => [("per_page", QNum n)] | None => [] end else []) ++
   match with_count p with
   | Some true => [("with_count", QBool true)]
   | _ => []
   end) ++
  (if truthy_opt_number accountId
   then match accountId with Some a => [("account_id", QNum a)] | None => [] end
   else []).

(** [getLatestCampaign] from the point where [getCurrentAccountId] has
    resolved to [accountId]. *)
Definition afterLookup (status : option string) (accountId : option Z) : Async json :=
  tried <-
    (let account := if truthy_opt_number accountId then accountId else None in
     catch
       (found <- latestOf (latestParams status account) ;; Ret (account, found))
       (fun _ => Ret (account, None))) ;;
  match snd tried with
  | Some campaign => Ret campaign
  | None =>
      if truthy_opt_number (fst tried) then
        found <- catch (latestOf (latestParams status None)) (fun _ => Ret None) ;;
        match found with
        | Some campaign => Ret campaign
        | None => Ret JNull
        end
      else Ret JNull
  end.

(** The client has the account id [a] cached. *)
Definition accountCached (a : Z) (c : Client) : Prop := currentAccountId c = Some a.

(** ** The language of a regular expression *)

(** Concatenations of non-empty strings of [L]. *)
Inductive star (L : string -> Prop) : string -> Prop :=
| star_nil : star L ""
| star_more (s1 s2 : string) :
    s1 <> "" -> L s1 -> star L s2 -> star L (s1 ++ s2)%string.

Fixpoint lang (r : Regex) (s : string) : Prop :=
  match r with
  | Never => False
  | Empty => s = ""
  | Class accepts => exists c, s = String c "" /\ accepts c = true
  | Seq r1 r2 => exists s1 s2, s = (s1 ++ s2)%string /\ lang r1 s1 /\ lang r2 s2
  | Alt r1 r2 => lang r1 s \/ lang r2 s
  | Star r1 => star (lang r1) s
  end.

Fixpoint all_chars (p : Ascii.ascii -> bool) (s : string) : bool :=
  match s with
  | EmptyString => true
  | String c rest => p c && all_chars p rest
  end.

(** A part of an address: not empty, without white space and without
    [@]. *)
Definition addressPart (s : string) : Prop :=
  s <> "" /\ all_chars notSpaceOrAt s = true.

(** ** Senders *)

(** A request of the API without a method, that is, a [GET]. *)
Definition isGet (ev : Event) : Prop :=
  match ev with
  | EvFetch _ (ApiCall _ _ m _ _) _ => m = None
  | _ => True
  end.

(** [s.is_default === true] *)
Definition markedDefault (s : json) : bool :=
  match field "is_default" s with
  | Some (JBool true) => true
  | _ => false
  end.

Definition senderJson (id : Z) (email : string) (isDefault : bool) : json :=
  JObj [("id", JNum id); ("email", JStr email); ("is_default", JBool isDefault)].

Definition sendersJson : json :=
  JObj [("data", JArr [senderJson 1 "news@example.com" false;
                       senderJson 2 "team@example.com" true])].

(** A service that answers the account lookup and then lists two
    senders. *)
Definition accountThenSenders (n : nat) : Reply :=
  match n with
  | O => after 15 (jsonResponse 200 accountJson)
  | _ => after 15 (jsonResponse 200 sendersJson)
  end.

(** ** A credential without a refresh token *)

Definition accessOnlyToken : CakemailToken :=
  {| access_token := "A3"; refresh_token := None; token_type := "bearer";
     expires_in := 3600; accounts := [] |}.

(** The stored expiry is 100 s ahead, within the refresh lead. *)
Definition accessOnlyWorld : World :=
  {| self := set_tokenExpiry (Some 1100000) (set_token (Some accessOnlyToken) freshClient);
     clock := 1000000; served := 0 |}.

(** ** Transactional email *)

Definition listsEndpoint : Endpoint :=
  {| path := "/lists"; query := [("per_page", QNum 1)] |}.

(** A request of the API goes to the lookup of a default list. *)
Definition toLists (ev : Event) : Prop :=
  match ev with
  | EvFetch _ (ApiCall _ ep _ _ _) _ => ep = listsEndpoint
  | _ => True
  end.

(** A request of the API is the account lookup, or a [POST] of [payload]
    to [p]. *)
Definition lookupOrPost (p payload : string) (ev : Event) : Prop :=
  match ev with
  | EvFetch _ (ApiCall _ ep m _ b) _ =>
      ep = plain "/accounts/self" \/
      (path ep = p /\ m = Some "POST" /\ b = Some payload)
  | _ => True
  end.

(** The error [sendTransactionalEmail] throws when no list is found. *)
Definition noDefaultList (message : string) : Error :=
  JsError ("Failed to get default list for transactional email: " ++ message ++
           ". Please provide a list_id parameter.").

Definition emptyListing (n : nat) : Reply := after 15 (jsonResponse 200 campaignsJson).

Definition welcomeEmail (listId : option json) : TransactionalEmailData.t :=
  {| TransactionalEmailData.to_email := "ada@example.com";
     TransactionalEmailData.to_name := Some "Ada";
     TransactionalEmailData.sender_id := Some (JNum 7);
     TransactionalEmailData.subject := Some "Welcome";
     TransactionalEmailData.html_content := Some "<p>Hello</p>";
     TransactionalEmailData.text_content := None;
     TransactionalEmailData.template_id := None;
     TransactionalEmailData.list_id := listId |}.

(** * Properties *)

(** ** Sequencing *)

Section Sequencing.
Variable net : nat -> Reply.

Lemma run_bind {A B : Type} (m : Async A) (f : A -> Async B) (w : World) :
  run net (bind m f) w = andThen (run net m w) (fun a w' => run net (f a) w').
Proof.
  revert w; induction m; intros w; simpl; unfold andThen in *; simpl;
    try solve [destruct (run net (f a) w); reflexivity];
    try reflexivity; auto.
  - rewrite H. destruct (res (run net _ _)); reflexivity.
  - rewrite IHm. destruct (res (run net _ _)); reflexivity.
  - rewrite IHm. destruct (res (run net _ _)); reflexivity.
Qed.

Lemma run_catch {A : Type} (m : Async A) (h : Error -> Async A) (w : World) :
  run net (catch m h) w = orElse (run net m w) (fun e w' => run net (h e) w').
Proof.
  revert w; induction m; intros w; simpl; unfold orElse in *; simpl;
    try solve [destruct (run net (h e) w); reflexivity];
    try reflexivity; auto.
  - rewrite H. destruct (res (run net _ _)); reflexivity.
  - rewrite IHm. destruct (res (run net _ _)); reflexivity.
  - rewrite IHm. destruct (res (run net _ _)); reflexivity.
Qed.

End Sequencing.

(** ** What one token request does *)

Section TokenRequests.
Variable net : nat -> Reply.

Lemma run_passwordAuthenticate (w : World) :
  run net passwordAuthenticate w =
  let reply := net (served w) in
  let w1 := tick w (Z.of_N (latency reply)) in
  match passwordGrant (answer reply) with
  | Ok td =>
      {| post := stored td w1;
         log := [EvFetch (clock w) (passwordRequest (self w)) (answer reply)];
         res := Ok tt |}
  | Err e =>
      {| post := if voids (answer reply) then dropped w1 else w1;
         log := [EvFetch (clock w) (passwordRequest (self w)) (answer reply)];
         res := Err e |}
  end.
Proof.
  unfold passwordAuthenticate, passwordRequest, tick, stored, dropped. cbn.
  destruct (answer (net (served w))) as [e|response]; cbn; [reflexivity|].
  destruct (ok response); cbn; [|reflexivity].
  unfold grantOf, response_json.
  destruct (body response); cbn; [|reflexivity].
  destruct (parsed response) as [j|]; cbn; [|reflexivity].
  destruct j; reflexivity.
Qed.

Lemma run_refreshToken (w : World) :
  run net refreshToken w =
  match usableRefreshToken (self w) with
  | None =>
      {| post := w; log := [];
         res := Err (CakemailAuthenticationError NoRefreshTokenAvailable None) |}
  | Some rt =>
      let reply := net (served w) in
      let w1 := tick w (Z.of_N (latency reply)) in
      match refreshGrant (answer reply) with
      | Ok td =>
          {| post := stored td w1;
             log := [EvFetch (clock w) (TokenRefresh (baseUrl (self w)) rt) (answer reply)];
             res := Ok tt |}
      | Err e =>
          {| post := if invalidates (answer reply) then cleared w1
                     else if voids (answer reply) then dropped w1 else w1;
             log := [EvFetch (clock w) (TokenRefresh (baseUrl (self w)) rt) (answer reply)];
             res := Err e |}
      end
  end.
Proof.
  unfold refreshToken, usableRefreshToken, tick, stored, cleared, dropped. cbn.
  destruct (token (self w)) as [tok|]; cbn; [|reflexivity].
  destruct (refresh_token tok) as [rt|]; cbn; [|reflexivity].
  destruct (truthy_string rt); cbn; [|reflexivity].
  destruct (answer (net (served w))) as [e|response]; cbn; [reflexivity|].
  destruct (ok response); cbn.
  - unfold grantOf, response_json.
    destruct (body response); cbn; [|reflexivity].
    destruct (parsed response) as [j|]; cbn; [|reflexivity].
    destruct j; reflexivity.
  - destruct ((status response =? 401) || (status response =? 403)); cbn; reflexivity.
Qed.

End TokenRequests.

(** ** The stored credential and its safety margin *)

Section Margin.
Variable net : nat -> Reply.




(** The shape of the world a credential operation leaves behind. *)
Lemma perform_post (op : CredentialOp) (w : World) :
  let r := run net (perform op) w in
  let w1 := tick w (Z.of_N (latency (net (served w)))) in
  (exists td, res r = Ok tt /\ post r = stored td w1) \/
  (exists e, res r = Err e /\
     (post r = w \/ post r = w1 \/ post r = cleared w1 \/
      (voids (answer (net (served w))) = true /\ post r = dropped w1))).
Proof.
  destruct op; cbn [perform].
  - rewrite run_passwordAuthenticate. cbv zeta.
    destruct (passwordGrant _) as [td|e]; cbn [res post].
    + left. eauto.
    + right. exists e. split; [reflexivity|].
      destruct (voids _); auto.
  - rewrite run_refreshToken.
    destruct (usableRefreshToken _) as [rt|]; cbv zeta.
    + destruct (refreshGrant _) as [td|e]; cbn [res post].
      * left. eauto.
      * right. exists e. split; [reflexivity|].
        destruct (invalidates _); auto.
        destruct (voids _); auto.
    + right. eexists. split; [reflexivity|]. left. reflexivity.
Qed.






End Margin.




(** ** The retry loop of [authenticate] *)

Section Authenticate.
Variable net : nat -> Reply.

Lemma run_authAttempt (w : World) :
  run net authAttempt w =
  if refreshFirst (self w) (clock w)
  then orElse (run net refreshToken w) (fun _ w' => run net passwordAuthenticate w')
  else run net passwordAuthenticate w.
Proof.
  unfold authAttempt, this, now. cbn [bind run].
  destruct (refreshFirst (self w) (clock w)).
  - apply run_catch.
  - reflexivity.
Qed.

Lemma run_authenticateLoop (fuel : nat) (retryCount : Z) (w : World) :
  retryCount < maxRetries ->
  run net (authenticateLoop (S fuel) retryCount) w =
  orElse (run net authAttempt w)
    (fun error w' =>
       if retryCount + 1 >=? maxRetries
       then {| post := w'; log := []; res := Err error |}
       else emit (EvSleep (2 ^ (retryCount + 1) * 1000))
              (run net (authenticateLoop fuel (retryCount + 1))
                   (pause (2 ^ (retryCount + 1) * 1000) w'))).
Proof.
  intros Hlt. cbn [authenticateLoop].
  apply Z.ltb_lt in Hlt. rewrite Hlt.
  rewrite run_catch. unfold orElse.
  destruct (res (run net authAttempt w)) as [a|e]; [reflexivity|].
  destruct (retryCount + 1 >=? maxRetries); reflexivity.
Qed.

(** [authenticate], attempt by attempt. *)
Lemma run_authenticate (w : World) :
  let a1 := run net authAttempt w in
  let a2 := run net authAttempt (pause 2000 (post a1)) in
  let a3 := run net authAttempt (pause 4000 (post a2)) in
  run net authenticate w =
  match res a1 with
  | Ok _ => a1
  | Err _ =>
      match res a2 with
      | Ok _ =>
          {| post := post a2; log := log a1 ++ EvSleep 2000 :: log a2; res := res a2 |}
      | Err _ =>
          {| post := post a3;
             log := log a1 ++ EvSleep 2000 :: log a2 ++ EvSleep 4000 :: log a3;
             res := res a3 |}
      end
  end.
Proof.
  intros a1 a2 a3. unfold authenticate.
  change (Z.to_nat maxRetries) with 3%nat.
  rewrite run_authenticateLoop by (unfold maxRetries; lia).
  unfold orElse. fold a1.
  destruct (res a1) as [u|e1] eqn:E1; [reflexivity|].
  change (0 + 1 >=? maxRetries) with false. cbv iota.
  change (2 ^ (0 + 1) * 1000) with 2000.
  rewrite run_authenticateLoop by (unfold maxRetries; lia).
  unfold orElse. fold a2.
  destruct (res a2) as [u|e2] eqn:E2.
  - unfold emit. cbn [post log res]. rewrite E2. reflexivity.
  - change (0 + 1 + 1 >=? maxRetries) with false. cbv iota.
    change (2 ^ (0 + 1 + 1) * 1000) with 4000.
    rewrite run_authenticateLoop by (unfold maxRetries; lia).
    unfold orElse. fold a3.
    destruct (res a3) as [u|e3] eqn:E3.
    + unfold emit. cbn [post log res]. rewrite E3. reflexivity.
    + change (0 + 1 + 1 + 1 >=? maxRetries) with true. cbv iota.
      unfold emit. cbn [post log res]. rewrite app_nil_r. reflexivity.
Qed.

End Authenticate.

Lemma requests_app (l1 l2 : list Event) :
  requests (l1 ++ l2) = requests l1 ++ requests l2.
Proof. unfold requests. apply flat_map_app. Qed.

Lemma sleeps_app (l1 l2 : list Event) :
  sleeps (l1 ++ l2) = sleeps l1 ++ sleeps l2.
Proof. unfold sleeps. apply flat_map_app. Qed.

Lemma passwordCount_app (l1 l2 : list Event) :
  passwordCount (l1 ++ l2) = (passwordCount l1 + passwordCount l2)%nat.
Proof.
  unfold passwordCount. rewrite requests_app, filter_app, length_app. reflexivity.
Qed.

Lemma passwordCount_sleep (ms : Z) (l : list Event) :
  passwordCount (EvSleep ms :: l) = passwordCount l.
Proof. reflexivity. Qed.

Section Attempts.
Variable net : nat -> Reply.

(** One attempt issues at most a refresh request and a password request,
    never sleeps, fails only with the error of its password request, and
    succeeds only by storing a granted credential. *)
Lemma authAttempt_facts (w : World) :
  let a := run net authAttempt w in
  sleeps (log a) = [] /\
  (passwordCount (log a) <= 1)%nat /\
  (forall e, res a = Err e ->
     passwordCount (log a) = 1%nat /\
     passwordGrant (answer (net (Nat.pred (served (post a))))) = Err e) /\
  (res a = Ok tt -> exists td w1, post a = stored td w1).
Proof.
  cbv zeta. rewrite run_authAttempt.
  assert (Hpw : forall w0 : World,
    let a := run net passwordAuthenticate w0 in
    forall pre : list Event,
    sleeps pre = [] -> passwordCount pre = 0%nat ->
    sleeps (pre ++ log a) = [] /\
    (passwordCount (pre ++ log a) <= 1)%nat /\
    (forall e, res a = Err e ->
       passwordCount (pre ++ log a) = 1%nat /\
       passwordGrant (answer (net (Nat.pred (served (post a))))) = Err e) /\
    (res a = Ok tt -> exists td w1, post a = stored td w1)).
  { intros w0 a pre Hs Hc. subst a. rewrite run_passwordAuthenticate. cbv zeta.
    rewrite sleeps_app, passwordCount_app, Hs, Hc.
    destruct (passwordGrant _) as [td|e1] eqn:P; cbn [res post log].
    - split; [reflexivity|]. split; [cbn; lia|]. split; [discriminate|].
      intros _. eauto.
    - split; [reflexivity|]. split; [cbn; lia|]. split; [|discriminate].
      intros e' He. injection He as <-. split; [reflexivity|].
      destruct (voids _); exact P. }
  destruct (refreshFirst (self w) (clock w)).
  - unfold orElse. rewrite run_refreshToken.
    destruct (usableRefreshToken (self w)) as [rt|]; cbv zeta.
    + destruct (refreshGrant _) as [td|e0] eqn:G; cbn [res post log].
      * split; [reflexivity|]. split; [cbn; lia|]. split; [discriminate|].
        intros _. eauto.
      * apply Hpw; reflexivity.
    + cbn [res post log]. apply (Hpw w []); reflexivity.
  - apply (Hpw w []); reflexivity.
Qed.

End Attempts.

(** C10.  [authenticate] makes at most three attempts, whatever the
    service answers.  A failed first attempt is followed by a 2000 ms
    pause and a second attempt; a failed second attempt by a 4000 ms pause
    and a third; the result of the third attempt, success or error, is the
    result of [authenticate].  The kind of error plays no part: a
    [CakemailAuthenticationError] from bad credentials is retried like any
    other.  An error surfaces only after three password requests and is
    the error of the last one; a success means a credential was stored, so
    the loop never runs out without a result. *)
Theorem authenticate_three_attempts (net : nat -> Reply) (w : World) :
  let a1 := run net authAttempt w in
  let a2 := run net authAttempt (pause 2000 (post a1)) in
  let a3 := run net authAttempt (pause 4000 (post a2)) in
  let r := run net authenticate w in
  (passwordCount (log r) <= 3)%nat /\
  (sleeps (log r) = [] \/ sleeps (log r) = [2000] \/ sleeps (log r) = [2000; 4000]) /\
  (res a1 = Ok tt -> r = a1) /\
  (forall e1, res a1 = Err e1 ->
     exists rest, log r = log a1 ++ EvSleep (2 ^ 1 * 1000) :: log a2 ++ rest) /\
  (forall e1 e2, res a1 = Err e1 -> res a2 = Err e2 ->
     log r = log a1 ++ EvSleep (2 ^ 1 * 1000) :: log a2 ++
             EvSleep (2 ^ 2 * 1000) :: log a3 /\
     res r = res a3) /\
  (forall e, res r = Err e ->
     passwordCount (log r) = 3%nat /\
     sleeps (log r) = [2000; 4000] /\
     res a3 = Err e /\
     passwordGrant (answer (net (Nat.pred (served (post r))))) = Err e) /\
  (res r = Ok tt -> exists td, token (self (post r)) = Some td).
Proof.
  intros a1 a2 a3 r.
  pose proof (run_authenticate net w) as Hr. cbv zeta in Hr.
  fold a1 a2 a3 r in Hr.
  destruct (authAttempt_facts net w) as [S1 [C1 [E1 O1]]]. fold a1 in S1, C1, E1, O1.
  destruct (authAttempt_facts net (pause 2000 (post a1))) as [S2 [C2 [E2 O2]]].
  fold a2 in S2, C2, E2, O2.
  destruct (authAttempt_facts net (pause 4000 (post a2))) as [S3 [C3 [E3 O3]]].
  fold a3 in S3, C3, E3, O3.
  change (2 ^ 1 * 1000) with 2000. change (2 ^ 2 * 1000) with 4000.
  destruct (res a1) as [[]|e1] eqn:R1.
  { rewrite Hr.
    split; [lia|]. split; [left; exact S1|]. split; [reflexivity|].
    split; [discriminate|]. split; [discriminate|].
    split; [intros e He; rewrite R1 in He; discriminate|].
    intros _. destruct (O1 eq_refl) as [td [w1 Hp]]. exists td. rewrite Hp. reflexivity. }
  destruct (E1 e1 eq_refl) as [P1 G1].
  destruct (res a2) as [[]|e2] eqn:R2.
  { rewrite Hr. cbn [log res post].
    rewrite sleeps_app, S1, passwordCount_app, P1. cbn [sleeps flat_map app].
    fold (sleeps (log a2)). rewrite S2, passwordCount_sleep.
    split; [lia|]. split; [right; left; reflexivity|]. split; [discriminate|].
    split; [intros e _; exists []; rewrite app_nil_r; reflexivity|].
    split; [discriminate|].
    split; [intros e He; try rewrite R2 in He; discriminate|].
    intros _. destruct (O2 eq_refl) as [td [w1 Hp]]. exists td. rewrite Hp. reflexivity. }
  destruct (E2 e2 eq_refl) as [P2 G2].
  rewrite Hr. cbn [log res post].
  assert (HS : sleeps (log a1 ++ EvSleep 2000 :: log a2 ++ EvSleep 4000 :: log a3)
               = [2000; 4000]).
  { rewrite sleeps_app, S1. cbn [sleeps flat_map app].
    fold (sleeps (log a2 ++ EvSleep 4000 :: log a3)).
    rewrite sleeps_app, S2. cbn [sleeps flat_map app]. fold (sleeps (log a3)).
    rewrite S3. reflexivity. }
  assert (HC : passwordCount (log a1 ++ EvSleep 2000 :: log a2 ++ EvSleep 4000 :: log a3)
               = (2 + passwordCount (log a3))%nat).
  { rewrite passwordCount_app, P1, passwordCount_sleep, passwordCount_app, P2,
      passwordCount_sleep. lia. }
  rewrite HS, HC.
  split; [lia|]. split; [right; right; reflexivity|]. split; [discriminate|].
  split; [intros e _; eexists; reflexivity|].
  split; [intros e e' _ _; split; reflexivity|].
  split.
  - intros e He. destruct (E3 e He) as [P3 G3].
    split; [lia|]. split; [reflexivity|]. split; [exact He|exact G3].
  - intros Hok. destruct (O3 Hok) as [td [w1 Hp]]. exists td. rewrite Hp. reflexivity.
Qed.

(** ** [ensureValidToken] *)

Section EnsureValid.
Variable net : nat -> Reply.

Lemma run_ensureValidToken (w : World) :
  run net ensureValidToken w =
  emit (EvStage StEnsureValid)
    (if is_some (mockToken (self w)) then done tt w
     else
       let status := getTokenStatus (self w) (clock w) in
       if negb (hasToken status) || isExpired status then run net authenticate w
       else if needsRefresh status && hasRefreshToken status then
         orElse (run net refreshToken w) (fun _ w' => run net authenticate w')
       else done tt w).
Proof.
  unfold ensureValidToken, mark, this, now. cbn [bind run].
  f_equal.
  destruct (is_some (mockToken (self w))); [reflexivity|].
  cbn [bind run]. cbv zeta.
  destruct (negb (hasToken (getTokenStatus (self w) (clock w)))
            || isExpired (getTokenStatus (self w) (clock w))); [reflexivity|].
  destruct (needsRefresh (getTokenStatus (self w) (clock w))
            && hasRefreshToken (getTokenStatus (self w) (clock w))); [|reflexivity].
  apply run_catch.
Qed.

(** Without a stored token an attempt is a password request, and a failed
    password request leaves the client as it was. *)
Lemma authAttempt_without_token (w : World) :
  token (self w) = None ->
  run net authAttempt w = run net passwordAuthenticate w.
Proof.
  intros Hnone. rewrite run_authAttempt. unfold refreshFirst. rewrite Hnone. reflexivity.
Qed.

Lemma passwordAuthenticate_failed (w : World) (e : Error) :
  res (run net passwordAuthenticate w) = Err e ->
  token (self w) = None ->
  self (post (run net passwordAuthenticate w)) = self w.
Proof.
  rewrite run_passwordAuthenticate. cbv zeta.
  destruct (passwordGrant _); cbn [res post]; [discriminate|].
  intros _ Hnone. destruct (voids _); cbn [self dropped tick]; [|reflexivity].
  destruct (self w); cbn in *. subst. reflexivity.
Qed.

Lemma passwordAuthenticate_log (w : World) :
  log (run net passwordAuthenticate w) =
  [EvFetch (clock w) (passwordRequest (self w)) (answer (net (served w)))].
Proof.
  rewrite run_passwordAuthenticate. cbv zeta.
  destruct (passwordGrant _); reflexivity.
Qed.

(** With no stored token, [authenticate] issues password requests only,
    and at least one. *)
Lemma authenticate_without_token (w : World) :
  token (self w) = None ->
  let r := run net authenticate w in
  (exists rest,
     log r = EvFetch (clock w) (passwordRequest (self w)) (answer (net (served w)))
             :: rest) /\
  Forall (fun q => is_password_request q = true) (requests (log r)).
Proof.
  intros Hnone r. subst r. rewrite run_authenticate. cbv zeta.
  rewrite (authAttempt_without_token w Hnone).
  set (a1 := run net passwordAuthenticate w).
  assert (L1 : log a1 = [EvFetch (clock w) (passwordRequest (self w))
                           (answer (net (served w)))])
    by apply passwordAuthenticate_log.
  destruct (res a1) as [u|e1] eqn:R1.
  { rewrite L1. split; [eauto|]. repeat constructor. }
  assert (K1 : token (self (pause 2000 (post a1))) = None).
  { change (token (self (post (run net passwordAuthenticate w))) = None).
    rewrite (passwordAuthenticate_failed w R1 Hnone). exact Hnone. }
  rewrite (authAttempt_without_token _ K1).
  set (a2 := run net passwordAuthenticate (pause 2000 (post a1))).
  assert (L2 : log a2 = [EvFetch (clock (pause 2000 (post a1)))
                           (passwordRequest (self (pause 2000 (post a1))))
                           (answer (net (served (pause 2000 (post a1)))))])
    by apply passwordAuthenticate_log.
  destruct (res a2) as [u|e2] eqn:R2; cbn [log].
  { rewrite L1, L2. split; [cbn; eauto|]. repeat constructor. }
  assert (K2 : token (self (pause 4000 (post a2))) = None).
  { change (token (self (post (run net passwordAuthenticate (pause 2000 (post a1)))))
            = None).
    rewrite (passwordAuthenticate_failed _ R2 K1). exact K1. }
  rewrite (authAttempt_without_token _ K2).
  rewrite passwordAuthenticate_log, L1, L2.
  split; [cbn; eauto|]. repeat constructor.
Qed.

End EnsureValid.

(** C2.  When the refresh request is answered 401 or 403, [refreshToken]
    sets [token] and [tokenExpiry] to null, so the access token, the
    refresh token and the expiry are all gone, and throws a
    [CakemailAuthenticationError].  The next [ensureValidToken] issues no
    refresh request at all, and (unless a mock token short-circuits it, as
    in tests) it starts with a password request. *)
Theorem refresh_rejected_forces_password
    (net : nat -> Reply) (w : World) (rt : string) (response : Response) :
  usableRefreshToken (self w) = Some rt ->
  answer (net (served w)) = Responded response ->
  status response = 401 \/ status response = 403 ->
  let r := run net refreshToken w in
  log r = [EvFetch (clock w) (TokenRefresh (baseUrl (self w)) rt)
             (Responded response)] /\
  res r = Err (CakemailAuthenticationError RefreshTokenInvalid
                 (Some (parseErrorResponse response))) /\
  token (self (post r)) = None /\
  tokenExpiry (self (post r)) = None /\
  usableRefreshToken (self (post r)) = None /\
  (let next := run net ensureValidToken (post r) in
   Forall (fun q => is_refresh_request q = false) (requests (log next)) /\
   (mockToken (self w) = None ->
    exists rest,
      log next = EvStage StEnsureValid ::
                 EvFetch (clock (post r)) (passwordRequest (self w))
                   (answer (net (served (post r)))) :: rest)).
Proof.
  intros Hrt Hans Hst r.
  assert (Hnok : ok response = false).
  { unfold ok. destruct Hst as [-> | ->]; reflexivity. }
  assert (Hcode : (status response =? 401) || (status response =? 403) = true).
  { destruct Hst as [-> | ->]; reflexivity. }
  assert (Hr : r = {| post := cleared (tick w (Z.of_N (latency (net (served w)))));
                      log := [EvFetch (clock w) (TokenRefresh (baseUrl (self w)) rt)
                                (Responded response)];
                      res := Err (CakemailAuthenticationError RefreshTokenInvalid
                                    (Some (parseErrorResponse response))) |}).
  { subst r. rewrite run_refreshToken, Hrt. cbv zeta.
    unfold refreshGrant, invalidates. rewrite Hans, Hnok, Hcode. reflexivity. }
  rewrite Hr. cbn [post log res].
  split; [reflexivity|]. split; [reflexivity|]. split; [reflexivity|].
  split; [reflexivity|]. split; [reflexivity|].
  set (w' := cleared (tick w (Z.of_N (latency (net (served w)))))).
  assert (Hnone : token (self w') = None) by reflexivity.
  rewrite run_ensureValidToken.
  change (mockToken (self w')) with (mockToken (self w)).
  destruct (mockToken (self w)) as [mock|] eqn:Hmock; cbn [is_some].
  { split; [constructor|discriminate]. }
  cbv zeta.
  replace (negb (hasToken (getTokenStatus (self w') (clock w')))
           || isExpired (getTokenStatus (self w') (clock w'))) with true
    by reflexivity.
  destruct (authenticate_without_token net w' Hnone) as [[rest Hlog] Hall].
  unfold emit; cbn [log]. rewrite Hlog. split.
  - cbn [requests flat_map app]. fold (requests rest).
    rewrite Hlog in Hall. cbn [requests flat_map app] in Hall. fold (requests rest) in Hall.
    eapply Forall_impl; [|exact Hall].
    intros q Hq. destruct q; cbn in *; congruence.
  - intros _. exists rest. reflexivity.
Qed.

Lemma refresh_rejected_witness :
  usableRefreshToken (self staleWorld) = Some "R0" /\
  answer (rejectRefresh (served staleWorld)) = Responded invalidGrant /\
  (status invalidGrant = 401 \/ status invalidGrant = 403) /\
  token (self (post (run rejectRefresh refreshToken staleWorld))) = None.
Proof.
  split; [reflexivity|]. split; [reflexivity|]. split; [left; reflexivity|].
  exact (proj1 (proj2 (proj2
           (refresh_rejected_forces_password rejectRefresh staleWorld
              (rt := "R0") (response := invalidGrant)
              eq_refl eq_refl (or_introl eq_refl))))).
Defined.

(** ** Response classification in [executeRequest] *)

Section Classification.
Variable net : nat -> Reply.

Lemma run_executeRequest (endpoint : Endpoint) (options : RequestInit) (w : World) :
  run net (executeRequest endpoint options) w =
  match activeToken (self w) with
  | None =>
      {| post := w; log := [];
         res := Err (CakemailAuthenticationError NoAuthenticationToken None) |}
  | Some tok =>
      let settle := race (Some (timeout (self w))) (net (served w)) in
      {| post := tick w (fst settle);
         log := [EvFetch (clock w) (apiRequest (self w) tok endpoint options)
                   (snd settle)];
         res := classified (debugMode (self w)) (snd settle) |}
  end.
Proof.
  unfold executeRequest, this. cbn [bind run].
  destruct (activeToken (self w)) as [tok|]; [|reflexivity].
  unfold fetchWithTimeout, tick, apiRequest. cbn [bind catch run]. cbv zeta.
  destruct (snd (race (Some (timeout (self w))) (net (served w)))) as [e|response];
    cbn [settled bind catch run classified].
  - destruct e; reflexivity.
  - destruct (ok response); cbn [negb bind catch run].
    + destruct (is_json_content response); cbn [bind catch run].
      * unfold response_json.
        destruct (body response); cbn [lift bind catch run]; [|reflexivity].
        destruct (parsed response) as [j|]; cbn [lift bind catch run]; [|reflexivity].
        destruct (inspected (debugMode (self w)) j); reflexivity.
      * reflexivity.
    + reflexivity.
Qed.

End Classification.



(** ** The retry manager *)

Lemma attemptMarks_app (l1 l2 : list Event) :
  attemptMarks (l1 ++ l2) = (attemptMarks l1 + attemptMarks l2)%nat.
Proof. unfold attemptMarks. rewrite filter_app, length_app. reflexivity. Qed.

Section Retry.
Variable net : nat -> Reply.
Variable A : Type.

Lemma run_retryLoop (cfg : RetryConfig) (retries attempt : nat)
    (operation : Async A) (w : World) :
  run net (retryLoop cfg retries attempt operation) w =
  emit (EvStage (StAttempt attempt))
    (orElse (run net operation w)
       (fun error w' =>
          if isRetryable error then
            match retries with
            | O => failed (AfterAttempts attempt error) w'
            | S retries' =>
                emit (EvSleep (backoff cfg (S attempt)))
                  (run net (retryLoop cfg retries' (S attempt) operation)
                       (pause (backoff cfg (S attempt)) w'))
            end
          else failed error w')).
Proof.
  destruct retries as [|k]; cbn [retryLoop]; unfold mark; cbn [bind run];
    f_equal; rewrite run_catch; unfold orElse;
    destruct (res (run net operation w)) as [a|e]; try reflexivity;
    destruct (isRetryable e); reflexivity.
Qed.

(** The operation is invoked at most [retries + 1] times. *)
Lemma retryLoop_budget (cfg : RetryConfig) (operation : Async A) :
  (forall w, attemptMarks (log (run net operation w)) = 0%nat) ->
  forall (retries attempt : nat) (w : World),
    (attemptMarks (log (run net (retryLoop cfg retries attempt operation) w))
     <= S retries)%nat.
Proof.
  intros Hop retries.
  induction retries as [|k IH]; intros attempt w; rewrite run_retryLoop;
    unfold emit, orElse; cbn [log];
    change (attemptMarks (EvStage (StAttempt attempt) :: ?l)) with (S (attemptMarks l));
    destruct (res (run net operation w)) as [a|e]; try (rewrite Hop; lia);
    destruct (isRetryable e); cbn [log failed]; rewrite attemptMarks_app, Hop.
  - cbn. lia.
  - cbn. lia.
  - change (attemptMarks (EvSleep ?ms :: ?l)) with (attemptMarks l).
    specialize (IH (S attempt) (pause (backoff cfg (S attempt)) (post (run net operation w)))).
    lia.
  - cbn. lia.
Qed.

End Retry.

(** C3.  The retry manager as section 4.3 describes it.  Network errors,
    timeouts, 5xx API errors and 429 are retryable; every other 4xx API
    error and every authentication error is not.  A failure that is not
    retryable ends [executeWithRetry] at once with that very error, the
    operation having run once for that attempt and nothing else having
    happened; a retryable failure with attempts left is followed by the
    backoff pause and the next attempt; without attempts left the last
    error surfaces, tagged with the attempt count; and the operation is
    never invoked more often than the budget allows. *)
Theorem retry_classification
    (net : nat -> Reply) (A : Type) (cfg : RetryConfig) (retries attempt : nat)
    (operation : Async A) (w : World) (e : Error) :
  res (run net operation w) = Err e ->
  let one := run net operation w in
  let r := run net (retryLoop cfg retries attempt operation) w in
  ((forall cause, isRetryable (CakemailNetworkError cause) = true) /\
   (forall ms, isRetryable (TimeoutError ms) = true) /\
   (forall st b, 500 <= st <= 599 -> isRetryable (CakemailApiError st b) = true) /\
   (forall b, isRetryable (CakemailApiError 429 b) = true) /\
   (forall st b, 400 <= st <= 499 -> st <> 429 ->
      isRetryable (CakemailApiError st b) = false) /\
   (forall why b, isRetryable (CakemailAuthenticationError why b) = false)) /\
  run net (executeWithRetry operation) w =
    run net (retryLoop (retryManager (self w))
               (Nat.pred (maxAttempts (retryManager (self w)))) 1 operation) w /\
  (isRetryable e = false ->
   r = emit (EvStage (StAttempt attempt)) one /\ res r = Err e) /\
  (isRetryable e = true -> forall k, retries = S k ->
   let next := run net (retryLoop cfg k (S attempt) operation)
                 (pause (backoff cfg (S attempt)) (post one)) in
   log r = EvStage (StAttempt attempt) :: log one ++
           EvSleep (backoff cfg (S attempt)) :: log next /\
   res r = res next) /\
  (isRetryable e = true -> retries = 0%nat ->
   log r = EvStage (StAttempt attempt) :: log one /\
   res r = Err (AfterAttempts attempt e)) /\
  ((forall w', attemptMarks (log (run net operation w')) = 0%nat) ->
   (attemptMarks (log r) <= S retries)%nat).
Proof.
  intros He one r.
  split; [|split; [|split; [|split; [|split]]]].
  - repeat split; intros; cbn; try reflexivity.
    + replace (500 <=? st) with true by (symmetry; apply Z.leb_le; lia).
      replace (st <=? 599) with true by (symmetry; apply Z.leb_le; lia).
      reflexivity.
    + replace (500 <=? st) with false by (symmetry; apply Z.leb_gt; lia).
      replace (st =? 429) with false by (symmetry; apply Z.eqb_neq; assumption).
      reflexivity.
  - reflexivity.
  - intros Hno. subst r one. rewrite run_retryLoop. unfold orElse.
    rewrite He, Hno. unfold emit, failed. cbn [post log res].
    rewrite app_nil_r. split; [|reflexivity].
    f_equal. symmetry. exact He.
  - intros Hyes k -> next. subst r one. rewrite run_retryLoop. unfold orElse.
    rewrite He, Hyes. unfold emit. cbn [post log res]. fold next.
    split; reflexivity.
  - intros Hyes ->. subst r one. rewrite run_retryLoop. unfold orElse.
    rewrite He, Hyes. unfold emit, failed. cbn [post log res].
    rewrite app_nil_r. split; reflexivity.
  - intros Hop. apply retryLoop_budget. exact Hop.
Qed.

Lemma retry_classification_witness :
  res (run missing (executeRequest (plain "/campaigns/7") noOptions) authedWorld)
    = Err (CakemailApiError 404 (JObj [("detail", JStr "Not found")])) /\
  res (run missing
         (retryLoop demoRetry 2 1 (executeRequest (plain "/campaigns/7") noOptions))
         authedWorld)
    = Err (CakemailApiError 404 (JObj [("detail", JStr "Not found")])).
Proof.
  split; [reflexivity|].
  exact (proj2 (proj1 (proj2 (proj2
           (retry_classification missing demoRetry 2 1
              (executeRequest (plain "/campaigns/7") noOptions) authedWorld
              (e := CakemailApiError 404 (JObj [("detail", JStr "Not found")]))
              eq_refl))) eq_refl)).
Defined.

(** ** Requests the client does not look into *)

Section Similar.
Variable net : nat -> Reply.

Lemma similar_refl {A : Type} (m : Async A) : similar net m m.
Proof. intros w. split; reflexivity. Qed.

Lemma similar_bind {A B : Type} (m1 m2 : Async A) (f1 f2 : A -> Async B) :
  similar net m1 m2 -> (forall a, similar net (f1 a) (f2 a)) ->
  similar net (bind m1 f1) (bind m2 f2).
Proof.
  intros Hm Hf w. rewrite !run_bind. unfold andThen.
  destruct (Hm w) as [Hp Hr]. rewrite Hr, Hp.
  destruct (res (run net m2 w)) as [a|e]; cbn [post res].
  - apply Hf.
  - split; reflexivity.
Qed.

Lemma similar_catch {A : Type} (m1 m2 : Async A) (h1 h2 : Error -> Async A) :
  similar net m1 m2 -> (forall e, similar net (h1 e) (h2 e)) ->
  similar net (catch m1 h1) (catch m2 h2).
Proof.
  intros Hm Hh w. rewrite !run_catch. unfold orElse.
  destruct (Hm w) as [Hp Hr]. rewrite Hr, Hp.
  destruct (res (run net m2 w)) as [a|e] eqn:E; cbn [post res].
  - split; [exact Hp|congruence].
  - apply Hh.
Qed.

Lemma similar_emit {A : Type} (ev : Event) (m1 m2 : Async A) (w1 w2 : World) :
  sameOutcome (run net m1 w1) (run net m2 w2) ->
  sameOutcome (emit ev (run net m1 w1)) (emit ev (run net m2 w2)).
Proof. intros H. exact H. Qed.

Lemma similar_executeRequest (e1 e2 : Endpoint) (options : RequestInit) :
  similar net (executeRequest e1 options) (executeRequest e2 options).
Proof.
  intros w. rewrite !run_executeRequest.
  destruct (activeToken (self w)); split; reflexivity.
Qed.

Lemma similar_retryLoop {A : Type} (cfg : RetryConfig) (m1 m2 : Async A) :
  similar net m1 m2 ->
  forall retries attempt,
    similar net (retryLoop cfg retries attempt m1) (retryLoop cfg retries attempt m2).
Proof.
  intros Hm retries.
  induction retries as [|k IH]; intros attempt; cbn [retryLoop];
    (apply similar_bind; [apply similar_refl|]); intros _;
    (apply similar_catch; [exact Hm|]); intros e;
    destruct (isRetryable e); try apply similar_refl.
  apply similar_bind; [apply similar_refl|]. intros _. apply IH.
Qed.

Lemma similar_executeWithRetry {A : Type} (m1 m2 : Async A) :
  similar net m1 m2 -> similar net (executeWithRetry m1) (executeWithRetry m2).
Proof.
  intros Hm. unfold executeWithRetry.
  apply similar_bind; [apply similar_refl|]. intros c.
  apply similar_retryLoop. exact Hm.
Qed.

Lemma similar_reify {A : Type} (m1 m2 : Async A) :
  similar net m1 m2 -> similar net (reify m1) (reify m2).
Proof.
  intros Hm. unfold reify.
  apply similar_catch; [|intros e; apply similar_refl].
  apply similar_bind; [exact Hm|]. intros a. apply similar_refl.
Qed.

Lemma similar_guarded {A : Type} (m1 m2 : Async A) :
  similar net m1 m2 -> similar net (guarded m1) (guarded m2).
Proof.
  intros Hm. unfold guarded.
  apply similar_bind; [apply similar_reify; exact Hm|]. intros r. apply similar_refl.
Qed.

Lemma similar_circuitBreaker_execute {A : Type} (b : Breaker) (m1 m2 : Async A) :
  similar net m1 m2 -> similar net (circuitBreaker_execute b m1) (circuitBreaker_execute b m2).
Proof.
  intros Hm. unfold circuitBreaker_execute.
  apply similar_bind; [apply similar_refl|]. intros _.
  apply similar_bind; [apply similar_refl|]. intros t.
  destruct (circuit b).
  - apply similar_guarded. exact Hm.
  - destruct (t - openedAt b >=? resetTimeout b); [|apply similar_refl].
    apply similar_bind; [apply similar_refl|]. intros _.
    apply similar_guarded. exact Hm.
  - apply similar_refl.
Qed.

Lemma similar_requestQueue_add {A : Type} (m1 m2 : Async A) :
  similar net m1 m2 -> similar net (requestQueue_add m1) (requestQueue_add m2).
Proof.
  intros Hm. unfold requestQueue_add, finally.
  apply similar_bind; [apply similar_refl|]. intros _.
  apply similar_bind; [apply similar_refl|]. intros _.
  apply similar_bind; [apply similar_reify; exact Hm|]. intros r. apply similar_refl.
Qed.

(** [makeRequest] never inspects the endpoint: whatever path and query it
    is given, it ends in the same state with the same result. *)
Lemma similar_makeRequest (e1 e2 : Endpoint) (options : RequestInit) :
  similar net (makeRequest e1 options) (makeRequest e2 options).
Proof.
  unfold makeRequest.
  apply similar_bind; [apply similar_refl|]. intros _.
  apply similar_requestQueue_add.
  apply similar_bind; [apply similar_refl|]. intros c.
  assert (Hop : similar net
    (c0 <- this ;;
     match rateLimiter c0 with
     | Some b => rateLimiter_acquire b
     | None => Ret tt
     end ;;; executeRequest e1 options)
    (c0 <- this ;;
     match rateLimiter c0 with
     | Some b => rateLimiter_acquire b
     | None => Ret tt
     end ;;; executeRequest e2 options)).
  { apply similar_bind; [apply similar_refl|]. intros c0.
    apply similar_bind; [apply similar_refl|]. intros _.
    apply similar_executeRequest. }
  destruct (circuitBreaker c).
  - apply similar_circuitBreaker_execute, similar_executeWithRetry, Hop.
  - apply similar_executeWithRetry, Hop.
Qed.

End Similar.

(** ** Properties of every logged event *)

Section AllEvents.
Variable net : nat -> Reply.
Variable P : Event -> Prop.

Lemma allEvents_bind {A B : Type} (m : Async A) (f : A -> Async B) :
  allEvents net P m -> (forall a, allEvents net P (f a)) -> allEvents net P (bind m f).
Proof.
  intros Hm Hf w. rewrite run_bind. unfold andThen.
  destruct (res (run net m w)) as [a|e]; cbn [log].
  - apply Forall_app. split; [apply Hm|apply Hf].
  - apply Hm.
Qed.

Lemma allEvents_catch {A : Type} (m : Async A) (h : Error -> Async A) :
  allEvents net P m -> (forall e, allEvents net P (h e)) -> allEvents net P (catch m h).
Proof.
  intros Hm Hh w. rewrite run_catch. unfold orElse.
  destruct (res (run net m w)) as [a|e]; cbn [log].
  - apply Hm.
  - apply Forall_app. split; [apply Hm|apply Hh].
Qed.

Lemma allEvents_Ret {A : Type} (a : A) : allEvents net P (Ret a).
Proof. intros w. constructor. Qed.

Lemma allEvents_Throw {A : Type} (e : Error) : allEvents net P (@Throw A e).
Proof. intros w. constructor. Qed.

Lemma allEvents_lift {A : Type} (r : Result A) : allEvents net P (lift r).
Proof. destruct r; [apply allEvents_Ret|apply allEvents_Throw]. Qed.

Lemma allEvents_this : allEvents net P this.
Proof. intros w. constructor. Qed.

Lemma allEvents_now : allEvents net P now.
Proof. intros w. constructor. Qed.

Lemma allEvents_assign (f : Client -> Client) : allEvents net P (assign f).
Proof. intros w. constructor. Qed.

Lemma allEvents_mark (s : Stage) : P (EvStage s) -> allEvents net P (mark s).
Proof. intros H w. repeat constructor. exact H. Qed.

Lemma allEvents_sleep (ms : Z) : P (EvSleep ms) -> allEvents net P (sleep ms).
Proof. intros H w. repeat constructor. exact H. Qed.

Lemma allEvents_Fetch (r : Request) (d : option Z) :
  (forall t x, P (EvFetch t r x)) -> allEvents net P (Fetch r d settled).
Proof.
  intros H w. cbn [run]. unfold emit. cbn [log].
  constructor; [apply H|].
  destruct (snd (race d (net (served w)))); constructor.
Qed.

Lemma allEvents_reify {A : Type} (m : Async A) : allEvents net P m -> allEvents net P (reify m).
Proof.
  intros Hm. unfold reify.
  apply allEvents_catch; [|intros e; apply allEvents_Ret].
  apply allEvents_bind; [exact Hm|]. intros a. apply allEvents_Ret.
Qed.

End AllEvents.

Create HintDb events.
#[local] Hint Resolve allEvents_Ret allEvents_Throw allEvents_lift allEvents_this
  allEvents_now allEvents_assign : events.

(** Solves [allEvents] goals by following the structure of the method. *)
Ltac events_step :=
  match goal with
  | |- allEvents _ _ (bind _ _) => apply allEvents_bind; [|intros ?]
  | |- allEvents _ _ (catch _ _) => apply allEvents_catch; [|intros ?]
  | |- allEvents _ _ (reify _) => apply allEvents_reify
  | |- allEvents _ _ (mark _) => apply allEvents_mark
  | |- allEvents _ _ (sleep _) => apply allEvents_sleep
  | |- allEvents _ _ (fetch _) => apply allEvents_Fetch; intros ?
  | |- allEvents _ _ (fetchWithTimeout _ _) => apply allEvents_Fetch; intros ?
  | |- allEvents _ _ (if ?b then _ else _) => destruct b
  | |- allEvents _ _ (match ?x with Some _ => _ | None => _ end) => destruct x
  | |- allEvents _ _ (match ?x with Ok _ => _ | Err _ => _ end) => destruct x
  | |- allEvents _ _ _ => solve [auto with events]
  end.

Section CredentialEvents.
Variable net : nat -> Reply.
Variable P : Event -> Prop.
Hypothesis P_auth : forall t r x, is_auth_request r = true -> P (EvFetch t r x).
Hypothesis P_sleep : forall ms, P (EvSleep ms).

Lemma allEvents_storeToken (td : CakemailToken) : allEvents net P (storeToken td).
Proof. unfold storeToken. repeat events_step. Qed.

Lemma allEvents_storeGrant (tokenData : json) : allEvents net P (storeGrant tokenData).
Proof.
  destruct tokenData; cbn [storeGrant]; try apply allEvents_storeToken.
  repeat events_step.
Qed.

Lemma allEvents_passwordAuthenticate : allEvents net P passwordAuthenticate.
Proof.
  unfold passwordAuthenticate. repeat events_step; auto using allEvents_storeGrant.
Qed.

Lemma allEvents_refreshToken : allEvents net P refreshToken.
Proof.
  unfold refreshToken. repeat events_step; auto using allEvents_storeGrant.
Qed.

Lemma allEvents_authAttempt : allEvents net P authAttempt.
Proof.
  unfold authAttempt.
  repeat events_step; auto using allEvents_passwordAuthenticate, allEvents_refreshToken.
Qed.

Lemma allEvents_authenticateLoop (fuel : nat) (retryCount : Z) :
  allEvents net P (authenticateLoop fuel retryCount).
Proof.
  revert retryCount. induction fuel as [|k IH]; intros retryCount; cbn [authenticateLoop].
  - apply allEvents_Ret.
  - repeat events_step; auto using allEvents_authAttempt.
Qed.

Lemma allEvents_authenticate : allEvents net P authenticate.
Proof. apply allEvents_authenticateLoop. Qed.

Lemma allEvents_ensureValidToken :
  P (EvStage StEnsureValid) -> allEvents net P ensureValidToken.
Proof.
  intros Hmark. unfold ensureValidToken.
  repeat events_step; auto using allEvents_authenticate, allEvents_refreshToken.
Qed.

End CredentialEvents.

Section PipelineEvents.
Variable net : nat -> Reply.
Variable P : Event -> Prop.
Variable endpoint : Endpoint.
Variable options : RequestInit.
Hypothesis P_auth : forall t r x, is_auth_request r = true -> P (EvFetch t r x).
Hypothesis P_sleep : forall ms, P (EvSleep ms).
Hypothesis P_stage : forall s, P (EvStage s).
Hypothesis P_api :
  forall t c tok x, P (EvFetch t (apiRequest c tok endpoint options) x).

Lemma allEvents_executeRequest : allEvents net P (executeRequest endpoint options).
Proof.
  intros w. rewrite run_executeRequest.
  destruct (activeToken (self w)); cbn [log]; repeat constructor. apply P_api.
Qed.

Lemma allEvents_rateLimiter_acquire (b : RateBudget) :
  allEvents net P (rateLimiter_acquire b).
Proof. unfold rateLimiter_acquire. repeat events_step; auto. Qed.

Lemma allEvents_retryLoop {A : Type} (cfg : RetryConfig) (operation : Async A) :
  allEvents net P operation ->
  forall retries attempt, allEvents net P (retryLoop cfg retries attempt operation).
Proof.
  intros Hop retries.
  induction retries as [|k IH]; intros attempt; cbn [retryLoop];
    repeat events_step; auto.
Qed.

Lemma allEvents_executeWithRetry {A : Type} (operation : Async A) :
  allEvents net P operation -> allEvents net P (executeWithRetry operation).
Proof.
  intros Hop. unfold executeWithRetry.
  events_step; [events_step|]. apply allEvents_retryLoop. exact Hop.
Qed.

Lemma allEvents_guarded {A : Type} (operation : Async A) :
  allEvents net P operation -> allEvents net P (guarded operation).
Proof.
  intros Hop. unfold guarded, onSuccess, onFailure. repeat events_step; auto.
Qed.

Lemma allEvents_circuitBreaker_execute {A : Type} (b : Breaker) (operation : Async A) :
  allEvents net P operation -> allEvents net P (circuitBreaker_execute b operation).
Proof.
  intros Hop. unfold circuitBreaker_execute.
  events_step; [events_step; auto|].
  events_step; [events_step|].
  destruct (circuit b); repeat events_step; auto using allEvents_guarded.
Qed.

Lemma allEvents_requestQueue_add {A : Type} (operation : Async A) :
  allEvents net P operation -> allEvents net P (requestQueue_add operation).
Proof.
  intros Hop. unfold requestQueue_add, finally. repeat events_step; auto.
Qed.

Lemma allEvents_makeRequest : allEvents net P (makeRequest endpoint options).
Proof.
  unfold makeRequest.
  apply allEvents_bind; [apply allEvents_ensureValidToken; auto|]. intros _.
  apply allEvents_requestQueue_add.
  apply allEvents_bind; [apply allEvents_this|]. intros c.
  assert (Hop : allEvents net P
    (c0 <- this ;;
     match rateLimiter c0 with
     | Some b => rateLimiter_acquire b
     | None => Ret tt
     end ;;; executeRequest endpoint options)).
  { repeat events_step;
      auto using allEvents_rateLimiter_acquire, allEvents_executeRequest. }
  destruct (circuitBreaker c).
  - apply allEvents_circuitBreaker_execute, allEvents_executeWithRetry, Hop.
  - apply allEvents_executeWithRetry, Hop.
Qed.

End PipelineEvents.

(** ** The pagination limit of [getCampaigns] *)

Section Campaigns.
Variable net : nat -> Reply.

Lemma allEvents_getCurrentAccountId : allEvents net toAccountsSelf getCurrentAccountId.
Proof.
  unfold getCurrentAccountId.
  apply allEvents_bind; [apply allEvents_this|]. intros c.
  destruct (truthy_opt_number (currentAccountId c)); [apply allEvents_Ret|].
  apply allEvents_catch; [|intros e; apply allEvents_Ret].
  apply allEvents_bind.
  - apply allEvents_makeRequest; intros; try exact I.
    + destruct r; [exact I|exact I|discriminate].
    + reflexivity.
  - intros account. destruct account; repeat events_step.
Qed.

Lemma similar_getCampaigns_below (p : GetCampaignsParams) (n m : option Z) :
  (forall k, n = Some k -> k <= perPageLimit) ->
  (forall k, m = Some k -> k <= perPageLimit) ->
  similar net (getCampaigns (Some (with_per_page n p)))
              (getCampaigns (Some (with_per_page m p))).
Proof.
  intros Hn Hm. unfold getCampaigns. cbn [with_per_page sort order filter_status
    filter_name filter_type filter_list_id page per_page with_count account_id].
  assert (Gn : truthy_opt_number n &&
               match n with Some k => k >? perPageLimit | None => false end = false).
  { destruct n as [k|]; [|apply andb_false_r].
    specialize (Hn k eq_refl).
    replace (k >? perPageLimit) with false; [apply andb_false_r|].
    symmetry. rewrite Z.gtb_ltb. apply Z.ltb_ge. exact Hn. }
  assert (Gm : truthy_opt_number m &&
               match m with Some k => k >? perPageLimit | None => false end = false).
  { destruct m as [k|]; [|apply andb_false_r].
    specialize (Hm k eq_refl).
    replace (k >? perPageLimit) with false; [apply andb_false_r|].
    symmetry. rewrite Z.gtb_ltb. apply Z.ltb_ge. exact Hm. }
  rewrite Gn, Gm.
  apply similar_bind; [apply similar_refl|]. intros accountId.
  destruct (truthy_opt_string (sort p) && _); [apply similar_refl|].
  apply similar_makeRequest.
Qed.

End Campaigns.

Section PerPage.
Variable net : nat -> Reply.

(** [getCurrentAccountId] catches every exception. *)
Lemma getCurrentAccountId_resolves (w : World) :
  exists a, res (run net getCurrentAccountId w) = Ok a.
Proof.
  unfold getCurrentAccountId, this. cbn [bind run].
  destruct (truthy_opt_number (currentAccountId (self w))); [eexists; reflexivity|].
  rewrite run_catch. unfold orElse.
  destruct (res (run net _ w)) as [a|e] eqn:E.
  - exists a. exact E.
  - exists None. reflexivity.
Qed.

Lemma getCampaigns_over_limit (p : GetCampaignsParams) (k : Z) (w : World) :
  sortAccepted p = true -> k > perPageLimit ->
  let r := run net (getCampaigns (Some (with_per_page (Some k) p))) w in
  res r = Err (JsError "per_page cannot exceed 50 (API limit)") /\
  Forall toAccountsSelf (log r) /\
  (truthy_opt_number (account_id p) = true -> log r = []).
Proof.
  intros Hsort Hk r. subst r. unfold getCampaigns.
  cbn [with_per_page sort order filter_status filter_name filter_type
       filter_list_id page per_page with_count account_id].
  unfold sortAccepted in Hsort. apply negb_true_iff in Hsort. rewrite Hsort.
  assert (Hnz : truthy_opt_number (Some k) = true).
  { unfold truthy_opt_number, perPageLimit in *.
    apply negb_true_iff, Z.eqb_neq. lia. }
  assert (Hgt : (k >? perPageLimit) = true).
  { rewrite Z.gtb_ltb. apply Z.ltb_lt. lia. }
  rewrite Hnz, Hgt. cbn [andb].
  rewrite run_bind. unfold andThen.
  destruct (truthy_opt_number (account_id p)) eqn:Hacc.
  - cbn [run res post log]. repeat split; auto.
  - destruct (getCurrentAccountId_resolves w) as [a Ha]. rewrite Ha.
    cbn [run res post log]. rewrite app_nil_r.
    split; [reflexivity|]. split; [|discriminate].
    apply allEvents_getCurrentAccountId.
Qed.

Lemma similar_paged (operation : option PaginationParams -> Async json)
    (suffix : string) (id : string) :
  (forall params,
     operation params =
     (accountId <- getCurrentAccountId ;;
      makeRequest {| path := ("/campaigns/" ++ id ++ suffix)%string;
                     query := pagedQuery params accountId |} noOptions)) ->
  forall params1 params2, similar net (operation params1) (operation params2).
Proof.
  intros Hdef params1 params2. rewrite !Hdef.
  apply similar_bind; [apply similar_refl|]. intros accountId.
  apply similar_makeRequest.
Qed.

End PerPage.

(** C9, the claim as stated fails: with the same client, the same service
    and the same other parameters, [getCampaigns] answers the listing for
    [per_page = 50] and throws for [per_page = 51], having issued the
    account lookup but not the campaigns request. *)
Lemma getCampaigns_rejects_per_page_51 :
  res (run accountThenCampaigns
         (getCampaigns (Some (with_per_page (Some 50) noParams))) authedWorld)
    = Ok campaignsJson /\
  res (run accountThenCampaigns
         (getCampaigns (Some (with_per_page (Some 51) noParams))) authedWorld)
    = Err (JsError "per_page cannot exceed 50 (API limit)") /\
  List.length (requests (log (run accountThenCampaigns
         (getCampaigns (Some (with_per_page (Some 51) noParams))) authedWorld)))
    = 1%nat /\
  ~ noPerPageRule (fun n => getCampaigns (Some (with_per_page n noParams))).
Proof.
  split; [reflexivity|]. split; [reflexivity|]. split; [reflexivity|].
  intros H.
  specialize (H accountThenCampaigns authedWorld (Some 50) (Some 51)).
  vm_compute in H. discriminate H.
Qed.

(** C9, amended.  [getCampaigns] enforces one pagination rule before it
    issues the campaigns request: a [per_page] above 50 (with an accepted
    sort term) is rejected with "per_page cannot exceed 50 (API limit)",
    after at most the account lookup.  Apart from that guard, [per_page]
    decides nothing: any two calls of [getCampaigns] within the limit end
    alike, [getCampaignRevisions] and [getCampaignLinks] end alike for any
    pagination parameters, and [makeRequest] ends alike for any endpoint
    and query; the limit is then the backend's business. *)
Theorem per_page_rule_only_in_getCampaigns :
  (forall net w p k, sortAccepted p = true -> k > 50 ->
     let r := run net (getCampaigns (Some (with_per_page (Some k) p))) w in
     res r = Err (JsError "per_page cannot exceed 50 (API limit)") /\
     Forall toAccountsSelf (log r) /\
     (truthy_opt_number (account_id p) = true -> log r = [])) /\
  (forall net p n m,
     (forall k, n = Some k -> k <= 50) -> (forall k, m = Some k -> k <= 50) ->
     similar net (getCampaigns (Some (with_per_page n p)))
                 (getCampaigns (Some (with_per_page m p)))) /\
  (forall net id params1 params2,
     similar net (getCampaignRevisions id params1) (getCampaignRevisions id params2) /\
     similar net (getCampaignLinks id params1) (getCampaignLinks id params2)) /\
  (forall net e1 e2 options,
     similar net (makeRequest e1 options) (makeRequest e2 options)).
Proof.
  split; [|split; [|split]].
  - intros net w p k Hsort Hk. apply getCampaigns_over_limit; assumption.
  - intros net p n m Hn Hm. apply similar_getCampaigns_below; assumption.
  - intros net id params1 params2. split.
    + apply (similar_paged net (getCampaignRevisions id) "/revisions" id).
      intros params. reflexivity.
    + apply (similar_paged net (getCampaignLinks id) "/links" id).
      intros params. reflexivity.
  - intros net e1 e2 options. apply similar_makeRequest.
Qed.

(** ** Several callers on one client *)

Lemma authInFlight_app (l1 l2 : list (Task unit)) :
  authInFlight (l1 ++ l2) = (authInFlight l1 + authInFlight l2)%nat.
Proof. unfold authInFlight. rewrite filter_app, length_app. reflexivity. Qed.

(** A caller that finds no token parks at its own password request and
    leaves the client as it found it. *)
Lemma advance_without_token (c : Client) (t : Z) :
  mockToken c = None -> token c = None ->
  exists k, advance ensureValidToken c t = (c, AwaitingFetch (passwordRequest c) None k).
Proof.
  intros Hmock Htok.
  unfold ensureValidToken, mark, this, now. cbn [bind advance].
  rewrite Hmock. cbn [is_some bind advance].
  unfold getTokenStatus. rewrite Htok. cbn [hasToken isExpired negb orb].
  unfold authenticate. change (Z.to_nat maxRetries) with 3%nat.
  cbn [authenticateLoop]. change (0 <? maxRetries) with true. cbv iota.
  unfold authAttempt, this, now. cbn [bind catch advance].
  unfold refreshFirst. rewrite Htok.
  unfold passwordAuthenticate, this, fetch. cbn [bind catch advance].
  eexists. reflexivity.
Qed.

(** A caller that finds a usable credential finishes at once. *)
Lemma advance_usable (c : Client) (t : Z) :
  usable c t = true ->
  advance ensureValidToken c t = (c, Finished (Ok tt)).
Proof.
  unfold usable. intros Hu.
  unfold ensureValidToken, mark, this, now. cbn [bind advance].
  destruct (is_some (mockToken c)); [reflexivity|].
  cbn [orb] in Hu. cbn [bind advance].
  apply andb_true_iff in Hu. destruct Hu as [Hu Hr].
  apply andb_true_iff in Hu. destruct Hu as [Hh He].
  rewrite Hh. apply negb_true_iff in He, Hr. rewrite He, Hr. reflexivity.
Qed.

Lemma play_calls_without_token (c : Client) (n : nat) :
  mockToken c = None -> token c = None ->
  forall p, shared p = c ->
    shared (play (repeat Call n) p) = c /\
    authInFlight (tasks (play (repeat Call n) p)) = (authInFlight (tasks p) + n)%nat.
Proof.
  intros Hmock Htok.
  induction n as [|n IH]; intros p Hp; cbn [repeat play fold_left].
  - split; [exact Hp|lia].
  - fold (play (repeat Call n) (act Call p)).
    destruct (@advance_without_token c (time p) Hmock Htok) as [k Hk].
    assert (Hact : act Call p =
                   {| shared := c; time := time p;
                      tasks := tasks p ++ [AwaitingFetch (passwordRequest c) None k] |}).
    { unfold act. rewrite Hp, Hk. reflexivity. }
    destruct (IH (act Call p)) as [Hs Hc]; [rewrite Hact; reflexivity|].
    split; [exact Hs|]. rewrite Hc, Hact. cbn [tasks].
    rewrite authInFlight_app. cbn. lia.
Qed.

Lemma play_calls_usable (c : Client) (t : Z) (n : nat) :
  usable c t = true ->
  forall p, shared p = c -> time p = t ->
    shared (play (repeat Call n) p) = c /\
    authInFlight (tasks (play (repeat Call n) p)) = authInFlight (tasks p).
Proof.
  intros Hu.
  induction n as [|n IH]; intros p Hp Ht; cbn [repeat play fold_left].
  - split; [exact Hp|reflexivity].
  - fold (play (repeat Call n) (act Call p)).
    assert (Hact : act Call p =
                   {| shared := c; time := t; tasks := tasks p ++ [Finished (Ok tt)] |}).
    { unfold act. rewrite Hp, Ht, (@advance_usable c t Hu). reflexivity. }
    destruct (IH (act Call p)) as [Hs Hc]; [rewrite Hact; reflexivity..|].
    split; [exact Hs|]. rewrite Hc, Hact. cbn [tasks].
    rewrite authInFlight_app. cbn. lia.
Qed.

(** C8, the claim as stated fails: two callers entering
    [ensureValidToken] on a client without a credential, before any reply
    arrives, each issue a password request; two authentication calls are
    in flight. *)
Lemma two_authentications_in_flight :
  authInFlight (tasks (play [Call; Call] (idle freshClient 1000000))) = 2%nat /\
  ~ serialized freshClient 1000000.
Proof.
  split; [reflexivity|].
  intros H. specialize (H [Call; Call]). vm_compute in H. lia.
Qed.

(** C8, amended.  [ensureValidToken] does not serialize its callers.
    Every caller that finds no token stored (and no mock token) issues a
    password request of its own, so [n] callers arriving before any reply
    put [n] authentication calls in flight; callers that find a usable
    credential issue none, whatever their number. *)
Theorem ensureValidToken_not_serialized :
  (forall c t n, mockToken c = None -> token c = None ->
     authInFlight (tasks (play (repeat Call n) (idle c t))) = n) /\
  (forall c t n, usable c t = true ->
     authInFlight (tasks (play (repeat Call n) (idle c t))) = 0%nat).
Proof.
  split.
  - intros c t n Hmock Htok.
    destruct (@play_calls_without_token c n Hmock Htok (idle c t) eq_refl) as [_ H].
    exact H.
  - intros c t n Hu.
    destruct (@play_calls_usable c t n Hu (idle c t) eq_refl eq_refl) as [_ H].
    exact H.
Qed.

(** ** Offset pagination *)

Local Open Scope nat_scope.

Section OffsetResource.
Variable T : Type.
Variable all : list T.
Variable per_page : nat.
Hypothesis per_page_positive : 0 < per_page.

Lemma collectFrom_rest (fuel k : nat) :
  List.length (skipn (k * per_page) all) / per_page < fuel ->
  collectFrom (pageOf all) fuel per_page (S k) =
  Some (skipn (k * per_page) all,
        seq (S k) (List.length (skipn (k * per_page) all) / per_page + 1)).
Proof.
  revert k. induction fuel as [|fuel IH]; intros k Hfuel; [lia|].
  cbn [collectFrom]. unfold pageOf at 1 2.
  replace (S k - 1) with k by lia.
  set (rest := skipn (k * per_page) all) in *.
  rewrite length_firstn.
  destruct (Nat.ltb_spec (Nat.min per_page (List.length rest)) per_page) as [Hshort|Hfull].
  - assert (Hlen : List.length rest < per_page) by lia.
    rewrite firstn_all2 by lia.
    rewrite Nat.div_small by exact Hlen. reflexivity.
  - assert (Hlen : per_page <= List.length rest) by lia.
    assert (Hskip : skipn (S k * per_page) all = skipn per_page rest).
    { unfold rest. rewrite skipn_skipn. reflexivity. }
    assert (Hdiv : List.length rest / per_page
                   = List.length (skipn per_page rest) / per_page + 1).
    { rewrite length_skipn.
      replace (List.length rest) with ((List.length rest - per_page) + 1 * per_page) at 1
        by lia.
      rewrite Nat.div_add by lia. reflexivity. }
    rewrite IH; rewrite Hskip; [|lia].
    unfold pageOf. replace (S k - 1) with k by lia. fold rest.
    rewrite firstn_skipn, Hdiv, cons_seq.
    rewrite (Nat.add_1_r (_ + 1)). reflexivity.
Qed.

Lemma map_constant {A B : Type} (b : B) (l : list A) :
  map (fun _ => b) l = repeat b (List.length l).
Proof. induction l as [|x l IH]; [reflexivity|]. cbn. rewrite IH. reflexivity. Qed.

Lemma pageOf_sizes :
  map (fun p => List.length (pageOf all p per_page))
      (seq 1 (List.length all / per_page + 1))
  = repeat per_page (List.length all / per_page) ++ [List.length all mod per_page].
Proof.
  pose proof (Nat.div_mod_eq (List.length all) per_page) as Hdm.
  pose proof (Nat.mod_upper_bound (List.length all) per_page) as Hmod.
  rewrite Nat.add_1_r, seq_S, map_app. cbn [map]. f_equal.
  - rewrite <- (length_seq (List.length all / per_page) 1) at 2.
    rewrite <- map_constant. apply map_ext_in.
    intros p Hp. apply in_seq in Hp.
    unfold pageOf. rewrite length_firstn, length_skipn.
    assert ((p - 1) * per_page + per_page <= List.length all) by nia.
    lia.
  - unfold pageOf. rewrite length_firstn, length_skipn.
    replace (1 + List.length all / per_page - 1) with (List.length all / per_page) by lia.
    f_equal. nia.
Qed.

End OffsetResource.

(** C6.  Over an offset-paged resource the iterator requests pages 1, 2,
    3, ... in steps of one and stops at the first page shorter than
    [per_page]: all pages before the last are full, the last holds the
    remainder, and [toArray] returns every item in the original order.
    For 125 items and [per_page = 50] that is the 125 items from pages 1,
    2 and 3 of sizes 50, 50 and 25, and no fourth request. *)
Theorem offset_toArray_complete (T : Type) (all : list T) (per_page fuel : nat) :
  0 < per_page ->
  List.length all / per_page < fuel ->
  toArray (pageOf all) fuel per_page
    = Some (all, seq 1 (List.length all / per_page + 1)) /\
  map (fun p => List.length (pageOf all p per_page))
      (seq 1 (List.length all / per_page + 1))
    = repeat per_page (List.length all / per_page) ++ [List.length all mod per_page] /\
  List.length all mod per_page < per_page /\
  toArray (pageOf (seq 0 125)) 3 50 = Some (seq 0 125, [1; 2; 3]) /\
  map (fun p => List.length (pageOf (seq 0 125) p 50)) [1; 2; 3] = [50; 50; 25].
Proof.
  intros Hpos Hfuel.
  split; [|split; [|split; [|split]]].
  - unfold toArray.
    pose proof (@collectFrom_rest T all per_page Hpos fuel 0) as H.
    cbn [Nat.mul skipn] in H. apply H. exact Hfuel.
  - apply pageOf_sizes. exact Hpos.
  - apply Nat.mod_upper_bound. lia.
  - vm_compute. reflexivity.
  - vm_compute. reflexivity.
Qed.

Lemma offset_toArray_witness :
  0 < 50 /\ List.length (seq 0 125) / 50 < 3 /\
  toArray (pageOf (seq 0 125)) 3 50
    = Some (seq 0 125, seq 1 (List.length (seq 0 125) / 50 + 1)).
Proof.
  assert (Hpos : 0 < 50) by (vm_compute; lia).
  assert (Hfuel : List.length (seq 0 125) / 50 < 3) by (vm_compute; lia).
  split; [exact Hpos|]. split; [exact Hfuel|].
  exact (proj1 (offset_toArray_complete (seq 0 125) Hpos Hfuel)).
Defined.

Local Close Scope nat_scope.

(** ** Refresh and its fallback *)

Local Open Scope Z_scope.

Lemma fallsBack_app (l1 l2 : list Event) :
  fallsBack l1 = true -> fallsBack l2 = true -> fallsBack (l1 ++ l2) = true.
Proof.
  induction l1 as [|ev rest IH]; intros H1 H2; [exact H2|].
  cbn [fallsBack app] in *.
  apply andb_true_iff in H1. destruct H1 as [Hev Hrest].
  apply andb_true_iff. split; [|apply IH; assumption].
  destruct (failedRefresh ev); [|reflexivity].
  destruct rest as [|next rest']; [discriminate|exact Hev].
Qed.

Lemma endsInPasswordError_app (pre l : list Event) (e : Error) :
  endsInPasswordError l e -> endsInPasswordError (pre ++ l) e.
Proof.
  intros [p [t [c [x [Hl Hx]]]]]. exists (pre ++ p), t, c, x.
  rewrite Hl, app_assoc. split; [reflexivity|exact Hx].
Qed.

Lemma refreshFirst_true (c : Client) (t : Z) :
  refreshFirst c t = true ->
  exists rt e,
    usableRefreshToken c = Some rt /\ tokenExpiry c = Some e /\ t < e - refreshLead.
Proof.
  unfold refreshFirst, usableRefreshToken.
  destruct (token c) as [tok|]; [|discriminate].
  destruct (tokenExpiry c) as [e|]; [|discriminate].
  intros H. apply andb_true_iff in H. destruct H as [Hrt Hlt].
  destruct (refresh_token tok) as [rt|]; [|discriminate].
  cbn [truthy_opt_string] in Hrt. rewrite Hrt.
  exists rt, e. repeat split. apply Z.ltb_lt. exact Hlt.
Qed.

Lemma keeps_usable (w w' : World) (rt : string) :
  keeps w w' -> usableRefreshToken (self w') = Some rt ->
  usableRefreshToken (self w) = Some rt /\ tokenExpiry (self w) = tokenExpiry (self w').
Proof.
  unfold usableRefreshToken.
  intros [[Htok Hexp]|Hnone] Hu.
  - rewrite <- Htok. split; [exact Hu|symmetry; exact Hexp].
  - rewrite Hnone in Hu. discriminate.
Qed.

Lemma keeps_tick (w w' : World) (dt : Z) : keeps w w' -> keeps w (tick w' dt).
Proof. intros H. exact H. Qed.

Lemma keeps_pause (w w' : World) (ms : Z) : keeps w w' -> keeps w (pause ms w').
Proof. intros H. exact H. Qed.

Lemma keeps_cleared (w w' : World) : keeps w (cleared w').
Proof. right. reflexivity. Qed.

Lemma keeps_dropped (w w' : World) : keeps w (dropped w').
Proof. right. reflexivity. Qed.

Section Fallback.
Variable net : nat -> Reply.

Lemma passwordAuthenticate_fallback (w0 w : World) :
  keeps w0 w ->
  let a := run net passwordAuthenticate w in
  fallsBack (log a) = true /\
  Forall (guardedRefresh w0) (log a) /\
  (exists rest,
     log a = EvFetch (clock w) (passwordRequest (self w)) (answer (net (served w)))
             :: rest) /\
  (forall e, res a = Err e -> keeps w0 (post a) /\ endsInPasswordError (log a) e).
Proof.
  intros Hk a. subst a. rewrite run_passwordAuthenticate. cbv zeta.
  destruct (passwordGrant _) as [td|e1] eqn:G; cbn [res post log].
  - split; [reflexivity|]. split; [repeat constructor|]. split; [eauto|]. discriminate.
  - split; [reflexivity|]. split; [repeat constructor|]. split; [eauto|].
    intros e He. injection He as <-.
    split; [destruct (voids _); [apply keeps_dropped|apply keeps_tick; exact Hk]|].
    exists [], (clock w), (self w), (answer (net (served w))). split; [reflexivity|exact G].
Qed.

Lemma authAttempt_fallback (w0 w : World) :
  keeps w0 w ->
  let a := run net authAttempt w in
  fallsBack (log a) = true /\
  Forall (guardedRefresh w0) (log a) /\
  (refreshFirst (self w) (clock w) = false ->
   exists rest,
     log a = EvFetch (clock w) (passwordRequest (self w)) (answer (net (served w)))
             :: rest) /\
  (forall e, res a = Err e -> keeps w0 (post a) /\ endsInPasswordError (log a) e).
Proof.
  intros Hk a. subst a. rewrite run_authAttempt.
  destruct (refreshFirst (self w) (clock w)) eqn:Hfirst.
  - destruct (refreshFirst_true _ _ Hfirst) as [rt [e [Hu [Hexp Hlt]]]].
    destruct (keeps_usable Hk Hu) as [Hu0 Hexp0].
    unfold orElse. rewrite run_refreshToken, Hu. cbv zeta.
    assert (Hguard : forall x,
              guardedRefresh w0 (EvFetch (clock w) (TokenRefresh (baseUrl (self w)) rt) x)).
    { intros x. split; [exact Hu0|]. exists e. rewrite Hexp0. split; [exact Hexp|].
      unfold refreshLead in Hlt. lia. }
    destruct (refreshGrant (answer (net (served w)))) as [td|e0] eqn:G; cbn [res post log].
    + split; [cbn; rewrite G; reflexivity|].
      split; [constructor; [apply Hguard|constructor]|]. split; discriminate.
    + set (w1 := if invalidates (answer (net (served w)))
                 then cleared (tick w (Z.of_N (latency (net (served w)))))
                 else if voids (answer (net (served w)))
                      then dropped (tick w (Z.of_N (latency (net (served w)))))
                      else tick w (Z.of_N (latency (net (served w))))).
      assert (Hk1 : keeps w0 w1).
      { unfold w1. destruct (invalidates _); [apply keeps_cleared|].
        destruct (voids _); [apply keeps_dropped|apply keeps_tick, Hk]. }
      destruct (passwordAuthenticate_fallback Hk1) as [F [Gd [[rest Hhead] E]]].
      split; [|split; [|split]].
      * cbn [fallsBack app failedRefresh]. rewrite G, F, Hhead. reflexivity.
      * constructor; [apply Hguard|exact Gd].
      * discriminate.
      * intros e' He'. destruct (E e' He') as [Hk' Hend]. split; [exact Hk'|].
        apply (endsInPasswordError_app [_]). exact Hend.
  - destruct (passwordAuthenticate_fallback Hk) as [F [Gd [Hhead E]]].
    split; [exact F|]. split; [exact Gd|]. split; [intros _; exact Hhead|exact E].
Qed.

Lemma authenticate_fallback (w0 w : World) :
  keeps w0 w ->
  let r := run net authenticate w in
  fallsBack (log r) = true /\
  Forall (guardedRefresh w0) (log r) /\
  (refreshFirst (self w) (clock w) = false ->
   exists rest,
     log r = EvFetch (clock w) (passwordRequest (self w)) (answer (net (served w)))
             :: rest) /\
  (forall e, res r = Err e -> endsInPasswordError (log r) e).
Proof.
  intros Hk r. subst r. rewrite run_authenticate. cbv zeta.
  destruct (authAttempt_fallback Hk) as [F1 [G1 [H1 E1]]].
  destruct (res (run net authAttempt w)) as [u|e1] eqn:R1.
  { split; [exact F1|]. split; [exact G1|]. split; [exact H1|].
    intros e He. rewrite R1 in He. discriminate. }
  destruct (E1 e1 eq_refl) as [K1 _].
  destruct (authAttempt_fallback (keeps_pause 2000 K1)) as [F2 [G2 [_ E2]]].
  destruct (res (run net authAttempt (pause 2000 (post (run net authAttempt w)))))
    as [u|e2] eqn:R2; cbn [res post log].
  { split; [apply fallsBack_app; [exact F1|exact F2]|].
    split; [apply Forall_app; split; [exact G1|constructor; [exact I|exact G2]]|].
    split; [|intros e He; try rewrite R2 in He; discriminate].
    intros Hf. destruct (H1 Hf) as [rest Hrest]. rewrite Hrest. cbn [app]. eauto. }
  destruct (E2 e2 eq_refl) as [K2 _].
  destruct (authAttempt_fallback (keeps_pause 4000 K2)) as [F3 [G3 [_ E3]]].
  split; [|split; [|split]].
  - apply fallsBack_app; [exact F1|]. cbn [fallsBack failedRefresh andb].
    apply fallsBack_app; [exact F2|exact F3].
  - apply Forall_app; split; [exact G1|]. constructor; [exact I|].
    apply Forall_app; split; [exact G2|]. constructor; [exact I|exact G3].
  - intros Hf. destruct (H1 Hf) as [rest Hrest]. rewrite Hrest. cbn [app]. eauto.
  - intros e He. destruct (E3 e He) as [_ Hend].
    apply endsInPasswordError_app.
    apply (endsInPasswordError_app (EvSleep 2000 :: _)).
    apply (endsInPasswordError_app [EvSleep 4000]). exact Hend.
Qed.

End Fallback.

(** What [ensureValidToken] knows when it takes the refresh branch. *)
Lemma refresh_branch_facts (c : Client) (t : Z) :
  negb (hasToken (getTokenStatus c t)) || isExpired (getTokenStatus c t) = false ->
  needsRefresh (getTokenStatus c t) && hasRefreshToken (getTokenStatus c t) = true ->
  exists rt e,
    usableRefreshToken c = Some rt /\ tokenExpiry c = Some e /\
    e - refreshLead <= t /\ t < e.
Proof.
  unfold getTokenStatus, usableRefreshToken. cbn [hasToken isExpired needsRefresh hasRefreshToken].
  intros H1 H2.
  apply orb_false_iff in H1. destruct H1 as [Hhas Hexp].
  apply negb_false_iff in Hhas.
  apply andb_true_iff in H2. destruct H2 as [Hneed Href].
  destruct (token c) as [tok|]; [|discriminate].
  rewrite Hhas in Hneed.
  destruct (tokenExpiry c) as [e|]; [|discriminate].
  destruct (refresh_token tok) as [rt|]; [|discriminate].
  cbn [truthy_opt_string] in Href. rewrite Href.
  exists rt, e. repeat split.
  - apply Z.geb_le in Hneed. lia.
  - destruct (Z.geb_spec t e); [discriminate|lia].
Qed.

(** A failed refresh leaves a client that asks for the password next. *)
Lemma refreshToken_failed (net : nat -> Reply) (w : World) (rt : string) (e : Z)
    (e0 : Error) :
  usableRefreshToken (self w) = Some rt ->
  tokenExpiry (self w) = Some e ->
  e - refreshLead <= clock w ->
  res (run net refreshToken w) = Err e0 ->
  let w1 := post (run net refreshToken w) in
  keeps w w1 /\
  refreshFirst (self w1) (clock w1) = false /\
  passwordRequest (self w1) = passwordRequest (self w) /\
  clock w1 = clock w + Z.of_N (latency (net (served w))) /\
  served w1 = S (served w).
Proof.
  intros Hu Hexp Hlead. rewrite run_refreshToken, Hu. cbv zeta.
  destruct (refreshGrant _) as [td|e1]; cbn [res post]; [discriminate|].
  intros _.
  destruct (invalidates _); [repeat split; apply keeps_cleared|].
  destruct (voids _); [repeat split; apply keeps_dropped|].
  split; [left; split; reflexivity|]. split; [|repeat split].
  unfold refreshFirst, tick. cbn [self clock]. rewrite Hexp.
  destruct (token (self w)) as [tok|]; [|reflexivity].
  replace (clock w + Z.of_N (latency (net (served w))) <? e - refreshLead) with false;
    [apply andb_false_r|].
  symmetry. apply Z.ltb_ge. lia.
Qed.

(** C5.  [ensureValidToken] with a credential that is due (held, not yet
    expired, within the refresh lead, with a refresh token) first sends
    the refresh request with the stored refresh token.  When the refresh
    is granted, that is all it does.  When the refresh fails, for whatever
    reason (a rejected fetch, any non-2xx status, a body that cannot be
    read as a grant), it goes on with [authenticate] from the client the
    failed refresh left, starting with a password request, and its result
    is that of [authenticate]: the error of the refresh never reaches the
    caller.  Without a credential or past the stored expiry it runs
    [authenticate] at once; with a mock token, or a credential that is not
    yet due or has no refresh token, it sends nothing.  In every run each
    failed refresh request is followed at once by a password request, an
    error that reaches the caller is the error of the last password
    request, and every refresh request was sent with the refresh token the
    client held, before the stored expiry of its credential had passed. *)
Theorem refresh_failure_falls_back (net : nat -> Reply) (w : World) :
  let r := run net ensureValidToken w in
  let status := getTokenStatus (self w) (clock w) in
  let refresh := run net refreshToken w in
  let fallback := run net authenticate (post refresh) in
  fallsBack (log r) = true /\
  Forall (guardedRefresh w) (log r) /\
  (forall e, res r = Err e -> endsInPasswordError (log r) e) /\
  (mockToken (self w) = None ->
   hasToken status = true -> isExpired status = false ->
   needsRefresh status = true -> hasRefreshToken status = true ->
   exists rt,
     usableRefreshToken (self w) = Some rt /\
     log refresh = [EvFetch (clock w) (TokenRefresh (baseUrl (self w)) rt)
                      (answer (net (served w)))] /\
     (res refresh = Ok tt ->
      log r = EvStage StEnsureValid :: log refresh /\
      res r = Ok tt /\ post r = post refresh) /\
     (forall e, res refresh = Err e ->
        log r = EvStage StEnsureValid :: log refresh ++ log fallback /\
        res r = res fallback /\
        post r = post fallback /\
        (res fallback = Ok tt -> res r = Ok tt) /\
        exists rest,
          log fallback =
            EvFetch (clock w + Z.of_N (latency (net (served w))))
              (passwordRequest (self w)) (answer (net (S (served w)))) :: rest)) /\
  (mockToken (self w) = None ->
   hasToken status = false \/ isExpired status = true ->
   log r = EvStage StEnsureValid :: log (run net authenticate w) /\
   res r = res (run net authenticate w) /\
   post r = post (run net authenticate w)) /\
  (mockToken (self w) <> None \/
   (hasToken status = true /\ isExpired status = false /\
    (needsRefresh status = false \/ hasRefreshToken status = false)) ->
   log r = [EvStage StEnsureValid] /\ res r = Ok tt /\ post r = w).
Proof.
  intros r status refresh fallback. subst r.
  rewrite run_ensureValidToken. unfold emit. cbn [log res post].
  assert (Hrefl : keeps w w) by (left; split; reflexivity).
  destruct (mockToken (self w)) as [mock|] eqn:Hmock; cbn [is_some].
  { cbn. split; [reflexivity|]. split; [repeat constructor|]. split; [discriminate|].
    split; [discriminate|]. split; [discriminate|]. intros _. repeat split. }
  cbv zeta. fold status.
  destruct (hasToken status) eqn:Hhas; cbn [negb orb].
  2:{ destruct (authenticate_fallback net Hrefl) as [F [G [_ E]]].
      split; [exact F|]. split; [constructor; [exact I|exact G]|].
      split; [intros e He; apply (endsInPasswordError_app [_]); apply E; exact He|].
      split; [discriminate|]. split; [intros _ _; repeat split|].
      intros [Hm|[Hh _]]; [congruence|discriminate]. }
  destruct (isExpired status) eqn:Hexpired.
  { destruct (authenticate_fallback net Hrefl) as [F [G [_ E]]].
    split; [exact F|]. split; [constructor; [exact I|exact G]|].
    split; [intros e He; apply (endsInPasswordError_app [_]); apply E; exact He|].
    split; [discriminate|]. split; [intros _ _; repeat split|].
    intros [Hm|[_ [Hx _]]]; [congruence|discriminate]. }
  destruct (needsRefresh status && hasRefreshToken status) eqn:Hdue.
  2:{ unfold done; cbn [res log post].
      split; [reflexivity|]. split; [repeat constructor|]. split; [discriminate|].
      split; [intros _ _ _ Hn Hr; rewrite Hn, Hr in Hdue; discriminate|].
      split; [intros _ [Hx|Hx]; discriminate|]. intros _. repeat split. }
  assert (Hfull : negb (hasToken status) || isExpired status = false)
    by (rewrite Hhas, Hexpired; reflexivity).
  destruct (refresh_branch_facts _ _ Hfull Hdue) as [rt [e [Hu [Hexp [Hlead Hlive]]]]].
  assert (Hguard : forall x,
            guardedRefresh w (EvFetch (clock w) (TokenRefresh (baseUrl (self w)) rt) x)).
  { intros x. split; [exact Hu|]. exists e. split; [exact Hexp|exact Hlive]. }
  assert (Hlog : log refresh = [EvFetch (clock w) (TokenRefresh (baseUrl (self w)) rt)
                                  (answer (net (served w)))]).
  { unfold refresh. rewrite run_refreshToken, Hu. cbv zeta.
    destruct (refreshGrant _); reflexivity. }
  assert (Hfailed : failedRefresh
                      (EvFetch (clock w) (TokenRefresh (baseUrl (self w)) rt)
                         (answer (net (served w))))
                    = match res refresh with Ok _ => false | Err _ => true end).
  { unfold refresh. rewrite run_refreshToken, Hu. cbv zeta. cbn [failedRefresh].
    destruct (refreshGrant _); reflexivity. }
  unfold orElse. fold refresh.
  destruct (res refresh) as [[]|e0] eqn:Hres; cbn [res post log].
  { rewrite Hlog. split; [cbn [fallsBack]; rewrite Hfailed; reflexivity|].
    split; [constructor; [exact I|]; constructor; [apply Hguard|constructor]|].
    split; [intros e' He'; rewrite Hres in He'; discriminate|].
    split; [|split; [intros _ [Hx|Hx]; discriminate|]].
    - intros _ _ _ _ _. exists rt. split; [exact Hu|]. split; [reflexivity|].
      split; [intros _; rewrite Hres; repeat split|discriminate].
    - intros [Hm|[_ [_ [Hn|Hr]]]]; [congruence| |];
        [rewrite Hn in Hdue|rewrite Hr, andb_false_r in Hdue]; discriminate. }
  destruct (@refreshToken_failed net w rt e e0 Hu Hexp Hlead Hres)
    as [Hk1 [Hnot [Hreq [Hclock Hserved]]]].
  fold refresh in Hk1, Hnot, Hreq, Hclock, Hserved.
  destruct (authenticate_fallback net Hk1) as [F [Gd [Hhead E]]].
  fold fallback in F, Gd, Hhead, E.
  destruct (Hhead Hnot) as [rest Hrest].
  rewrite Hreq, Hclock, Hserved in Hrest.
  fold fallback.
  split; [|split; [|split; [|split; [|split]]]].
  - rewrite Hlog. cbn [fallsBack app failedRefresh andb].
    fold (failedRefresh (EvFetch (clock w) (TokenRefresh (baseUrl (self w)) rt)
                           (answer (net (served w))))).
    rewrite Hfailed, F, Hrest. reflexivity.
  - rewrite Hlog. constructor; [exact I|]. constructor; [apply Hguard|exact Gd].
  - intros e' He'. apply (endsInPasswordError_app (_ :: log refresh)). apply E. exact He'.
  - intros _ _ _ _ _. exists rt. split; [exact Hu|]. split; [exact Hlog|].
    split; [discriminate|].
    intros e' _. split; [reflexivity|]. split; [reflexivity|]. split; [reflexivity|].
    split; [intros H; exact H|]. exists rest. exact Hrest.
  - intros _ [Hx|Hx]; discriminate.
  - intros [Hm|[_ [_ [Hn|Hr]]]]; [congruence| |];
      [rewrite Hn in Hdue|rewrite Hr, andb_false_r in Hdue]; discriminate.
Qed.

Lemma refresh_failure_falls_back_witness :
  log (run rejectRefresh ensureValidToken staleWorld) =
    [EvStage StEnsureValid;
     EvFetch 1000000 (TokenRefresh "https://api.cakemail.dev" "R0")
       (Responded invalidGrant);
     EvFetch 1000020 (passwordRequest freshClient)
       (Responded (jsonResponse 200 tokenJson))] /\
  res (run rejectRefresh ensureValidToken staleWorld) = Ok tt.
Proof.
  destruct (refresh_failure_falls_back rejectRefresh staleWorld)
    as [_ [_ [_ [Hdue _]]]].
  destruct (Hdue eq_refl eq_refl eq_refl eq_refl eq_refl)
    as [rt [_ [_ [_ Hfail]]]].
  destruct (Hfail (CakemailAuthenticationError RefreshTokenInvalid
                     (Some (parseErrorResponse invalidGrant))) eq_refl)
    as [Hlog [Hres _]].
  split; [exact Hlog|exact Hres].
Defined.

(** ** Invariants of the client across a method *)

Section Preserves.
Variable net : nat -> Reply.
Variable Inv : Client -> Prop.

Lemma preserves_bind {A B : Type} (m : Async A) (f : A -> Async B) :
  preserves net Inv m -> (forall a, preserves net Inv (f a)) -> preserves net Inv (bind m f).
Proof.
  intros Hm Hf w Hw. rewrite run_bind. unfold andThen.
  destruct (res (run net m w)) as [a|e]; cbn [post].
  - apply Hf, Hm, Hw.
  - apply Hm, Hw.
Qed.

Lemma preserves_catch {A : Type} (m : Async A) (h : Error -> Async A) :
  preserves net Inv m -> (forall e, preserves net Inv (h e)) -> preserves net Inv (catch m h).
Proof.
  intros Hm Hh w Hw. rewrite run_catch. unfold orElse.
  destruct (res (run net m w)) as [a|e]; cbn [post].
  - apply Hm, Hw.
  - apply Hh, Hm, Hw.
Qed.

Lemma preserves_Ret {A : Type} (a : A) : preserves net Inv (Ret a).
Proof. intros w Hw. exact Hw. Qed.

Lemma preserves_Throw {A : Type} (e : Error) : preserves net Inv (@Throw A e).
Proof. intros w Hw. exact Hw. Qed.

Lemma preserves_lift {A : Type} (r : Result A) : preserves net Inv (lift r).
Proof. destruct r; [apply preserves_Ret|apply preserves_Throw]. Qed.

Lemma preserves_this : preserves net Inv this.
Proof. intros w Hw. exact Hw. Qed.

Lemma preserves_now : preserves net Inv now.
Proof. intros w Hw. exact Hw. Qed.

Lemma preserves_mark (s : Stage) : preserves net Inv (mark s).
Proof. intros w Hw. exact Hw. Qed.

Lemma preserves_sleep (ms : Z) : preserves net Inv (sleep ms).
Proof. intros w Hw. exact Hw. Qed.

Lemma preserves_Fetch (r : Request) (d : option Z) : preserves net Inv (Fetch r d settled).
Proof.
  intros w Hw. cbn [run]. unfold emit. cbn [post].
  destruct (snd (race d (net (served w)))); exact Hw.
Qed.

Lemma preserves_assign (f : Client -> Client) :
  (forall c, Inv c -> Inv (f c)) -> preserves net Inv (assign f).
Proof. intros Hf w Hw. apply Hf, Hw. Qed.

Lemma preserves_reify {A : Type} (m : Async A) : preserves net Inv m -> preserves net Inv (reify m).
Proof.
  intros Hm. unfold reify.
  apply preserves_catch; [|intros e; apply preserves_Ret].
  apply preserves_bind; [exact Hm|]. intros a. apply preserves_Ret.
Qed.

End Preserves.

Create HintDb frame.
#[local] Hint Resolve preserves_Ret preserves_Throw preserves_lift preserves_this
  preserves_now preserves_mark preserves_sleep preserves_Fetch : frame.

(** Solves [preserves] goals by following the structure of the method. *)
Ltac frame_step :=
  match goal with
  | |- preserves _ _ (bind _ _) => apply preserves_bind; [|intros ?]
  | |- preserves _ _ (catch _ _) => apply preserves_catch; [|intros ?]
  | |- preserves _ _ (reify _) => apply preserves_reify
  | |- preserves _ _ (assign _) => apply preserves_assign
  | |- preserves _ _ (fetch _) => apply preserves_Fetch
  | |- preserves _ _ (fetchWithTimeout _ _) => apply preserves_Fetch
  | |- preserves _ _ (if ?b then _ else _) => destruct b
  | |- preserves _ _ (match ?x with Some _ => _ | None => _ end) => destruct x
  | |- preserves _ _ (match ?x with Ok _ => _ | Err _ => _ end) => destruct x
  | |- preserves _ _ _ => solve [auto with frame]
  end.

Section CredentialFrame.
Variable net : nat -> Reply.
Variable Inv : Client -> Prop.
Hypothesis Inv_token : forall c t, Inv c -> Inv (set_token t c).
Hypothesis Inv_expiry : forall c e, Inv c -> Inv (set_tokenExpiry e c).

Lemma preserves_storeToken (td : CakemailToken) : preserves net Inv (storeToken td).
Proof. unfold storeToken. repeat frame_step; auto. Qed.

Lemma preserves_storeGrant (tokenData : json) : preserves net Inv (storeGrant tokenData).
Proof.
  destruct tokenData; cbn [storeGrant]; try apply preserves_storeToken.
  repeat frame_step; auto.
Qed.

Lemma preserves_passwordAuthenticate : preserves net Inv passwordAuthenticate.
Proof.
  unfold passwordAuthenticate. repeat frame_step; auto using preserves_storeGrant.
Qed.

Lemma preserves_refreshToken : preserves net Inv refreshToken.
Proof.
  unfold refreshToken. repeat frame_step; auto using preserves_storeGrant.
Qed.

Lemma preserves_authAttempt : preserves net Inv authAttempt.
Proof.
  unfold authAttempt.
  repeat frame_step; auto using preserves_passwordAuthenticate, preserves_refreshToken.
Qed.

Lemma preserves_authenticateLoop (fuel : nat) (retryCount : Z) :
  preserves net Inv (authenticateLoop fuel retryCount).
Proof.
  revert retryCount. induction fuel as [|k IH]; intros retryCount; cbn [authenticateLoop].
  - apply preserves_Ret.
  - repeat frame_step; auto using preserves_authAttempt.
Qed.

Lemma preserves_ensureValidToken : preserves net Inv ensureValidToken.
Proof.
  unfold ensureValidToken, authenticate.
  repeat frame_step;
    auto using preserves_authenticateLoop, preserves_refreshToken.
Qed.

End CredentialFrame.

Section TokenAfterwards.
Variable net : nat -> Reply.

Lemma authenticate_ok_stored (w : World) :
  res (run net authenticate w) = Ok tt ->
  exists td w1, post (run net authenticate w) = stored td w1.
Proof.
  rewrite run_authenticate. cbv zeta.
  destruct (authAttempt_facts net w) as [_ [_ [_ O1]]].
  destruct (res (run net authAttempt w)) as [[]|e1] eqn:R1.
  { intros _. apply O1. reflexivity. }
  destruct (authAttempt_facts net (pause 2000 (post (run net authAttempt w))))
    as [_ [_ [_ O2]]].
  destruct (res (run net authAttempt (pause 2000 (post (run net authAttempt w)))))
    as [[]|e2] eqn:R2; cbn [res post].
  { intros _. apply O2. reflexivity. }
  intros H3.
  destruct (authAttempt_facts net
              (pause 4000 (post (run net authAttempt
                                   (pause 2000 (post (run net authAttempt w)))))))
    as [_ [_ [_ O3]]].
  apply O3. exact H3.
Qed.

(** After a successful [ensureValidToken] there is a token to send. *)
Lemma ensureValidToken_ok_token (w : World) :
  res (run net ensureValidToken w) = Ok tt ->
  is_some (activeToken (self (post (run net ensureValidToken w)))) = true.
Proof.
  rewrite run_ensureValidToken. unfold emit. cbn [res post].
  assert (Hst : forall td w1, is_some (activeToken (self (stored td w1))) = true).
  { intros td w1. unfold activeToken, stored. cbn.
    destruct (mockToken (self w1)); reflexivity. }
  destruct (mockToken (self w)) as [mock|] eqn:Hmock; cbn [is_some].
  { intros _. unfold activeToken. cbn. rewrite Hmock. reflexivity. }
  cbv zeta.
  destruct (negb (hasToken (getTokenStatus (self w) (clock w)))
            || isExpired (getTokenStatus (self w) (clock w))) eqn:Hfull.
  { intros Hok. destruct (authenticate_ok_stored w Hok) as [td [w1 Hp]].
    rewrite Hp. apply Hst. }
  destruct (needsRefresh (getTokenStatus (self w) (clock w))
            && hasRefreshToken (getTokenStatus (self w) (clock w))) eqn:Hdue.
  - unfold orElse. rewrite run_refreshToken.
    destruct (usableRefreshToken (self w)) as [rt|]; cbv zeta.
    + destruct (refreshGrant _) as [td|e0]; cbn [res post].
      * intros _. apply Hst.
      * intros Hok. destruct (authenticate_ok_stored _ Hok) as [td [w1 Hp]].
        rewrite Hp. apply Hst.
    + cbn [res post]. intros Hok.
      destruct (authenticate_ok_stored _ Hok) as [td [w1 Hp]].
      rewrite Hp. apply Hst.
  - intros _. cbn [done post].
    apply orb_false_iff in Hfull. destruct Hfull as [Hhas _].
    apply negb_false_iff in Hhas. unfold getTokenStatus in Hhas. cbn in Hhas.
    unfold activeToken. rewrite Hmock.
    destruct (token (self w)); [reflexivity|discriminate].
Qed.

End TokenAfterwards.

(** ** The order of the stages of [makeRequest] *)

Lemma steps_app (l1 l2 : list Event) : steps (l1 ++ l2) = steps l1 ++ steps l2.
Proof. unfold steps. apply flat_map_app. Qed.

Lemma steps_silent (l : list Event) :
  Forall (fun ev => stepOf ev = []) l -> steps l = [].
Proof.
  induction 1 as [|ev l Hev _ IH]; [reflexivity|].
  cbn [steps flat_map]. rewrite Hev. exact IH.
Qed.

Section Stages.
Variable net : nat -> Reply.

Lemma run_reify {A : Type} (m : Async A) (w : World) :
  run net (reify m) w =
  {| post := post (run net m w); log := log (run net m w);
     res := Ok (res (run net m w)) |}.
Proof.
  unfold reify. rewrite run_catch, run_bind. unfold orElse, andThen.
  destruct (res (run net m w)) as [a|e] eqn:E; cbn [run post log res];
    rewrite app_nil_r; reflexivity.
Qed.

Lemma steps_authenticate (w : World) : steps (log (run net authenticate w)) = [].
Proof.
  apply steps_silent. apply allEvents_authenticate.
  - intros t r x Hr. destruct r; [reflexivity|reflexivity|discriminate].
  - reflexivity.
Qed.

Lemma steps_refreshToken (w : World) : steps (log (run net refreshToken w)) = [].
Proof.
  apply steps_silent. apply allEvents_refreshToken.
  intros t r x Hr. destruct r; [reflexivity|reflexivity|discriminate].
Qed.

Lemma steps_ensureValidToken (w : World) :
  steps (log (run net ensureValidToken w)) = [Validate].
Proof.
  rewrite run_ensureValidToken. unfold emit. cbn [log steps flat_map stepOf app].
  fold (steps (log (if is_some (mockToken (self w)) then done tt w
     else
       let status := getTokenStatus (self w) (clock w) in
       if negb (hasToken status) || isExpired status then run net authenticate w
       else if needsRefresh status && hasRefreshToken status then
         orElse (run net refreshToken w) (fun _ w' => run net authenticate w')
       else done tt w))).
  f_equal.
  destruct (is_some (mockToken (self w))); [reflexivity|]. cbv zeta.
  destruct (negb _ || _); [apply steps_authenticate|].
  destruct (needsRefresh _ && _); [|reflexivity].
  unfold orElse.
  destruct (res (run net refreshToken w)); [apply steps_refreshToken|].
  cbn [log]. rewrite steps_app, steps_refreshToken, steps_authenticate. reflexivity.
Qed.

End Stages.

Section Attempt.
Variable net : nat -> Reply.
Variable endpoint : Endpoint.
Variable options : RequestInit.

Lemma run_rateLimiter_acquire (b : RateBudget) (w : World) :
  exists b',
    steps (log (run net (rateLimiter_acquire b) w)) = [Acquire] /\
    res (run net (rateLimiter_acquire b) w) = Ok tt /\
    self (post (run net (rateLimiter_acquire b) w)) = set_rateLimiter (Some b') (self w).
Proof.
  unfold rateLimiter_acquire, mark, now, sleep, assign. cbn [bind run].
  destruct (1000 <=? refilled b (clock w)); cbn [bind run emit post log res];
    eexists; repeat split.
Qed.

Lemma Ready_set_rateLimiter (b : RateBudget) (c : Client) :
  Ready true c -> Ready true (set_rateLimiter (Some b) c).
Proof. intros [Ht _]. split; [exact Ht|reflexivity]. Qed.

Lemma operation_steps (limited : bool) (w : World) :
  Ready limited (self w) ->
  let r := run net (operation endpoint options) w in
  steps (log r) = (if limited then [Acquire] else []) ++ [NetworkCall] /\
  Ready limited (self (post r)).
Proof.
  intros [Htok Hlim] r. subst r.
  unfold operation, this. cbn [bind run].
  rewrite run_bind. unfold andThen.
  destruct (rateLimiter (self w)) as [b|] eqn:Hb; cbn [is_some] in Hlim; subst limited.
  - destruct (run_rateLimiter_acquire b w) as [b' [Hs [Hr Hp]]].
    rewrite Hr. cbn [post log res].
    rewrite run_executeRequest.
    assert (Hready : Ready true (self (post (run net (rateLimiter_acquire b) w)))).
    { rewrite Hp. apply Ready_set_rateLimiter. split; [exact Htok|]. rewrite Hb. reflexivity. }
    destruct Hready as [Htok' Hlim'].
    destruct (activeToken (self (post (run net (rateLimiter_acquire b) w)))) as [tok|] eqn:Ha;
      [|discriminate].
    cbv zeta. cbn [post log res]. rewrite steps_app, Hs.
    split; [reflexivity|].
    unfold tick. cbn [self]. split; [rewrite Ha; reflexivity|exact Hlim'].
  - cbn [run post log res]. rewrite run_executeRequest.
    destruct (activeToken (self w)) as [tok|] eqn:Ha; [|discriminate].
    cbv zeta. cbn [post log res app]. split; [reflexivity|].
    unfold tick. cbn [self]. split; [rewrite Ha; reflexivity|rewrite Hb; reflexivity].
Qed.

Lemma steps_attempt (k : nat) (l : list Event) :
  steps (EvStage (StAttempt k) :: l) = Try k :: steps l.
Proof. reflexivity. Qed.

Lemma steps_sleep (ms : Z) (l : list Event) : steps (EvSleep ms :: l) = steps l.
Proof. reflexivity. Qed.

Lemma attemptSteps_once (limited : bool) (k : nat) :
  Try k :: (if limited then [Acquire] else []) ++ [NetworkCall]
  = flat_map (attemptSteps limited) (seq k 1).
Proof. cbn [seq flat_map]. rewrite app_nil_r. reflexivity. Qed.

Lemma retryLoop_steps (limited : bool) (cfg : RetryConfig) (retries : nat) :
  forall (k : nat) (w : World),
    Ready limited (self w) ->
    exists n,
      (1 <= n <= S retries)%nat /\
      steps (log (run net (retryLoop cfg retries k (operation endpoint options)) w))
      = flat_map (attemptSteps limited) (seq k n).
Proof.
  induction retries as [|retries IH]; intros k w Hready;
    rewrite run_retryLoop; unfold emit, orElse; cbn [log]; rewrite steps_attempt;
    destruct (@operation_steps limited w Hready) as [Hs Hready'];
    destruct (res (run net (operation endpoint options) w)) as [a|e].
  - exists 1%nat. split; [lia|]. rewrite Hs. apply attemptSteps_once.
  - exists 1%nat. split; [lia|].
    destruct (isRetryable e); cbn [failed log]; rewrite app_nil_r, Hs;
      apply attemptSteps_once.
  - exists 1%nat. split; [lia|]. rewrite Hs. apply attemptSteps_once.
  - destruct (isRetryable e); cbn [failed log].
    + destruct (IH (S k)
                  (pause (backoff cfg (S k))
                     (post (run net (operation endpoint options) w))) Hready')
        as [n [Hn Hrec]].
      exists (S n). split; [lia|].
      rewrite steps_app, Hs, steps_sleep, Hrec.
      change (flat_map (attemptSteps limited) (seq k (S n)))
        with (attemptSteps limited k ++ flat_map (attemptSteps limited) (seq (S k) n)).
      reflexivity.
    + exists 1%nat. split; [lia|]. rewrite app_nil_r, Hs. apply attemptSteps_once.
Qed.

End Attempt.

Section Pipeline.
Variable net : nat -> Reply.
Variable endpoint : Endpoint.
Variable options : RequestInit.

Lemma executeWithRetry_steps (limited : bool) (w : World) :
  Ready limited (self w) ->
  exists n,
    (1 <= n <= Nat.max 1 (maxAttempts (retryManager (self w))))%nat /\
    steps (log (run net (executeWithRetry (operation endpoint options)) w))
    = flat_map (attemptSteps limited) (seq 1 n).
Proof.
  intros Hready. unfold executeWithRetry, this. cbn [bind run].
  destruct (retryLoop_steps net endpoint options (retryManager (self w))
              (Nat.pred (maxAttempts (retryManager (self w)))) 1 w Hready)
    as [n [Hn Hs]].
  exists n. split; [lia|exact Hs].
Qed.

Lemma guarded_steps {A : Type} (m : Async A) (w : World) :
  steps (log (run net (guarded m) w)) = steps (log (run net m w)).
Proof.
  unfold guarded. rewrite run_bind, run_reify. unfold andThen. cbn [res post log].
  destruct (res (run net m w)); unfold onSuccess, onFailure, now, assign;
    cbn [bind run post log res]; rewrite app_nil_r; reflexivity.
Qed.

(** The gate lets the operation run on the client as it is, or with the
    breaker moved to half-open, or not at all. *)
Lemma circuitBreaker_execute_steps {A : Type} (b : Breaker) (m : Async A) (w : World) :
  steps (log (run net (circuitBreaker_execute b m) w)) = [Gate] \/
  exists b',
    steps (log (run net (circuitBreaker_execute b m) w))
    = Gate :: steps (log (run net m
                            {| self := set_circuitBreaker (Some b') (self w);
                               clock := clock w; served := served w |})) \/
    steps (log (run net (circuitBreaker_execute b m) w))
    = Gate :: steps (log (run net m w)).
Proof.
  unfold circuitBreaker_execute, mark, now. cbn [bind run]. unfold emit. cbn [log].
  destruct (circuit b).
  - right. exists b. right.
    cbn [steps flat_map stepOf app]. f_equal. apply (guarded_steps m).
  - destruct (clock w - openedAt b >=? resetTimeout b).
    + right. eexists. left.
      unfold assign. cbn [bind run].
      cbn [steps flat_map stepOf app].
      f_equal. apply (guarded_steps m).
    + left. reflexivity.
  - left. reflexivity.
Qed.

Lemma requestQueue_add_steps {A : Type} (m : Async A) (w : World) :
  steps (log (run net (requestQueue_add m) w))
  = Admit :: steps (log (run net m {| self := occupy 1 (self w);
                                      clock := clock w; served := served w |}))
    ++ [Release].
Proof.
  unfold requestQueue_add, finally, mark, assign. cbn [bind run]. unfold emit. cbn [log].
  rewrite run_bind, run_reify. unfold andThen. cbn [res post log].
  cbn [bind run]. unfold emit. cbn [log].
  cbn [steps flat_map stepOf app].
  match goal with
  | |- Admit :: flat_map stepOf (?l ++ _) = _ => fold (steps l)
  end.
  f_equal.
  match goal with
  | |- flat_map stepOf (?l ++ ?l') = _ => change (steps (l ++ l') = steps l ++ [Release])
  end.
  rewrite steps_app. f_equal.
  destruct (res (run net m _)); reflexivity.
Qed.

End Pipeline.

(** C1, the claim as stated fails: [makeRequest] checks the credential
    once, before the queue admits the call, and not inside the attempts.
    With one failed attempt and one successful one the stages run in the
    order shown first; the order the claim gives is the second. *)
Lemma makeRequest_validates_before_queue :
  steps (log (run failsOnce (makeRequest (plain "/accounts/self") noOptions) guardedWorld))
    = [Validate; Admit; Gate; Try 1; Acquire; NetworkCall;
       Try 2; Acquire; NetworkCall; Release] /\
  steps (log (run failsOnce (makeRequestAsSpecified (plain "/accounts/self") noOptions)
                guardedWorld))
    = [Admit; Gate; Try 1; Acquire; Validate; NetworkCall;
       Try 2; Acquire; Validate; NetworkCall; Release] /\
  validatedPerAttempt false
    (steps (log (run failsOnce (makeRequest (plain "/accounts/self") noOptions)
                   guardedWorld))) = false.
Proof. split; [reflexivity|]. split; reflexivity. Qed.

(** C1, amended.  [makeRequest] runs its stages in this order: the
    credential is ensured valid once, before anything else; if that fails
    the call ends there.  Otherwise the queue admits the call, the circuit
    breaker (when enabled) gates it, and the retry manager makes its
    attempts, at most the configured number; each attempt acquires the
    rate limiter (when enabled) and then makes the network call, whose
    response is classified; the queue slot is released last.  Inside an
    attempt the credential is not validated again. *)
Theorem makeRequest_stage_order
    (net : nat -> Reply) (endpoint : Endpoint) (options : RequestInit) (w : World) :
  let r := run net (makeRequest endpoint options) w in
  let limited := is_some (rateLimiter (self w)) in
  let gate := if is_some (circuitBreaker (self w)) then [Gate] else [] in
  (forall e, res (run net ensureValidToken w) = Err e ->
     res r = Err e /\ steps (log r) = [Validate]) /\
  (res (run net ensureValidToken w) = Ok tt ->
   exists n,
     (n <= Nat.max 1 (maxAttempts (retryManager (self w))))%nat /\
     (n = 0%nat -> is_some (circuitBreaker (self w)) = true) /\
     steps (log r)
     = Validate :: Admit :: gate ++ flat_map (attemptSteps limited) (seq 1 n) ++ [Release]).
Proof.
  intros r limited gate. subst r.
  unfold makeRequest. cbv zeta. fold (operation endpoint options).
  rewrite run_bind. unfold andThen.
  split.
  { intros e He. rewrite He. cbn [res log]. split; [reflexivity|].
    apply steps_ensureValidToken. }
  intros Hok. rewrite Hok. cbn [log].
  rewrite steps_app, steps_ensureValidToken, requestQueue_add_steps.
  set (w1 := post (run net ensureValidToken w)).
  (* the settings are those of [w], and a token is at hand *)
  assert (Hset : rateLimiter (self w1) = rateLimiter (self w) /\
                 circuitBreaker (self w1) = circuitBreaker (self w) /\
                 retryManager (self w1) = retryManager (self w)).
  { apply (@preserves_ensureValidToken net
             (fun c => rateLimiter c = rateLimiter (self w) /\
                       circuitBreaker c = circuitBreaker (self w) /\
                       retryManager c = retryManager (self w))).
    - intros c t H. exact H.
    - intros c e H. exact H.
    - repeat split. }
  destruct Hset as [Hrl [Hcb Hrm]].
  assert (Htok : is_some (activeToken (self w1)) = true)
    by (apply ensureValidToken_ok_token; exact Hok).
  set (w2 := {| self := occupy 1 (self w1); clock := clock w1; served := served w1 |}).
  assert (Hready : Ready limited (self w2)).
  { split; [exact Htok|]. unfold limited.
    change (rateLimiter (self w2)) with (rateLimiter (self w1)).
    rewrite Hrl. reflexivity. }
  unfold this. cbn [bind run].
  change (circuitBreaker (self w2)) with (circuitBreaker (self w1)).
  unfold gate. rewrite Hcb.
  destruct (circuitBreaker (self w)) as [b|]; cbn [is_some].
  - destruct (circuitBreaker_execute_steps net b
                (executeWithRetry (operation endpoint options)) w2)
      as [Hopen|[b' [Hhalf|Hclosed]]].
    + exists 0%nat. split; [lia|]. split; [reflexivity|].
      rewrite Hopen. reflexivity.
    + assert (Hready' : Ready limited
                (self {| self := set_circuitBreaker (Some b') (self w2);
                         clock := clock w2; served := served w2 |}))
        by exact Hready.
      destruct (@executeWithRetry_steps net endpoint options limited _ Hready')
        as [n [Hn Hs]].
      exists n. cbn [self retryManager set_circuitBreaker] in Hn.
      change (retryManager (self w2)) with (retryManager (self w1)) in Hn.
      rewrite Hrm in Hn.
      split; [lia|]. split; [lia|].
      rewrite Hhalf, Hs. reflexivity.
    + destruct (@executeWithRetry_steps net endpoint options limited _ Hready)
        as [n [Hn Hs]].
      exists n. change (retryManager (self w2)) with (retryManager (self w1)) in Hn.
      rewrite Hrm in Hn.
      split; [lia|]. split; [lia|].
      rewrite Hclosed, Hs. reflexivity.
  - destruct (@executeWithRetry_steps net endpoint options limited _ Hready)
        as [n [Hn Hs]].
    exists n. change (retryManager (self w2)) with (retryManager (self w1)) in Hn.
    rewrite Hrm in Hn.
    split; [lia|]. split; [lia|].
    rewrite Hs. reflexivity.
Qed.

(** * Further properties of the client *)

(** ** Insertion-ordered maps *)

Section MapLaws.
Variable V : Type.

Lemma Map_get_set (k k' : string) (v : V) (m : list (string * V)) :
  Map_get k' (Map_set k v m) = if String.eqb k' k then Some v else Map_get k' m.
Proof.
  induction m as [|[k0 v0] m IH]; cbn.
  - destruct (String.eqb k' k); reflexivity.
  - destruct (String.eqb k k0) eqn:E; cbn.
    + apply String.eqb_eq in E. subst k0.
      destruct (String.eqb k' k); reflexivity.
    + destruct (String.eqb k' k0) eqn:E'.
      * apply String.eqb_eq in E'. subst k0.
        rewrite String.eqb_sym, E. reflexivity.
      * exact IH.
Qed.

Lemma Map_get_delete (k k' : string) (m : list (string * V)) :
  Map_get k' (Map_delete k m) = if String.eqb k' k then None else Map_get k' m.
Proof.
  unfold Map_delete.
  induction m as [|[k0 v0] m IH]; cbn.
  - destruct (String.eqb k' k); reflexivity.
  - destruct (String.eqb k k0) eqn:E; cbn.
    + rewrite IH. apply String.eqb_eq in E. subst k0.
      destruct (String.eqb k' k); reflexivity.
    + rewrite IH.
      destruct (String.eqb k' k0) eqn:E'; [|reflexivity].
      apply String.eqb_eq in E'. subst k0.
      rewrite String.eqb_sym, E. reflexivity.
Qed.

Lemma Map_get_app (k : string) (m1 m2 : list (string * V)) :
  Map_get k (m1 ++ m2) =
  match Map_get k m1 with
  | Some v => Some v
  | None => Map_get k m2
  end.
Proof.
  induction m1 as [|[k0 v0] m1 IH]; cbn; [reflexivity|].
  destruct (String.eqb k k0); [reflexivity|exact IH].
Qed.

Lemma Map_set_keys (k k' : string) (v : V) (m : list (string * V)) :
  In k' (map fst (Map_set k v m)) <-> k' = k \/ In k' (map fst m).
Proof.
  induction m as [|[k0 v0] m IH]; cbn.
  - intuition congruence.
  - destruct (String.eqb k k0) eqn:E; cbn.
    + apply String.eqb_eq in E. subst k0. intuition congruence.
    + rewrite IH. intuition congruence.
Qed.

(** Keys stay distinct, as in a [Map]. *)
Lemma Map_set_NoDup (k : string) (v : V) (m : list (string * V)) :
  NoDup (map fst m) -> NoDup (map fst (Map_set k v m)).
Proof.
  induction m as [|[k0 v0] m IH]; cbn; intros Hnd.
  - constructor; [intros []|constructor].
  - inversion Hnd as [|x l Hnotin Hrest]; subst.
    destruct (String.eqb k k0) eqn:E; cbn.
    + apply String.eqb_eq in E. subst k0. constructor; assumption.
    + constructor; [|apply IH; exact Hrest].
      rewrite Map_set_keys. intros [Heq|Hin]; [|contradiction].
      subst k0. rewrite String.eqb_refl in E. discriminate.
Qed.

Lemma Map_delete_NoDup (k : string) (m : list (string * V)) :
  NoDup (map fst m) -> NoDup (map fst (Map_delete k m)).
Proof.
  unfold Map_delete.
  induction m as [|[k0 v0] m IH]; cbn; intros Hnd; [constructor|].
  inversion Hnd as [|x l Hnotin Hrest]; subst.
  destruct (negb (String.eqb k k0)); cbn; [|apply IH; exact Hrest].
  constructor; [|apply IH; exact Hrest].
  intros Hin. apply Hnotin.
  apply in_map_iff in Hin. destruct Hin as [[k1 v1] [Hk Hin]].
  apply filter_In in Hin. destruct Hin as [Hin _].
  apply in_map_iff. exists (k1, v1). split; assumption.
Qed.

End MapLaws.

(** ** The pagination configuration registry *)

(** X1.  Looking up after [registerEndpoint]: the endpoint registered
    yields the configuration just given, whether or not it had one
    before, and every other endpoint yields what it yielded before; the
    registered endpoint is known afterwards. *)
Theorem registerEndpoint_then_getConfig
    (reg : Registry) (endpoint e : string) (config : PaginationConfig) :
  getConfig e (registerEndpoint endpoint config reg) =
    (if String.eqb e endpoint then config else getConfig e reg) /\
  hasConfig e (registerEndpoint endpoint config reg) =
    (String.eqb e endpoint || hasConfig e reg).
Proof.
  unfold getConfig, hasConfig, registerEndpoint, Map_has.
  rewrite Map_get_set.
  destruct (String.eqb e endpoint); split; reflexivity.
Qed.

(** X2.  [removeConfig] reports whether the endpoint was registered;
    afterwards the endpoint is unknown and falls back to the default
    offset configuration (50 per page, at most 100), other endpoints are
    untouched, and a registration followed by its removal leaves every
    lookup as the removal alone would. *)
Theorem removeConfig_restores_default (reg : Registry) (endpoint : string) :
  fst (removeConfig endpoint reg) = hasConfig endpoint reg /\
  hasConfig endpoint (snd (removeConfig endpoint reg)) = false /\
  getConfig endpoint (snd (removeConfig endpoint reg)) = offsetConfig 50 100 /\
  (forall e, e <> endpoint ->
     getConfig e (snd (removeConfig endpoint reg)) = getConfig e reg /\
     hasConfig e (snd (removeConfig endpoint reg)) = hasConfig e reg) /\
  (forall config e,
     getConfig e (snd (removeConfig endpoint (registerEndpoint endpoint config reg))) =
     getConfig e (snd (removeConfig endpoint reg))).
Proof.
  unfold getConfig, hasConfig, removeConfig, registerEndpoint, Map_has. cbn [fst snd].
  split; [reflexivity|].
  split; [rewrite Map_get_delete, String.eqb_refl; reflexivity|].
  split; [rewrite Map_get_delete, String.eqb_refl; reflexivity|].
  split.
  - intros e Hne. rewrite Map_get_delete.
    apply String.eqb_neq in Hne. rewrite Hne. split; reflexivity.
  - intros config e. rewrite !Map_get_delete, Map_get_set.
    destruct (String.eqb e endpoint); reflexivity.
Qed.

Lemma wellFormed_default : wellFormed (offsetConfig 50 100).
Proof. unfold wellFormed. cbn. repeat split; lia. Qed.

Lemma wellFormed_configs (e : string) : wellFormed (getConfig e configs).
Proof.
  unfold getConfig, configs. cbn [Map_get].
  repeat (match goal with
          | |- context [String.eqb ?a ?b] => destruct (String.eqb a b)
          end;
          [unfold wellFormed; cbn; repeat split; lia|]).
  apply wellFormed_default.
Qed.

Lemma wellFormed_call (c : RegistryCall) (reg : Registry) :
  match registered c with
  | Some config => wellFormed config
  | None => True
  end ->
  (forall e, wellFormed (getConfig e reg)) ->
  forall e, wellFormed (getConfig e (call c reg)).
Proof.
  intros Hc Hreg e. destruct c as [endpoint config|endpoint|]; cbn [call registered] in *.
  - unfold getConfig, registerEndpoint. rewrite Map_get_set.
    destruct (String.eqb e endpoint); [exact Hc|apply Hreg].
  - unfold getConfig, removeConfig. cbn [snd]. rewrite Map_get_delete.
    destruct (String.eqb e endpoint); [apply wellFormed_default|apply Hreg].
  - apply wellFormed_default.
Qed.

(** X3.  Whatever is registered, removed or cleared, starting from the
    built-in table: as long as each configuration handed to
    [registerEndpoint] has usable limits, so has the configuration
    [getConfig] returns for any endpoint name, known or not:
    [0 < default_limit <= max_limit], with the parameter names its
    strategy needs. *)
Theorem getConfig_always_well_formed (calls : list RegistryCall) (e : string) :
  Forall (fun c => match registered c with
                   | Some config => wellFormed config
                   | None => True
                   end) calls ->
  wellFormed (getConfig e (fold_left (fun reg c => call c reg) calls configs)).
Proof.
  intros Hcalls.
  assert (H : forall reg, (forall e, wellFormed (getConfig e reg)) ->
                forall e, wellFormed (getConfig e (fold_left (fun reg c => call c reg) calls reg))).
  { induction Hcalls as [|c calls Hc _ IH]; intros reg Hreg e'; cbn [fold_left].
    - apply Hreg.
    - apply IH. apply wellFormed_call; assumption. }
  apply H. apply wellFormed_configs.
Qed.

Lemma getConfig_always_well_formed_witness :
  wellFormed
    (getConfig "campaigns"
       (fold_left (fun reg c => call c reg)
          [Register "drafts" (offsetConfig 5 10); Remove "campaigns"; Clear] configs)).
Proof.
  apply (@getConfig_always_well_formed
           [Register "drafts" (offsetConfig 5 10); Remove "campaigns"; Clear] "campaigns").
  repeat constructor; cbn; lia.
Defined.

(** ** Headers of an API request *)

Lemma set_header_Map_set (k v : string) (hs : list (string * string)) :
  set_header k v hs = Map_set k v hs.
Proof.
  induction hs as [|[k0 v0] hs IH]; cbn; [reflexivity|].
  rewrite IH. reflexivity.
Qed.

Lemma Map_get_assign_headers (k : string) (extra hs : list (string * string)) :
  Map_get k (assign_headers hs extra) =
  match Map_get k (rev extra) with
  | Some v => Some v
  | None => Map_get k hs
  end.
Proof.
  unfold assign_headers. revert hs.
  induction extra as [|[k0 v0] extra IH]; intros hs; cbn [fold_left rev fst snd].
  - reflexivity.
  - rewrite IH, Map_get_app, set_header_Map_set, Map_get_set.
    destruct (Map_get k (rev extra)); [reflexivity|].
    cbn [Map_get]. destruct (String.eqb k k0); reflexivity.
Qed.

(** X4.  The one request [executeRequest] sends carries, for every
    header name, the value the caller gave last in [options.headers], and
    otherwise the client's own: the bearer token, and JSON for [Accept]
    and [Content-Type].  A caller-supplied [Authorization] therefore
    replaces the bearer token. *)
Theorem executeRequest_headers
    (net : nat -> Reply) (endpoint : Endpoint) (options : RequestInit)
    (w : World) (tok : CakemailToken) :
  activeToken (self w) = Some tok ->
  exists hdrs x,
    log (run net (executeRequest endpoint options) w) =
      [EvFetch (clock w)
         (ApiCall (baseUrl (self w)) endpoint (method options) hdrs (reqBody options)) x] /\
    forall k,
      Map_get k hdrs =
      match Map_get k (rev (headers options)) with
      | Some v => Some v
      | None => Map_get k (defaultHeaders tok)
      end.
Proof.
  intros Htok. rewrite run_executeRequest, Htok. cbv zeta. cbn [log].
  unfold apiRequest. eexists. eexists. split; [reflexivity|].
  intros k. apply Map_get_assign_headers.
Qed.

Lemma executeRequest_headers_witness :
  exists hdrs x,
    log (run deleted
           (executeRequest (plain "/campaigns/7")
              {| method := Some "DELETE";
                 headers := [("Authorization", "Basic abc"); ("X-Trace", "1")];
                 reqBody := None |})
           authedWorld) =
      [EvFetch (clock authedWorld)
         (ApiCall (baseUrl (self authedWorld)) (plain "/campaigns/7") (Some "DELETE")
            hdrs None) x] /\
    forall k,
      Map_get k hdrs =
      match Map_get k (rev [("Authorization", "Basic abc"); ("X-Trace", "1")]) with
      | Some v => Some v
      | None => Map_get k (defaultHeaders staleToken)
      end.
Proof.
  apply (@executeRequest_headers deleted (plain "/campaigns/7")
           {| method := Some "DELETE";
              headers := [("Authorization", "Basic abc"); ("X-Trace", "1")];
              reqBody := None |}
           authedWorld staleToken).
  reflexivity.
Defined.

(** ** The token status *)

(** X5.  The fields of [getTokenStatus] agree with each other: a token
    reported expired is also reported as needing a refresh; with a stored
    expiry, "expired" says that no time is left; without one, "expired"
    says that there is no token. *)
Theorem getTokenStatus_consistent (c : Client) (t : Z) :
  let status := getTokenStatus c t in
  (isExpired status = true -> needsRefresh status = true) /\
  (forall d, timeUntilExpiry status = Some d -> (isExpired status = true <-> d <= 0)) /\
  (expiresAt status = None -> isExpired status = negb (hasToken status)).
Proof.
  unfold getTokenStatus, refreshLead. cbn.
  destruct (tokenExpiry c) as [e|]; cbn.
  - split; [|split].
    + intros Hexp.
      destruct (match token c with
                | Some tok => truthy_string (access_token tok)
                | None => false
                end) eqn:Hhas; cbn.
      * apply Z.geb_le in Hexp. apply Z.geb_le. lia.
      * reflexivity.
    + intros d Hd. injection Hd as <-. rewrite Z.geb_le. lia.
    + discriminate.
  - split; [|split].
    + destruct (match token c with
                | Some tok => truthy_string (access_token tok)
                | None => false
                end); cbn; auto.
    + discriminate.
    + reflexivity.
Qed.

(** ** A credential once stored *)

Section Reuse.
Variable net : nat -> Reply.

Lemma perform_stored (op : CredentialOp) (w : World) (td : CakemailToken) :
  res (run net (perform op) w) = Ok tt ->
  token (self (post (run net (perform op) w))) = Some td ->
  exists w1, post (run net (perform op) w) = stored td w1 /\
             self w1 = self w /\ clock w <= clock w1.
Proof.
  intros Hok Htok.
  destruct (perform_post net op w) as [[td' [_ Hp]]|[e [He _]]]; cbv zeta in *.
  - rewrite Hp in Htok. cbn in Htok. injection Htok as ->.
    exists (tick w (Z.of_N (latency (net (served w))))).
    split; [exact Hp|]. split; [reflexivity|].
    cbn. lia.
  - rewrite Hok in He. discriminate.
Qed.


End Reuse.

(** X6.  A credential just stored by a password acquisition or a refresh
    is used as it is: when its access token is not empty, every
    [ensureValidToken] within its lifetime less the buffer (60 s) and the
    refresh lead (300 s) sends nothing and leaves the client alone. *)
Theorem ensureValidToken_reuses_stored_credential
    (net : nat -> Reply) (op : CredentialOp) (w : World) (td : CakemailToken) (dt : Z) :
  let w1 := post (run net (perform op) w) in
  res (run net (perform op) w) = Ok tt ->
  token (self w1) = Some td ->
  truthy_string (access_token td) = true ->
  0 <= dt < expires_in td * 1000 - expiryBuffer - refreshLead ->
  run net ensureValidToken (pause dt w1) =
  emit (EvStage StEnsureValid) (done tt (pause dt w1)).
Proof.
  intros w1 Hok Htok Htruthy Hdt. subst w1.
  destruct (perform_stored net op w Hok Htok) as [w0 [Hpost _]].
  rewrite Hpost. rewrite run_ensureValidToken. f_equal.
  destruct (is_some (mockToken (self (pause dt (stored td w0))))); [reflexivity|].
  cbv zeta. unfold getTokenStatus, stored, pause, expiryBuffer, refreshLead in *.
  cbn. rewrite Htruthy. cbn.
  replace (clock w0 + Z.max 0 dt >=? clock w0 + expires_in td * 1000 - 60000)
    with false by (symmetry; rewrite Z.geb_leb; apply Z.leb_gt; lia).
  replace (clock w0 + Z.max 0 dt >=? clock w0 + expires_in td * 1000 - 60000 - 300000)
    with false by (symmetry; rewrite Z.geb_leb; apply Z.leb_gt; lia).
  reflexivity.
Qed.

Lemma ensureValidToken_reuses_stored_credential_witness :
  run alwaysGrant ensureValidToken
    (pause 3000000 (post (run alwaysGrant (perform PasswordAcquisition) startWorld))) =
  emit (EvStage StEnsureValid)
    (done tt (pause 3000000 (post (run alwaysGrant (perform PasswordAcquisition) startWorld)))).
Proof.
  apply (@ensureValidToken_reuses_stored_credential alwaysGrant PasswordAcquisition
           startWorld (asCakemailToken tokenJson) 3000000).
  - reflexivity.
  - reflexivity.
  - reflexivity.
  - unfold expiryBuffer, refreshLead. cbn. lia.
Defined.



(** ** Manual refresh *)



(** ** What a method keeps, logs and returns *)

Section Ensures.
Variable net : nat -> Reply.
Variable Inv : Client -> Prop.
Variable P : Event -> Prop.

Lemma ensures_bind {A B : Type} (m : Async A) (f : A -> Async B)
    (Q : A -> Prop) (R : B -> Prop) :
  ensures net Inv P m Q -> (forall a, Q a -> ensures net Inv P (f a) R) ->
  ensures net Inv P (bind m f) R.
Proof.
  intros Hm Hf w Hw. rewrite run_bind. unfold andThen.
  destruct (Hm w Hw) as [I1 [L1 Q1]].
  destruct (res (run net m w)) as [a|e]; cbn [post log res].
  - destruct (Hf a Q1 _ I1) as [I2 [L2 Q2]].
    split; [exact I2|]. split; [|exact Q2].
    apply Forall_app. split; assumption.
  - auto.
Qed.

Lemma ensures_catch {A : Type} (m : Async A) (h : Error -> Async A) (Q : A -> Prop) :
  ensures net Inv P m Q -> (forall e, ensures net Inv P (h e) Q) ->
  ensures net Inv P (catch m h) Q.
Proof.
  intros Hm Hh w Hw. rewrite run_catch. unfold orElse.
  destruct (Hm w Hw) as [I1 [L1 Q1]].
  destruct (res (run net m w)) as [a|e] eqn:E.
  - rewrite E. auto.
  - cbn [post log res].
    destruct (Hh e _ I1) as [I2 [L2 Q2]].
    split; [exact I2|]. split; [|exact Q2].
    apply Forall_app. split; assumption.
Qed.

Lemma ensures_weaken {A : Type} (m : Async A) (Q Q' : A -> Prop) :
  ensures net Inv P m Q -> (forall a, Q a -> Q' a) -> ensures net Inv P m Q'.
Proof.
  intros Hm HQ w Hw. destruct (Hm w Hw) as [I1 [L1 Q1]].
  split; [exact I1|]. split; [exact L1|].
  destruct (res (run net m w)); auto.
Qed.

Lemma ensures_Ret {A : Type} (a : A) (Q : A -> Prop) : Q a -> ensures net Inv P (Ret a) Q.
Proof. intros Ha w Hw. cbn. auto. Qed.

Lemma ensures_Throw {A : Type} (e : Error) (Q : A -> Prop) :
  ensures net Inv P (Throw e) Q.
Proof. intros w Hw. cbn. auto. Qed.

Lemma ensures_lift {A : Type} (r : Result A) (Q : A -> Prop) :
  match r with Ok a => Q a | Err _ => True end -> ensures net Inv P (lift r) Q.
Proof. destruct r; intros H; [apply ensures_Ret; exact H|apply ensures_Throw]. Qed.

Lemma ensures_this : ensures net Inv P this Inv.
Proof. intros w Hw. cbn. auto. Qed.

Lemma ensures_now : ensures net Inv P now anything.
Proof. intros w Hw. cbn. unfold anything. auto. Qed.

Lemma ensures_mark (s : Stage) : P (EvStage s) -> ensures net Inv P (mark s) anything.
Proof. intros Hs w Hw. cbn. unfold anything. auto. Qed.

Lemma ensures_sleep (ms : Z) : P (EvSleep ms) -> ensures net Inv P (sleep ms) anything.
Proof. intros Hs w Hw. cbn. unfold anything. auto. Qed.

Lemma ensures_assign (f : Client -> Client) :
  (forall c, Inv c -> Inv (f c)) -> ensures net Inv P (assign f) anything.
Proof. intros Hf w Hw. cbn. unfold anything. auto. Qed.

Lemma ensures_Fetch (r : Request) (d : option Z) :
  (forall t x, P (EvFetch t r x)) -> ensures net Inv P (Fetch r d settled) anything.
Proof.
  intros Hr w Hw. cbn [run]. unfold emit. cbn [post log res].
  destruct (snd (race d (net (served w)))); cbn; unfold anything; auto.
Qed.

Lemma ensures_reify {A : Type} (m : Async A) (Q : A -> Prop) :
  ensures net Inv P m Q ->
  ensures net Inv P (reify m) (fun r => match r with Ok a => Q a | Err _ => True end).
Proof.
  intros Hm. unfold reify.
  apply ensures_catch; [|intros e; apply ensures_Ret; exact I].
  eapply ensures_bind; [exact Hm|]. intros a Ha. apply ensures_Ret. exact Ha.
Qed.

(** A method known to keep [Inv] and to log only [P]. *)
Lemma ensures_of {A : Type} (m : Async A) :
  preserves net Inv m -> allEvents net P m -> ensures net Inv P m anything.
Proof.
  intros Hp He w Hw. split; [apply Hp; exact Hw|]. split; [apply He|].
  destruct (res (run net m w)); exact I.
Qed.

End Ensures.

(** Follows the structure of a method: the first part of a sequence is
    left as a goal when it is not one of the primitives. *)
Ltac ensures_seq :=
  eapply ensures_bind;
  [ first [ apply ensures_this | apply ensures_now
          | apply ensures_mark | apply ensures_sleep
          | apply ensures_assign | apply ensures_Fetch | idtac ]
  | intros ? ? ].

Section EnsuresPipeline.
Variable net : nat -> Reply.
Variable Inv : Client -> Prop.
Variable P : Event -> Prop.
Hypothesis Inv_rate : forall c r, Inv c -> Inv (set_rateLimiter r c).
Hypothesis Inv_breaker : forall c b, Inv c -> Inv (set_circuitBreaker b c).
Hypothesis Inv_queue : forall c q, Inv c -> Inv (set_requestQueue q c).
Hypothesis P_sleep : forall ms, P (EvSleep ms).
Hypothesis P_stage : forall s, P (EvStage s).

Lemma ensures_rateLimiter_acquire (b : RateBudget) :
  ensures net Inv P (rateLimiter_acquire b) anything.
Proof.
  unfold rateLimiter_acquire.
  ensures_seq; [apply P_stage|].
  eapply ensures_bind; [apply ensures_now|]. intros t _. cbv zeta.
  destruct (1000 <=? refilled b t).
  - apply ensures_assign. intros c Hc. apply Inv_rate, Hc.
  - ensures_seq; [apply P_sleep|].
    ensures_seq.
    apply ensures_assign. intros c Hc. apply Inv_rate, Hc.
Qed.

Lemma ensures_retryLoop {A : Type} (cfg : RetryConfig) (operation : Async A)
    (Q : A -> Prop) (retries attempt : nat) :
  ensures net Inv P operation Q ->
  ensures net Inv P (retryLoop cfg retries attempt operation) Q.
Proof.
  intros Hop. revert attempt.
  induction retries as [|k IH]; intros attempt; cbn [retryLoop].
  - ensures_seq; [apply P_stage|].
    apply ensures_catch; [exact Hop|]. intros e.
    destruct (isRetryable e); apply ensures_Throw.
  - ensures_seq; [apply P_stage|].
    apply ensures_catch; [exact Hop|]. intros e.
    destruct (isRetryable e); [|apply ensures_Throw].
    ensures_seq; [apply P_sleep|].
    apply IH.
Qed.

Lemma ensures_executeWithRetry {A : Type} (operation : Async A) (Q : A -> Prop) :
  ensures net Inv P operation Q ->
  ensures net Inv P (executeWithRetry operation) Q.
Proof.
  intros Hop. unfold executeWithRetry.
  ensures_seq. cbv zeta.
  apply ensures_retryLoop. exact Hop.
Qed.

Lemma ensures_onSuccess : ensures net Inv P onSuccess anything.
Proof.
  apply ensures_assign. intros c Hc.
  destruct (circuitBreaker c); [apply Inv_breaker|]; exact Hc.
Qed.

Lemma ensures_onFailure : ensures net Inv P onFailure anything.
Proof.
  unfold onFailure. ensures_seq.
  apply ensures_assign. intros c Hc.
  destruct (circuitBreaker c) as [b|]; [|exact Hc].
  cbv zeta. destruct (circuit b); try (apply Inv_breaker; exact Hc);
    destruct (consecutiveFailures b + 1 >=? failureThreshold b);
    apply Inv_breaker; exact Hc.
Qed.

Lemma ensures_guarded {A : Type} (operation : Async A) (Q : A -> Prop) :
  ensures net Inv P operation Q -> ensures net Inv P (guarded operation) Q.
Proof.
  intros Hop. unfold guarded.
  eapply ensures_bind; [apply ensures_reify; exact Hop|].
  intros [a|e] Hr.
  - eapply ensures_bind; [apply ensures_onSuccess|].
    intros _ _. apply ensures_Ret. exact Hr.
  - eapply ensures_bind; [apply ensures_onFailure|].
    intros _ _. apply ensures_Throw.
Qed.

Lemma ensures_circuitBreaker_execute {A : Type} (b : Breaker) (operation : Async A)
    (Q : A -> Prop) :
  ensures net Inv P operation Q ->
  ensures net Inv P (circuitBreaker_execute b operation) Q.
Proof.
  intros Hop. unfold circuitBreaker_execute.
  ensures_seq; [apply P_stage|].
  eapply ensures_bind; [apply ensures_now|]. intros t _.
  destruct (circuit b).
  - apply ensures_guarded. exact Hop.
  - destruct (t - openedAt b >=? resetTimeout b); [|apply ensures_Throw].
    ensures_seq; [intros c Hc; apply Inv_breaker, Hc|].
    apply ensures_guarded. exact Hop.
  - apply ensures_Throw.
Qed.

Lemma ensures_requestQueue_add {A : Type} (operation : Async A) (Q : A -> Prop) :
  ensures net Inv P operation Q ->
  ensures net Inv P (requestQueue_add operation) Q.
Proof.
  intros Hop. unfold requestQueue_add, finally.
  ensures_seq; [apply P_stage|].
  ensures_seq; [intros c Hc; apply Inv_queue, Hc|].
  eapply ensures_bind; [apply ensures_reify; exact Hop|].
  intros r Hr.
  eapply ensures_bind.
  { ensures_seq; [intros c Hc; apply Inv_queue, Hc|].
    apply ensures_mark. apply P_stage. }
  intros _ _. apply ensures_lift. exact Hr.
Qed.

(** What [makeRequest] does once the credential is checked. *)
Lemma ensures_pipeline (endpoint : Endpoint) (options : RequestInit)
    (Q : json -> Prop) :
  ensures net Inv P (executeRequest endpoint options) Q ->
  ensures net Inv P
    (requestQueue_add
       (c <- this ;;
        match circuitBreaker c with
        | Some b => circuitBreaker_execute b (executeWithRetry (operation endpoint options))
        | None => executeWithRetry (operation endpoint options)
        end)) Q.
Proof.
  intros Hexec.
  apply ensures_requestQueue_add.
  assert (Hop : ensures net Inv P (operation endpoint options) Q).
  { unfold operation.
    eapply ensures_bind; [apply ensures_this|]. intros c _.
    eapply ensures_bind; [|intros _ _; exact Hexec].
    destruct (rateLimiter c) as [b|].
    - apply ensures_rateLimiter_acquire.
    - apply ensures_Ret. exact I. }
  eapply ensures_bind; [apply ensures_this|]. intros c _.
  destruct (circuitBreaker c) as [b|].
  - apply ensures_circuitBreaker_execute, ensures_executeWithRetry, Hop.
  - apply ensures_executeWithRetry, Hop.
Qed.

(** [makeRequest] keeps, logs and returns what its credential check and
    its network call do. *)
Lemma ensures_makeRequest (endpoint : Endpoint) (options : RequestInit)
    (Q : json -> Prop) :
  ensures net Inv P ensureValidToken anything ->
  ensures net Inv P (executeRequest endpoint options) Q ->
  ensures net Inv P (makeRequest endpoint options) Q.
Proof.
  intros Hvalid Hexec. unfold makeRequest.
  eapply ensures_bind; [exact Hvalid|]. intros _ _. cbv zeta.
  apply ensures_pipeline. exact Hexec.
Qed.

End EnsuresPipeline.

Lemma requests_Forall (R : Request -> Prop) (l : list Event) :
  Forall (fun ev => match ev with EvFetch _ q _ => R q | _ => True end) l ->
  Forall R (requests l).
Proof.
  induction 1 as [|ev l Hev _ IH]; cbn; [constructor|].
  destruct ev; cbn; auto.
Qed.

Section Quiet.
Variable net : nat -> Reply.
Variable Inv : Client -> Prop.

Lemma allEvents_True {A : Type} (m : Async A) : allEvents net (fun _ => True) m.
Proof. intros w. apply Forall_forall. intros; exact I. Qed.

(** [executeRequest] assigns no field of the client. *)
Lemma executeRequest_self (endpoint : Endpoint) (options : RequestInit) (w : World) :
  self (post (run net (executeRequest endpoint options) w)) = self w.
Proof.
  rewrite run_executeRequest. destruct (activeToken (self w)); reflexivity.
Qed.

Hypothesis Inv_token : forall c t, Inv c -> Inv (set_token t c).
Hypothesis Inv_expiry : forall c e, Inv c -> Inv (set_tokenExpiry e c).
Hypothesis Inv_rate : forall c r, Inv c -> Inv (set_rateLimiter r c).
Hypothesis Inv_breaker : forall c b, Inv c -> Inv (set_circuitBreaker b c).
Hypothesis Inv_queue : forall c q, Inv c -> Inv (set_requestQueue q c).

(** [makeRequest] keeps whatever the credential fields, the rate limiter,
    the circuit breaker and the queue have no part in. *)
Lemma preserves_makeRequest (endpoint : Endpoint) (options : RequestInit) :
  preserves net Inv (makeRequest endpoint options).
Proof.
  intros w Hw.
  apply (@ensures_makeRequest net Inv (fun _ => True) Inv_rate Inv_breaker Inv_queue
           (fun _ => I) (fun _ => I) endpoint options anything); [| |exact Hw].
  - apply ensures_of; [|apply allEvents_True].
    apply preserves_ensureValidToken; assumption.
  - intros w' Hw'. rewrite executeRequest_self. split; [exact Hw'|].
    split; [apply allEvents_True|].
    destruct (res _); exact I.
Qed.

End Quiet.

(** ** The mock token *)

(** X9.  Once [setMockToken] has been called, [makeRequest] never
    contacts the token endpoint, whatever the stored credential is: every
    request it sends, in every attempt, is the API request itself with the
    mock token as bearer, and the stored credential is left as it was. *)
Theorem setMockToken_disables_authentication
    (net : nat -> Reply) (tok : CakemailToken) (endpoint : Endpoint)
    (options : RequestInit) (w : World) :
  let r := run net (setMockToken tok ;;; makeRequest endpoint options) w in
  Forall (fun q => q = apiRequest (self w) tok endpoint options) (requests (log r)) /\
  token (self (post r)) = token (self w) /\
  tokenExpiry (self (post r)) = tokenExpiry (self w).
Proof.
  intros r. subst r.
  set (Inv := fun c : Client =>
                mockToken c = Some tok /\ baseUrl c = baseUrl (self w) /\
                token c = token (self w) /\ tokenExpiry c = tokenExpiry (self w)).
  set (P := fun ev : Event =>
              match ev with
              | EvFetch _ q _ => q = apiRequest (self w) tok endpoint options
              | _ => True
              end).
  assert (H : ensures net Inv P (makeRequest endpoint options) anything).
  { apply ensures_makeRequest; try (intros; exact I); try (intros c x Hc; exact Hc).
    - unfold ensureValidToken.
      ensures_seq; [exact I|].
      eapply ensures_bind; [apply ensures_this|]. intros c [Hm _].
      rewrite Hm. apply ensures_Ret. exact I.
    - unfold executeRequest.
      eapply ensures_bind; [apply ensures_this|]. intros c [Hm [Hb _]].
      unfold activeToken. rewrite Hm.
      eapply ensures_bind.
      + apply ensures_catch.
        * apply ensures_Fetch. intros t x. unfold P, apiRequest. rewrite Hb. reflexivity.
        * intros e. destruct e; apply ensures_Throw.
      + intros response _.
        destruct (negb (ok response)); [apply ensures_Throw|].
        destruct (is_json_content response); [|apply ensures_Ret; exact I].
        eapply ensures_bind with (Q := anything).
        * apply ensures_lift. destruct (response_json response); exact I.
        * intros result _. apply ensures_lift.
          destruct (inspected (debugMode c) result); exact I. }
  unfold setMockToken, assign. cbn [bind run].
  destruct (H {| self := set_mockToken (Some tok) (self w);
                 clock := clock w; served := served w |})
    as [[_ [_ [Ht He]]] [Hl _]].
  { repeat split. }
  split; [|split; assumption].
  apply requests_Forall. exact Hl.
Qed.

(** ** The cached account id *)

Section AccountId.
Variable net : nat -> Reply.

Lemma getCurrentAccountId_cached (w : World) :
  truthy_opt_number (currentAccountId (self w)) = true ->
  run net getCurrentAccountId w = done (currentAccountId (self w)) w.
Proof.
  intros Hc. unfold getCurrentAccountId, this. cbn [bind run].
  rewrite Hc. reflexivity.
Qed.

Lemma accountIdOf_nonzero (account : json) (a : Z) :
  accountIdOf account = Some a -> a <> 0.
Proof.
  unfold accountIdOf.
  destruct (field "data" account) as [d|]; [|discriminate].
  destruct (field_number "id" d) as [n|]; [|discriminate].
  destruct (n =? 0) eqn:E; [discriminate|].
  intros H. injection H as <-. apply Z.eqb_neq. exact E.
Qed.

Lemma truthy_opt_number_Some (a : Z) : a <> 0 -> truthy_opt_number (Some a) = true.
Proof. intros H. cbn. apply negb_true_iff, Z.eqb_neq. exact H. Qed.

(** The lookup has answered with something other than [null]: the id
    read off the answer is stored and returned. *)
Lemma run_storeAccountId (account : json) (w : World) :
  account <> JNull ->
  run net
    (match account with
     | JNull => Throw (JsError "Cannot read properties of null (reading 'data')")
     | _ =>
         assign (set_currentAccountId (accountIdOf account)) ;;;
         Ret (accountIdOf account)
     end) w =
  done (accountIdOf account)
    {| self := set_currentAccountId (accountIdOf account) (self w);
       clock := clock w; served := served w |}.
Proof. intros Hne. destruct account; [contradiction|reflexivity..]. Qed.

(** What a call of [getCurrentAccountId] leaves behind. *)
Lemma getCurrentAccountId_outcome (w : World) :
  let r := run net getCurrentAccountId w in
  exists result,
    res r = Ok result /\
    match result with
    | Some a => a <> 0 /\ currentAccountId (self (post r)) = Some a
    | None => truthy_opt_number (currentAccountId (self (post r))) = false
    end.
Proof.
  cbv zeta.
  destruct (truthy_opt_number (currentAccountId (self w))) eqn:Hc.
  - rewrite (getCurrentAccountId_cached w Hc). cbn [done res post].
    exists (currentAccountId (self w)). split; [reflexivity|].
    destruct (currentAccountId (self w)) as [a|]; [|discriminate].
    split; [|reflexivity].
    cbn in Hc. apply negb_true_iff, Z.eqb_neq in Hc. exact Hc.
  - unfold getCurrentAccountId, this. cbn [bind run]. rewrite Hc.
    rewrite run_catch, run_bind. unfold orElse, andThen.
    assert (Hkeep : truthy_opt_number
                      (currentAccountId
                         (self (post (run net (makeRequest (plain "/accounts/self")
                                                 noOptions) w)))) = false).
    { apply (@preserves_makeRequest net
               (fun c => truthy_opt_number (currentAccountId c) = false));
        try (intros c x H; exact H). exact Hc. }
    destruct (res (run net (makeRequest (plain "/accounts/self") noOptions) w))
      as [account|e]; cbn [res post log].
    + assert (Hnull : account = JNull \/ account <> JNull)
        by (destruct account; [left; reflexivity|right; discriminate..]).
      destruct Hnull as [->|Hne].
      * cbn [run res post]. exists None. split; [reflexivity|exact Hkeep].
      * rewrite (run_storeAccountId _ Hne). cbn [done res post self].
        exists (accountIdOf account). split; [reflexivity|].
        destruct (accountIdOf account) as [a|] eqn:E; [|reflexivity].
        split; [exact (accountIdOf_nonzero _ E)|reflexivity].
    + exists None. split; [reflexivity|exact Hkeep].
Qed.

End AccountId.

(** X10.  [getCurrentAccountId] never throws.  An id it returns is not
    zero and is cached: the following calls return it without any
    request, whatever the network would answer.  When it returns none,
    nothing is cached, so the next call asks again. *)
Theorem getCurrentAccountId_caches (net : nat -> Reply) (w : World) :
  let r := run net getCurrentAccountId w in
  exists result,
    res r = Ok result /\
    match result with
    | Some a =>
        a <> 0 /\
        forall net', run net' getCurrentAccountId (post r) = done (Some a) (post r)
    | None => truthy_opt_number (currentAccountId (self (post r))) = false
    end.
Proof.
  cbv zeta. destruct (getCurrentAccountId_outcome net w) as [result [Hr Hm]].
  exists result. split; [exact Hr|].
  destruct result as [a|]; [|exact Hm].
  destruct Hm as [Hnz Hc]. split; [exact Hnz|].
  intros net'. rewrite getCurrentAccountId_cached; rewrite Hc; [reflexivity|].
  apply truthy_opt_number_Some, Hnz.
Qed.

(** ** Validation in [getCampaigns] *)

(** X11.  [getCampaigns] rejects a sort term outside the accepted six
    with a message naming the term, and sends no listing request; the
    account lookup has been made by then, unless an account id was given.
    The sort check comes first: the same error is raised whatever
    [per_page] is. *)
Theorem getCampaigns_rejects_unknown_sort
    (net : nat -> Reply) (p : GetCampaignsParams) (w : World) :
  sortAccepted p = false ->
  let r := run net (getCampaigns (Some p)) w in
  (exists s,
     sort p = Some s /\
     res r = Err (JsError ("Invalid sort term '" ++ s ++
                           "'. Valid terms: name, created_on, scheduled_for, " ++
                           "scheduled_on, updated_on, type"))) /\
  Forall toAccountsSelf (log r) /\
  (truthy_opt_number (account_id p) = true -> log r = []).
Proof.
  intros Hsort r. subst r. unfold getCampaigns.
  unfold sortAccepted in Hsort. apply negb_false_iff in Hsort. rewrite Hsort.
  assert (Hs : exists s, sort p = Some s).
  { destruct (sort p) as [s|]; [eauto|]. cbn in Hsort. discriminate. }
  destruct Hs as [s Hs].
  rewrite run_bind. unfold andThen.
  destruct (truthy_opt_number (account_id p)) eqn:Hacc.
  - cbn [run res post log]. split; [|split; auto].
    exists s. split; [exact Hs|]. rewrite Hs. reflexivity.
  - destruct (getCurrentAccountId_resolves net w) as [a Ha]. rewrite Ha.
    cbn [run res post log]. rewrite app_nil_r.
    split; [|split; [apply allEvents_getCurrentAccountId|discriminate]].
    exists s. split; [exact Hs|]. rewrite Hs. reflexivity.
Qed.

Lemma getCampaigns_rejects_unknown_sort_witness :
  (exists s,
     Some "subject" = Some s /\
     res (run accountThenCampaigns
            (getCampaigns
               (Some {| sort := Some "subject"; order := None; filter_status := None;
                        filter_name := None; filter_type := None;
                        filter_list_id := None; page := None; per_page := Some 500;
                        with_count := None; account_id := None |}))
            authedWorld) =
     Err (JsError ("Invalid sort term '" ++ s ++
                   "'. Valid terms: name, created_on, scheduled_for, " ++
                   "scheduled_on, updated_on, type"))) /\
  Forall toAccountsSelf
    (log (run accountThenCampaigns
            (getCampaigns
               (Some {| sort := Some "subject"; order := None; filter_status := None;
                        filter_name := None; filter_type := None;
                        filter_list_id := None; page := None; per_page := Some 500;
                        with_count := None; account_id := None |}))
            authedWorld)) /\
  (truthy_opt_number None = true ->
   log (run accountThenCampaigns
          (getCampaigns
             (Some {| sort := Some "subject"; order := None; filter_status := None;
                      filter_name := None; filter_type := None;
                      filter_list_id := None; page := None; per_page := Some 500;
                      with_count := None; account_id := None |}))
          authedWorld) = []).
Proof.
  apply (@getCampaigns_rejects_unknown_sort accountThenCampaigns
           {| sort := Some "subject"; order := None; filter_status := None;
              filter_name := None; filter_type := None;
              filter_list_id := None; page := None; per_page := Some 500;
              with_count := None; account_id := None |}
           authedWorld).
  reflexivity.
Defined.

(** ** Error bodies *)

(** X12.  [parseErrorResponse] returns the parsed body whenever the body
    can be read and is JSON, whatever content type the response declares.
    In every other case it returns an object with the single field
    [detail]: the body text, when the response is not declared as JSON and
    that text is not empty; the status text when the text is empty, when
    the response is declared as JSON, and when the body cannot be read. *)
Theorem parseErrorResponse_result (response : Response) :
  (forall text j, body response = Some text -> parsed response = Some j ->
     parseErrorResponse response = j) /\
  (forall text,
     is_json_content response = false ->
     body response = Some text -> parsed response = None -> text <> "" ->
     parseErrorResponse response = JObj [("detail", JStr text)]) /\
  (is_json_content response = false ->
   body response = Some "" -> parsed response = None ->
   parseErrorResponse response = JObj [("detail", JStr (statusText response))]) /\
  (is_json_content response = true -> parsed response = None ->
   parseErrorResponse response = JObj [("detail", JStr (statusText response))]) /\
  (body response = None ->
   parseErrorResponse response = JObj [("detail", JStr (statusText response))]).
Proof.
  unfold parseErrorResponse, response_json, response_text.
  split; [|split; [|split; [|split]]].
  - intros text j -> ->. destruct (is_json_content response); reflexivity.
  - intros text -> -> -> Hne. destruct text; [contradiction|reflexivity].
  - intros -> -> ->. reflexivity.
  - intros -> ->. destruct (body response); reflexivity.
  - intros ->. destruct (is_json_content response); reflexivity.
Qed.

(** ** The latest campaign *)

Section Latest.
Variable net : nat -> Reply.
Variable status : option string.

Lemma run_catch_Ret {A : Type} (m : Async A) (h : Error -> A) (w : World) :
  exists a, res (run net (catch m (fun e => Ret (h e))) w) = Ok a.
Proof.
  rewrite run_catch. unfold orElse.
  destruct (res (run net m w)) as [a|e] eqn:E; cbn [res run]; eauto.
Qed.

Lemma getCampaigns_latest (account : option Z) :
  getCampaigns (Some (latestParams status account)) =
  (accountId <- (if truthy_opt_number account then Ret account else getCurrentAccountId) ;;
   makeRequest {| path := "/campaigns";
                  query := listingQuery (latestParams status None) accountId |}
     noOptions).
Proof. reflexivity. Qed.

Lemma afterLookup_resolves (accountId : option Z) (w : World) :
  exists campaign, res (run net (afterLookup status accountId) w) = Ok campaign.
Proof.
  unfold afterLookup. cbv zeta. rewrite run_bind. unfold andThen.
  destruct (run_catch_Ret
              (found <- latestOf (latestParams status
                                    (if truthy_opt_number accountId then accountId else None)) ;;
               Ret (if truthy_opt_number accountId then accountId else None, found))
              (fun _ => (if truthy_opt_number accountId then accountId else None, None)) w)
    as [tried Ht].
  rewrite Ht. cbn [res].
  destruct (snd tried) as [campaign|]; [cbn; eauto|].
  destruct (truthy_opt_number (fst tried)); [|cbn; eauto].
  rewrite run_bind. unfold andThen.
  destruct (run_catch_Ret (latestOf (latestParams status None)) (fun _ => None)
              (post (run net
                 (catch
                    (found <- latestOf (latestParams status
                                 (if truthy_opt_number accountId then accountId else None)) ;;
                     Ret (if truthy_opt_number accountId then accountId else None, found))
                    (fun _ => Ret (if truthy_opt_number accountId then accountId else None,
                                   None))) w)))
    as [found Hf].
  rewrite Hf. cbn [res].
  destruct found; cbn; eauto.
Qed.

Lemma run_bind_assoc {A B C : Type} (g : Async A) (F : A -> Async B)
    (K : B -> Async C) (w : World) :
  run net (bind (bind g F) K) w = run net (bind g (fun a => bind (F a) K)) w.
Proof.
  rewrite (run_bind net (bind g F)), (run_bind net g F),
    (run_bind net g (fun a => bind (F a) K)).
  unfold andThen. destruct (res (run net g w)) as [a|e]; cbn [res post log].
  - rewrite run_bind. unfold andThen.
    destruct (res (run net (F a) (post (run net g w)))); cbn [res post log];
      [rewrite app_assoc|]; reflexivity.
  - reflexivity.
Qed.

Lemma run_catch_Ok {A : Type} (m : Async A) (h : Error -> Async A) (w : World) (a : A) :
  res (run net m w) = Ok a -> run net (catch m h) w = run net m w.
Proof. intros H. rewrite run_catch. unfold orElse. rewrite H. reflexivity. Qed.

(** [getLatestCampaign] is the account lookup followed by the rest. *)
Lemma run_getLatestCampaign (w : World) :
  run net (getLatestCampaign status) w =
  run net (accountId <- getCurrentAccountId ;; afterLookup status accountId) w.
Proof.
  unfold afterLookup. rewrite <- run_bind_assoc.
  unfold getLatestCampaign.
  rewrite (run_bind net (catch _ _)), (run_bind net (bind getCurrentAccountId _)).
  f_equal.
  destruct (getCurrentAccountId_resolves net w) as [accountId H0].
  assert (Hok : exists tried,
            res (run net
                   (accountId <- getCurrentAccountId ;;
                    let account := if truthy_opt_number accountId then accountId else None in
                    catch
                      (found <- latestOf (latestParams status account) ;;
                       Ret (account, found))
                      (fun _ => Ret (account, None))) w) = Ok tried).
  { rewrite run_bind. unfold andThen. rewrite H0. cbn [res]. cbv zeta.
    apply (run_catch_Ret
             (found <- latestOf (latestParams status
                          (if truthy_opt_number accountId then accountId else None)) ;;
              Ret (if truthy_opt_number accountId then accountId else None, found))
             (fun _ => (if truthy_opt_number accountId then accountId else None, None))). }
  destruct Hok as [tried Ht].
  apply (@run_catch_Ok _ _ _ _ _ Ht).
Qed.

End Latest.

Lemma lookupOrListing_lookup (q : list (string * QueryValue)) (ev : Event) :
  toAccountsSelf ev -> lookupOrListing q ev.
Proof.
  destruct ev as [t r x|ms|s]; cbn; auto.
  destruct r; auto.
Qed.

Section LatestListing.
Variable net : nat -> Reply.
Variable status : option string.

(** The listing request logs the account lookup or itself. *)
Lemma allEvents_listing (q : list (string * QueryValue)) :
  allEvents net (lookupOrListing q)
    (makeRequest {| path := "/campaigns"; query := q |} noOptions).
Proof.
  apply allEvents_makeRequest; intros; try exact I.
  - destruct r; [exact I|exact I|discriminate].
  - right. reflexivity.
Qed.

(** With the account id [a] cached, every listing [getLatestCampaign]
    asks for has the query of [a]. *)
Section Known.
Variable a : Z.
Hypothesis a_nonzero : a <> 0.

Lemma ensures_getCampaigns_known (account : option Z) :
  account = None \/ account = Some a ->
  ensures net (accountCached a)
    (lookupOrListing (listingQuery (latestParams status None) (Some a)))
    (getCampaigns (Some (latestParams status account))) anything.
Proof.
  intros Hacc. rewrite getCampaigns_latest.
  eapply ensures_bind with (Q := fun r => r = Some a).
  - destruct Hacc as [->| ->].
    + cbn [truthy_opt_number]. unfold getCurrentAccountId.
      eapply ensures_bind; [apply ensures_this|]. intros c Hc.
      unfold accountCached in Hc. rewrite Hc, (truthy_opt_number_Some a_nonzero).
      apply ensures_Ret. reflexivity.
    + rewrite (truthy_opt_number_Some a_nonzero). apply ensures_Ret. reflexivity.
  - intros r ->. apply ensures_of.
    + apply preserves_makeRequest; intros c x H; exact H.
    + apply allEvents_listing.
Qed.

Lemma ensures_latestOf_known (account : option Z) :
  account = None \/ account = Some a ->
  ensures net (accountCached a)
    (lookupOrListing (listingQuery (latestParams status None) (Some a)))
    (latestOf (latestParams status account)) anything.
Proof.
  intros Hacc. unfold latestOf.
  eapply ensures_bind; [apply ensures_getCampaigns_known; exact Hacc|].
  intros result _.
  eapply ensures_bind; [apply ensures_this|]. intros c _.
  apply ensures_lift. destruct (firstOf (debugMode c) result); exact I.
Qed.

Lemma ensures_afterLookup_known :
  ensures net (accountCached a)
    (lookupOrListing (listingQuery (latestParams status None) (Some a)))
    (afterLookup status (Some a)) anything.
Proof.
  unfold afterLookup. rewrite (truthy_opt_number_Some a_nonzero). cbv zeta.
  eapply ensures_bind with (Q := anything).
  - apply ensures_catch.
    + eapply ensures_bind; [apply ensures_latestOf_known; right; reflexivity|].
      intros found _. apply ensures_Ret. exact I.
    + intros e. apply ensures_Ret. exact I.
  - intros tried _.
    destruct (snd tried); [apply ensures_Ret; exact I|].
    destruct (truthy_opt_number (fst tried)); [|apply ensures_Ret; exact I].
    eapply ensures_bind with (Q := anything).
    + apply ensures_catch; [apply ensures_latestOf_known; left; reflexivity|].
      intros e. apply ensures_Ret. exact I.
    + intros found _. destruct found; apply ensures_Ret; exact I.
Qed.

End Known.

(** Without an account id, there is one listing and no second try. *)
Lemma afterLookup_unknown (w : World) :
  exists q, Forall (lookupOrListing q) (log (run net (afterLookup status None) w)).
Proof.
  unfold afterLookup. cbn [truthy_opt_number]. cbv zeta.
  destruct (getCurrentAccountId_resolves net w) as [accountId H0].
  exists (listingQuery (latestParams status None) accountId).
  set (q := listingQuery (latestParams status None) accountId).
  assert (Hlist : Forall (lookupOrListing q)
                    (log (run net (getCampaigns (Some (latestParams status None))) w))).
  { rewrite getCampaigns_latest. cbn [truthy_opt_number].
    rewrite run_bind. unfold andThen. rewrite H0. cbn [log].
    apply Forall_app. split.
    - eapply Forall_impl; [|apply allEvents_getCurrentAccountId].
      intros ev. apply lookupOrListing_lookup.
    - apply allEvents_listing. }
  rewrite run_bind, run_catch, run_bind. unfold latestOf. rewrite run_bind.
  set (r := run net (getCampaigns (Some (latestParams status None))) w) in *.
  unfold andThen at 3.
  destruct (res r) as [result|e] eqn:Hr.
  - unfold this; cbn [bind run].
    destruct (firstOf _ result) as [found|e]; cbn [lift run res post log];
      unfold andThen, orElse; cbn [res post log run truthy_opt_number fst snd].
    + destruct found; cbn [run log]; rewrite !app_nil_r; exact Hlist.
    + rewrite !app_nil_r. exact Hlist.
  - unfold andThen, orElse; cbn [res post log run truthy_opt_number fst snd].
    rewrite !app_nil_r. exact Hlist.
Qed.

End LatestListing.

(** X13.  [getLatestCampaign] never throws, and every listing request it
    sends, in the first try and in the "fallback without account scoping"
    alike, has one and the same query: the fallback finds the account id
    cached and scopes its request again. *)
Theorem getLatestCampaign_one_query
    (net : nat -> Reply) (status : option string) (w : World) :
  let r := run net (getLatestCampaign status) w in
  (exists campaign, res r = Ok campaign) /\
  exists q, Forall (lookupOrListing q) (log r).
Proof.
  cbv zeta. rewrite run_getLatestCampaign, run_bind. unfold andThen.
  destruct (getCurrentAccountId_outcome net w) as [accountId [H0 Hout]].
  cbv zeta in H0. rewrite H0. cbn [res log].
  split; [apply afterLookup_resolves|].
  destruct accountId as [a|].
  - destruct Hout as [Hnz Hcached].
    exists (listingQuery (latestParams status None) (Some a)).
    apply Forall_app. split.
    + eapply Forall_impl; [|apply allEvents_getCurrentAccountId].
      intros ev. apply lookupOrListing_lookup.
    + apply (@ensures_afterLookup_known net status a Hnz _ Hcached).
  - destruct (afterLookup_unknown net status
                (post (run net getCurrentAccountId w))) as [q Hq].
    exists q. apply Forall_app. split; [|exact Hq].
    eapply Forall_impl; [|apply allEvents_getCurrentAccountId].
    intros ev. apply lookupOrListing_lookup.
Qed.

(** ** Regular expressions *)

Lemma nullable_lang (r : Regex) : nullable r = true <-> lang r "".
Proof.
  induction r as [| |accepts|r1 IH1 r2 IH2|r1 IH1 r2 IH2|r1 IH1]; cbn [nullable lang].
  - split; [discriminate|intros []].
  - split; reflexivity.
  - split; [discriminate|intros [c [H _]]; discriminate].
  - rewrite andb_true_iff, IH1, IH2. split.
    + intros [H1 H2]. exists "", "". auto.
    + intros [s1 [s2 [H [H1 H2]]]].
      destruct s1; [|discriminate]. cbn in H. subst s2. auto.
  - rewrite orb_true_iff, IH1, IH2. reflexivity.
  - split; [constructor|reflexivity].
Qed.

Lemma derivative_lang (r : Regex) (c : Ascii.ascii) (s : string) :
  lang (derivative c r) s <-> lang r (String c s).
Proof.
  revert s.
  induction r as [| |accepts|r1 IH1 r2 IH2|r1 IH1 r2 IH2|r1 IH1]; intros s;
    cbn [derivative].
  - reflexivity.
  - cbn. split; [intros []|discriminate].
  - destruct (accepts c) eqn:E; cbn [lang].
    + split.
      * intros ->. exists c. auto.
      * intros [c' [H _]]. injection H as _ H. exact H.
    + split; [intros []|].
      intros [c' [H Hc]]. injection H as -> _. congruence.
  - assert (Hleft : (exists s1 s2, s = (s1 ++ s2)%string /\
                       lang (derivative c r1) s1 /\ lang r2 s2) ->
                    lang (Seq r1 r2) (String c s)).
    { intros [s1 [s2 [-> [H1 H2]]]]. exists (String c s1), s2.
      split; [reflexivity|]. split; [apply IH1; exact H1|exact H2]. }
    destruct (nullable r1) eqn:N; cbn [lang] in *.
    + split.
      * intros [H|H]; [apply Hleft; exact H|].
        exists "", (String c s). split; [reflexivity|].
        split; [apply nullable_lang; exact N|apply IH2; exact H].
      * intros [s1 [s2 [H [H1 H2]]]]. destruct s1 as [|c' s1].
        -- right. cbn in H. subst s2. apply IH2. exact H2.
        -- left. injection H as <- ->. exists s1, s2.
           split; [reflexivity|]. split; [apply IH1; exact H1|exact H2].
    + split; [exact Hleft|].
      intros [s1 [s2 [H [H1 H2]]]]. destruct s1 as [|c' s1].
      * apply nullable_lang in H1. congruence.
      * injection H as <- ->. exists s1, s2.
        split; [reflexivity|]. split; [apply IH1; exact H1|exact H2].
  - cbn [lang]. rewrite IH1, IH2. reflexivity.
  - cbn [lang]. split.
    + intros [s1 [s2 [-> [H1 H2]]]].
      change (String c (s1 ++ s2)) with (String c s1 ++ s2)%string.
      constructor; [discriminate|apply IH1; exact H1|exact H2].
    + intros H. inversion H as [|s1 s2 Hne H1 H2 Heq].
      destruct s1 as [|c' s1]; [contradiction|].
      injection Heq as -> <-. exists s1, s2.
      split; [reflexivity|]. split; [apply IH1; exact H1|exact H2].
Qed.

(** [test] decides membership in the language. *)
Lemma test_lang (r : Regex) (s : string) : test r s = true <-> lang r s.
Proof.
  revert r. induction s as [|c s IH]; intros r; cbn [test].
  - apply nullable_lang.
  - rewrite IH. apply derivative_lang.
Qed.

Lemma star_class (p : Ascii.ascii -> bool) (s : string) :
  star (lang (Class p)) s <-> all_chars p s = true.
Proof.
  split.
  - induction 1 as [|s1 s2 _ [c [-> Hc]] _ IH]; [reflexivity|].
    cbn. rewrite Hc, IH. reflexivity.
  - induction s as [|c s IH]; cbn [all_chars]; intros H; [constructor|].
    apply andb_true_iff in H. destruct H as [Hc Hs].
    change (String c s) with (String c "" ++ s)%string.
    constructor; [discriminate|exists c; auto|apply IH; exact Hs].
Qed.

Lemma plus_class (p : Ascii.ascii -> bool) (s : string) :
  lang (Plus (Class p)) s <-> s <> "" /\ all_chars p s = true.
Proof.
  unfold Plus. cbn [lang]. split.
  - intros [s1 [s2 [-> [[c [-> Hc]] Hs]]]]. split; [discriminate|].
    cbn. rewrite Hc. apply star_class. exact Hs.
  - intros [Hne Hall]. destruct s as [|c s]; [contradiction|].
    cbn in Hall. apply andb_true_iff in Hall. destruct Hall as [Hc Hs].
    exists (String c ""), s. split; [reflexivity|].
    split; [exists c; auto|apply star_class; exact Hs].
Qed.

(** X14.  [isValidEmail] accepts exactly the strings of the form
    [local@domain.tail] whose three parts are not empty and contain
    neither white space nor [@]: one [@], with a dot after it that is
    neither the first nor the last character of what follows the [@]. *)
Theorem isValidEmail_shape (email : string) :
  isValidEmail email = true <->
  exists l d t,
    email = (l ++ "@" ++ d ++ "." ++ t)%string /\
    addressPart l /\ addressPart d /\ addressPart t.
Proof.
  unfold isValidEmail, addressPart. rewrite test_lang. unfold emailRegex. split.
  - intros [l [s2 [-> [Hl R1]]]].
    destruct R1 as [s3 [s4 [-> [[c [-> Hc]] R2]]]].
    destruct R2 as [d [s5 [-> [Hd R3]]]].
    destruct R3 as [s6 [t [-> [[c' [-> Hc']] Ht]]]].
    apply plus_class in Hl, Hd, Ht.
    apply Ascii.eqb_eq in Hc, Hc'. subst c c'.
    exists l, d, t. split; [reflexivity|]. auto.
  - intros [l [d [t [-> [Hl [Hd Ht]]]]]].
    apply plus_class in Hl, Hd, Ht.
    exists l, ("@" ++ d ++ "." ++ t)%string. split; [reflexivity|].
    split; [exact Hl|].
    exists "@"%string, (d ++ "." ++ t)%string. split; [reflexivity|].
    split; [eexists; split; [reflexivity|reflexivity]|].
    exists d, ("." ++ t)%string. split; [reflexivity|].
    split; [exact Hd|].
    exists "."%string, t. split; [reflexivity|].
    split; [eexists; split; [reflexivity|reflexivity]|exact Ht].
Qed.

(** ** Senders *)

Lemma find__found (predicate : json -> Result bool) (xs : list json) (s : json) :
  find_ predicate xs = Ok (Some s) ->
  exists before rest,
    xs = before ++ s :: rest /\ predicate s = Ok true /\
    Forall (fun x => predicate x = Ok false) before.
Proof.
  induction xs as [|x xs IH]; cbn [find_]; [discriminate|].
  destruct (predicate x) as [[|]|e] eqn:E; [| |discriminate].
  - intros H. injection H as <-. exists [], xs. auto.
  - intros H. destruct (IH H) as [before [rest [-> [Hs Hb]]]].
    exists (x :: before), rest. auto.
Qed.

Lemma find__none (predicate : json -> Result bool) (xs : list json) :
  find_ predicate xs = Ok None -> Forall (fun x => predicate x = Ok false) xs.
Proof.
  induction xs as [|x xs IH]; cbn [find_]; [constructor|].
  destruct (predicate x) as [[|]|e] eqn:E; [discriminate| |discriminate].
  intros H. constructor; [exact E|apply IH; exact H].
Qed.

Lemma hasEmail_true (email : string) (s : json) :
  hasEmail email s = Ok true ->
  field_string "email" s = Some email /\ truthy s = true.
Proof.
  unfold hasEmail, field_string, field.
  destruct s as [|b|n|str|xs|fields]; try discriminate;
    try (intros H; injection H as H; discriminate).
  destruct (lookup_field "email" fields) as [[|b|n|e|xs|fs]|];
    intros H; injection H as H; try discriminate.
  apply String.eqb_eq in H. subst e. auto.
Qed.

Lemma hasEmail_false (email : string) (s : json) :
  hasEmail email s = Ok false -> field_string "email" s <> Some email.
Proof.
  unfold hasEmail. destruct s; try discriminate;
    intros H; injection H as H;
    destruct (field_string "email" _) as [e|]; try discriminate;
    intros Heq; injection Heq as ->; rewrite String.eqb_refl in H; discriminate.
Qed.

(** What [findSenderByEmail] makes of a listing. *)
Lemma senderWithEmail_result (email : string) (response sender : json) :
  senderWithEmail email response = Ok sender ->
  (sender = JNull /\
   forall xs, field "data" response = Some (JArr xs) ->
     Forall (fun s => field_string "email" s <> Some email) xs) \/
  (truthy sender = true /\ field_string "email" sender = Some email /\
   exists before rest,
     field "data" response = Some (JArr (before ++ sender :: rest)) /\
     Forall (fun s => field_string "email" s <> Some email) before).
Proof.
  unfold senderWithEmail, dataOf.
  assert (Hdata : forall data : option json,
            match data with
            | None => Ok JNull
            | Some JNull => Ok JNull
            | Some (JArr xs) =>
                match find_ (hasEmail email) xs with
                | Ok (Some sender) => Ok sender
                | Ok None => Ok JNull
                | Err e => Err e
                end
            | Some _ => Err (JsError "response.data?.find is not a function")
            end = Ok sender ->
            (sender = JNull /\
             forall xs, data = Some (JArr xs) ->
               Forall (fun s => field_string "email" s <> Some email) xs) \/
            (truthy sender = true /\ field_string "email" sender = Some email /\
             exists before rest,
               data = Some (JArr (before ++ sender :: rest)) /\
               Forall (fun s => field_string "email" s <> Some email) before)).
  { intros [[|b|n|str|xs|fields]|]; try discriminate;
      try (intros H; injection H as <-; left; split; [reflexivity|]; discriminate).
    destruct (find_ (hasEmail email) xs) as [[found|]|e] eqn:F; [| |discriminate].
    - intros H. injection H as <-.
      destruct (find__found _ _ F) as [before [rest [-> [Hs Hb]]]].
      apply hasEmail_true in Hs. destruct Hs as [He Ht].
      right. split; [exact Ht|]. split; [exact He|].
      exists before, rest. split; [reflexivity|].
      eapply Forall_impl; [|exact Hb]. intros s. apply hasEmail_false.
    - intros H. injection H as <-. left. split; [reflexivity|].
      intros ys Hys. injection Hys as <-.
      eapply Forall_impl; [|exact (find__none _ _ F)]. intros s. apply hasEmail_false. }
  destruct response; try discriminate; apply Hdata.
Qed.

Section SenderRequests.
Variable net : nat -> Reply.

Lemma allEvents_getCurrentAccountId_get : allEvents net isGet getCurrentAccountId.
Proof.
  unfold getCurrentAccountId.
  apply allEvents_bind; [apply allEvents_this|]. intros c.
  destruct (truthy_opt_number (currentAccountId c)); [apply allEvents_Ret|].
  apply allEvents_catch; [|intros e; apply allEvents_Ret].
  apply allEvents_bind.
  - apply allEvents_makeRequest; intros; try exact I.
    + destruct r; [exact I|exact I|discriminate].
    + reflexivity.
  - intros account. destruct account; repeat events_step.
Qed.

Lemma allEvents_getSenders : allEvents net isGet getSenders.
Proof.
  unfold getSenders.
  apply allEvents_bind; [apply allEvents_getCurrentAccountId_get|]. intros accountId.
  apply allEvents_makeRequest; intros; try exact I.
  - destruct r; [exact I|exact I|discriminate].
  - reflexivity.
Qed.

Lemma run_findSenderByEmail (email : string) (w : World) :
  run net (findSenderByEmail email) w =
  let listing := run net getSenders w in
  {| post := post listing; log := log listing;
     res := match res listing with
            | Ok response => senderWithEmail email response
            | Err e => Err e
            end |}.
Proof.
  unfold findSenderByEmail. rewrite run_bind. unfold andThen. cbv zeta.
  destruct (res (run net getSenders w)) as [response|e]; [|reflexivity].
  destruct (senderWithEmail email response); cbn [lift run post log res];
    rewrite app_nil_r; reflexivity.
Qed.

End SenderRequests.

(** X15.  [findSenderByEmail] sends the listing request and nothing
    else.  A sender it returns is the first entry of the listing whose
    [email] is the address asked for; it returns [null] only when no
    entry of the listing has that address. *)
Theorem findSenderByEmail_first_match
    (net : nat -> Reply) (email : string) (w : World) (sender : json) :
  res (run net (findSenderByEmail email) w) = Ok sender ->
  log (run net (findSenderByEmail email) w) = log (run net getSenders w) /\
  exists response,
    res (run net getSenders w) = Ok response /\
    match sender with
    | JNull =>
        forall xs, field "data" response = Some (JArr xs) ->
          Forall (fun s => field_string "email" s <> Some email) xs
    | _ =>
        field_string "email" sender = Some email /\
        exists before rest,
          field "data" response = Some (JArr (before ++ sender :: rest)) /\
          Forall (fun s => field_string "email" s <> Some email) before
    end.
Proof.
  rewrite run_findSenderByEmail. cbv zeta. cbn [res log].
  destruct (res (run net getSenders w)) as [response|e]; [|discriminate].
  intros H. split; [reflexivity|]. exists response. split; [reflexivity|].
  destruct (senderWithEmail_result _ _ H) as [[-> Hnone]|[Ht [He Hfound]]].
  - exact Hnone.
  - destruct sender; try (split; assumption). discriminate.
Qed.

Lemma findSenderByEmail_first_match_witness :
  log (run accountThenSenders (findSenderByEmail "team@example.com") authedWorld) =
    log (run accountThenSenders getSenders authedWorld) /\
  exists response,
    res (run accountThenSenders getSenders authedWorld) = Ok response /\
    (field_string "email" (senderJson 2 "team@example.com" true) =
       Some "team@example.com" /\
     exists before rest,
       field "data" response =
         Some (JArr (before ++ senderJson 2 "team@example.com" true :: rest)) /\
       Forall (fun s => field_string "email" s <> Some "team@example.com") before).
Proof.
  apply (@findSenderByEmail_first_match accountThenSenders "team@example.com"
           authedWorld (senderJson 2 "team@example.com" true)).
  reflexivity.
Defined.

(** X16.  [ensureSenderExists] creates nothing when the listing already
    has a sender with the address: it returns that sender, and the
    listing request is all it sends, so every request is a [GET]. *)
Theorem ensureSenderExists_reuses_sender
    (stringify : json -> string) (net : nat -> Reply)
    (email name : string) (language : option string) (w : World) (existing : json) :
  res (run net (findSenderByEmail email) w) = Ok existing ->
  existing <> JNull ->
  let r := run net (ensureSenderExists stringify email name language) w in
  res r = Ok (Some existing) /\
  log r = log (run net getSenders w) /\
  Forall isGet (log r).
Proof.
  intros Hfind Hnot r. subst r.
  assert (Htruthy : truthy existing = true).
  { rewrite run_findSenderByEmail in Hfind. cbv zeta in Hfind. cbn [res] in Hfind.
    destruct (res (run net getSenders w)) as [response|e]; [|discriminate].
    destruct (senderWithEmail_result _ _ Hfind) as [[-> _]|[Ht _]];
      [contradiction|exact Ht]. }
  unfold ensureSenderExists. rewrite run_bind. unfold andThen.
  rewrite Hfind, Htruthy. cbn [run post log res]. rewrite app_nil_r.
  split; [reflexivity|].
  rewrite run_findSenderByEmail. cbv zeta. cbn [log].
  split; [reflexivity|apply allEvents_getSenders].
Qed.

Lemma ensureSenderExists_reuses_sender_witness :
  res (run accountThenSenders
         (ensureSenderExists (fun _ => "") "team@example.com" "Team" None)
         authedWorld) = Ok (Some (senderJson 2 "team@example.com" true)) /\
  log (run accountThenSenders
         (ensureSenderExists (fun _ => "") "team@example.com" "Team" None)
         authedWorld) = log (run accountThenSenders getSenders authedWorld) /\
  Forall isGet
    (log (run accountThenSenders
            (ensureSenderExists (fun _ => "") "team@example.com" "Team" None)
            authedWorld)).
Proof.
  apply (@ensureSenderExists_reuses_sender (fun _ => "") accountThenSenders
           "team@example.com" "Team" None authedWorld
           (senderJson 2 "team@example.com" true)).
  - reflexivity.
  - discriminate.
Defined.

(** X17.  [createSender] and [updateSender] check the address before
    anything else: an address [isValidEmail] rejects makes them throw
    "Invalid email format" with no request sent and the client untouched.
    For [updateSender] this holds for an address that is given and not
    empty; and [ensureSenderExists] asked for an unknown sender with such
    an address fails in the same way after the listing, without a
    [POST]. *)
Theorem sender_address_checked_first
    (stringify : json -> string) (net : nat -> Reply) (w : World) (address : string) :
  isValidEmail address = false ->
  (forall name language,
     run net (createSender stringify
                {| CreateSenderData.name := name; CreateSenderData.email := address;
                   CreateSenderData.language := language |}) w =
     failed (JsError "Invalid email format") w) /\
  (forall senderId name language,
     address <> "" ->
     run net (updateSender stringify senderId
                {| UpdateSenderData.name := name;
                   UpdateSenderData.email := Some address;
                   UpdateSenderData.language := language |}) w =
     failed (JsError "Invalid email format") w) /\
  (forall name language,
     res (run net (findSenderByEmail address) w) = Ok JNull ->
     res (run net (ensureSenderExists stringify address name language) w) =
       Err (JsError "Invalid email format") /\
     Forall isGet (log (run net (ensureSenderExists stringify address name language) w))).
Proof.
  intros Hbad.
  assert (Hcreate : forall name language w',
            run net (createSender stringify
                       {| CreateSenderData.name := name; CreateSenderData.email := address;
                          CreateSenderData.language := language |}) w' =
            failed (JsError "Invalid email format") w').
  { intros name language w'. unfold createSender. cbn [CreateSenderData.email].
    rewrite Hbad. reflexivity. }
  split; [|split].
  - intros name language. apply Hcreate.
  - intros senderId name language Hne. unfold updateSender. cbn [UpdateSenderData.email].
    rewrite Hbad. destruct address; [contradiction|]. reflexivity.
  - intros name language Hfind.
    unfold ensureSenderExists. rewrite run_bind. unfold andThen.
    rewrite Hfind. cbn [truthy]. rewrite run_bind, Hcreate. unfold andThen.
    cbn [failed res log post]. rewrite app_nil_r.
    split; [reflexivity|].
    rewrite run_findSenderByEmail. cbv zeta. cbn [log]. apply allEvents_getSenders.
Qed.

Lemma sender_address_checked_first_witness :
  (forall name language,
     run accountThenSenders
       (createSender (fun _ => "")
          {| CreateSenderData.name := name; CreateSenderData.email := "team@example";
             CreateSenderData.language := language |}) authedWorld =
     failed (JsError "Invalid email format") authedWorld) /\
  (forall senderId name language,
     "team@example"%string <> ""%string ->
     run accountThenSenders
       (updateSender (fun _ => "") senderId
          {| UpdateSenderData.name := name;
             UpdateSenderData.email := Some "team@example";
             UpdateSenderData.language := language |}) authedWorld =
     failed (JsError "Invalid email format") authedWorld) /\
  (forall name language,
     res (run accountThenSenders (findSenderByEmail "team@example") authedWorld) =
       Ok JNull ->
     res (run accountThenSenders
            (ensureSenderExists (fun _ => "") "team@example" name language)
            authedWorld) = Err (JsError "Invalid email format") /\
     Forall isGet
       (log (run accountThenSenders
               (ensureSenderExists (fun _ => "") "team@example" name language)
               authedWorld))).
Proof.
  apply (@sender_address_checked_first (fun _ => "") accountThenSenders authedWorld
           "team@example").
  reflexivity.
Defined.

Lemma find__find (xs : list json) :
  Forall (fun s => s <> JNull) xs ->
  find_ isDefault xs = Ok (find markedDefault xs).
Proof.
  induction 1 as [|x xs Hx _ IH]; cbn [find_ find]; [reflexivity|].
  assert (Hd : isDefault x = Ok (markedDefault x)) by (destruct x; [contradiction|..]; reflexivity).
  rewrite Hd. destruct (markedDefault x); [reflexivity|exact IH].
Qed.

(** X18.  [getDefaultSender], for a listing whose entries are all
    objects: the first sender marked [is_default], or else the first
    sender, or else [null] when the listing is empty. *)
Theorem getDefaultSender_choice
    (net : nat -> Reply) (w : World) (response : json) (xs : list json) :
  res (run net getSenders w) = Ok response ->
  field "data" response = Some (JArr xs) ->
  Forall (fun s => s <> JNull) xs ->
  res (run net getDefaultSender w) =
    Ok (match find markedDefault xs with
        | Some sender => sender
        | None => hd JNull xs
        end) /\
  log (run net getDefaultSender w) = log (run net getSenders w).
Proof.
  intros Hlist Hdata Hobjects.
  unfold getDefaultSender. rewrite run_bind. unfold andThen. rewrite Hlist.
  assert (Hamong : defaultAmong response =
                   Ok (match find markedDefault xs with
                       | Some sender => sender
                       | None => hd JNull xs
                       end)).
  { unfold defaultAmong, dataOf.
    destruct response; try discriminate; rewrite Hdata; cbn [truthy negb];
      (destruct xs as [|first rest]; [reflexivity|]);
      rewrite (find__find Hobjects);
      destruct (find markedDefault (first :: rest)); reflexivity. }
  rewrite Hamong. cbn [lift run res log post]. rewrite app_nil_r. auto.
Qed.

Lemma getDefaultSender_choice_witness :
  res (run accountThenSenders getDefaultSender authedWorld) =
    Ok (match find markedDefault
                [senderJson 1 "news@example.com" false;
                 senderJson 2 "team@example.com" true] with
        | Some sender => sender
        | None => hd JNull [senderJson 1 "news@example.com" false;
                            senderJson 2 "team@example.com" true]
        end) /\
  log (run accountThenSenders getDefaultSender authedWorld) =
    log (run accountThenSenders getSenders authedWorld).
Proof.
  apply (@getDefaultSender_choice accountThenSenders authedWorld sendersJson
           [senderJson 1 "news@example.com" false;
            senderJson 2 "team@example.com" true]).
  - reflexivity.
  - reflexivity.
  - repeat constructor; discriminate.
Defined.

(** ** A credential without a refresh token *)

Section NoRefreshToken.
Variable net : nat -> Reply.

Lemma authAttempt_without_refresh (w : World) :
  usableRefreshToken (self w) = None ->
  run net authAttempt w = run net passwordAuthenticate w.
Proof.
  intros Hnone. rewrite run_authAttempt.
  assert (Hrf : refreshFirst (self w) (clock w) = false).
  { unfold refreshFirst, usableRefreshToken in *.
    destruct (token (self w)) as [tok|]; [|reflexivity].
    destruct (tokenExpiry (self w)); [|reflexivity].
    destruct (refresh_token tok) as [rt|]; [|reflexivity].
    cbn. destruct (truthy_string rt); [discriminate|reflexivity]. }
  rewrite Hrf. reflexivity.
Qed.

Lemma passwordAuthenticate_failed_refresh (w : World) (e : Error) :
  res (run net passwordAuthenticate w) = Err e ->
  usableRefreshToken (self w) = None ->
  usableRefreshToken (self (post (run net passwordAuthenticate w))) = None.
Proof.
  rewrite run_passwordAuthenticate. cbv zeta.
  destruct (passwordGrant _); cbn [res post]; [discriminate|].
  intros _ Hnone. destruct (voids _); [reflexivity|exact Hnone].
Qed.

Lemma authenticate_without_refresh (w : World) :
  usableRefreshToken (self w) = None ->
  Forall (fun q => is_password_request q = true)
    (requests (log (run net authenticate w))).
Proof.
  intros Hnone. rewrite run_authenticate. cbv zeta.
  rewrite (authAttempt_without_refresh w Hnone).
  set (a1 := run net passwordAuthenticate w).
  assert (L1 : log a1 = [EvFetch (clock w) (passwordRequest (self w))
                           (answer (net (served w)))])
    by apply passwordAuthenticate_log.
  destruct (res a1) as [u|e1] eqn:R1.
  { rewrite L1. repeat constructor. }
  assert (K1 : usableRefreshToken (self (pause 2000 (post a1))) = None).
  { change (usableRefreshToken (self (post (run net passwordAuthenticate w))) = None).
    exact (passwordAuthenticate_failed_refresh w R1 Hnone). }
  rewrite (authAttempt_without_refresh _ K1).
  set (a2 := run net passwordAuthenticate (pause 2000 (post a1))).
  assert (L2 : log a2 = [EvFetch (clock (pause 2000 (post a1)))
                           (passwordRequest (self (pause 2000 (post a1))))
                           (answer (net (served (pause 2000 (post a1)))))])
    by apply passwordAuthenticate_log.
  destruct (res a2) as [u|e2] eqn:R2; cbn [log].
  { rewrite L1, L2. repeat constructor. }
  assert (K2 : usableRefreshToken (self (pause 4000 (post a2))) = None).
  { change (usableRefreshToken
              (self (post (run net passwordAuthenticate (pause 2000 (post a1))))) = None).
    exact (passwordAuthenticate_failed_refresh _ R2 K1). }
  rewrite (authAttempt_without_refresh _ K2).
  rewrite passwordAuthenticate_log, L1, L2. repeat constructor.
Qed.

End NoRefreshToken.

(** X19.  A client whose credential carries no refresh token (a grant
    without [refresh_token], or with an empty one) never attempts a
    refresh: [ensureValidToken] sends password requests only, and none at
    all while the stored expiry lies ahead, the refresh lead included. *)
Theorem no_refresh_token_no_refresh (net : nat -> Reply) (w : World) :
  usableRefreshToken (self w) = None ->
  Forall (fun q => is_password_request q = true)
    (requests (log (run net ensureValidToken w))) /\
  (hasToken (getTokenStatus (self w) (clock w)) = true ->
   isExpired (getTokenStatus (self w) (clock w)) = false ->
   run net ensureValidToken w = emit (EvStage StEnsureValid) (done tt w)).
Proof.
  intros Hnone.
  assert (Hhas : hasRefreshToken (getTokenStatus (self w) (clock w)) = false).
  { unfold getTokenStatus, usableRefreshToken in *. cbn [hasRefreshToken].
    destruct (token (self w)) as [tok|]; [|reflexivity].
    destruct (refresh_token tok) as [rt|]; [|reflexivity].
    cbn. destruct (truthy_string rt); [discriminate|reflexivity]. }
  rewrite run_ensureValidToken. cbv zeta. rewrite Hhas, andb_false_r.
  split.
  - unfold emit. cbn [log requests flat_map app].
    destruct (is_some (mockToken (self w))); [constructor|].
    destruct (negb (hasToken (getTokenStatus (self w) (clock w)))
              || isExpired (getTokenStatus (self w) (clock w))); [|constructor].
    apply authenticate_without_refresh. exact Hnone.
  - intros Ht Hx. rewrite Ht, Hx. cbn [negb orb].
    destruct (is_some (mockToken (self w))); reflexivity.
Qed.

Lemma no_refresh_token_no_refresh_witness :
  Forall (fun q => is_password_request q = true)
    (requests (log (run alwaysGrant ensureValidToken accessOnlyWorld))) /\
  (hasToken (getTokenStatus (self accessOnlyWorld) (clock accessOnlyWorld)) = true ->
   isExpired (getTokenStatus (self accessOnlyWorld) (clock accessOnlyWorld)) = false ->
   run alwaysGrant ensureValidToken accessOnlyWorld =
   emit (EvStage StEnsureValid) (done tt accessOnlyWorld)).
Proof.
  apply (@no_refresh_token_no_refresh alwaysGrant accessOnlyWorld).
  reflexivity.
Defined.

(** ** Transactional email *)

Section TransactionalEmail.
Variable stringify : json -> string.
Variable toText : option json -> string.
Variable positive : json -> bool.
Variable describe : Error -> string.
Variable net : nat -> Reply.

Lemma allEvents_lists :
  allEvents net toLists (makeRequest listsEndpoint noOptions).
Proof.
  apply allEvents_makeRequest; intros; try exact I.
  - destruct r; [exact I|exact I|discriminate].
  - reflexivity.
Qed.

(** The lookup of a default list, outcome by outcome. *)
Lemma run_resolveListId (data : TransactionalEmailData.t) (w : World) :
  truthy_opt (TransactionalEmailData.list_id data) = false ->
  let lookup := run net (makeRequest listsEndpoint noOptions) w in
  run net (resolveListId toText positive describe data) w =
  {| post := post lookup; log := log lookup;
     res := match res lookup with
            | Ok lists =>
                match firstListId positive lists with
                | Ok (Some id) => Ok (toText id)
                | Ok None => Err (noDefaultList noListsMessage)
                | Err e => Err (noDefaultList (messageOf describe e))
                end
            | Err e => Err (noDefaultList (messageOf describe e))
            end |}.
Proof.
  intros Hnone. cbv zeta. unfold resolveListId. rewrite Hnone. cbn [negb].
  rewrite run_catch, run_bind. fold listsEndpoint.
  unfold orElse, andThen.
  destruct (res (run net (makeRequest listsEndpoint noOptions) w)) as [lists|e];
    cbn [res post log run].
  - rewrite run_bind. unfold andThen.
    destruct (firstListId positive lists) as [[id|]|e];
      cbn [lift run res post log]; rewrite ?app_nil_r; reflexivity.
  - rewrite app_nil_r. reflexivity.
Qed.

End TransactionalEmail.

(** X20.  [sendTransactionalEmail] without a [list_id] looks up a
    default list first.  When the lookup fails, or its answer holds no
    list, the email is not sent: the call fails with "Failed to get
    default list for transactional email: ..." around the message of the
    cause, and the requests of the lookup, all to [/lists?per_page=1],
    are all it has sent. *)
Theorem sendTransactionalEmail_needs_a_list
    (stringify : json -> string) (toText : option json -> string)
    (positive : json -> bool) (describe : Error -> string)
    (net : nat -> Reply) (data : TransactionalEmailData.t) (w : World) :
  isValidEmail (TransactionalEmailData.to_email data) = true ->
  truthy_opt (TransactionalEmailData.list_id data) = false ->
  let r := run net (sendTransactionalEmail stringify toText positive describe data) w in
  let lookup := run net (makeRequest listsEndpoint noOptions) w in
  let stopped (message : string) :=
    res r = Err (noDefaultList message) /\ log r = log lookup /\ Forall toLists (log r) in
  match res lookup with
  | Ok lists =>
      match firstListId positive lists with
      | Ok (Some id) => log lookup = firstn (List.length (log lookup)) (log r)
      | Ok None => stopped noListsMessage
      | Err e => stopped (messageOf describe e)
      end
  | Err e => stopped (messageOf describe e)
  end.
Proof.
  intros Hvalid Hnone. cbv zeta.
  unfold sendTransactionalEmail. rewrite Hvalid. cbn [negb].
  rewrite run_bind, (run_resolveListId toText positive describe net data w Hnone).
  cbv zeta. unfold andThen. cbn [res post log].
  pose proof (allEvents_lists net w) as Hlists.
  destruct (res (run net (makeRequest listsEndpoint noOptions) w)) as [lists|e].
  - destruct (firstListId positive lists) as [[id|]|e]; cbn [res post log].
    + rewrite firstn_app, firstn_all, Nat.sub_diag. cbn [firstn].
      rewrite app_nil_r. reflexivity.
    + auto.
    + auto.
  - cbn [res post log]. auto.
Qed.

Lemma sendTransactionalEmail_needs_a_list_witness :
  res (run emptyListing
         (sendTransactionalEmail (fun _ => "") (fun _ => "") (fun _ => false)
            (fun _ => "") (welcomeEmail None)) authedWorld) =
    Err (noDefaultList noListsMessage) /\
  log (run emptyListing
         (sendTransactionalEmail (fun _ => "") (fun _ => "") (fun _ => false)
            (fun _ => "") (welcomeEmail None)) authedWorld) =
    log (run emptyListing (makeRequest listsEndpoint noOptions) authedWorld) /\
  Forall toLists
    (log (run emptyListing
            (sendTransactionalEmail (fun _ => "") (fun _ => "") (fun _ => false)
               (fun _ => "") (welcomeEmail None)) authedWorld)).
Proof.
  apply (@sendTransactionalEmail_needs_a_list (fun _ => "") (fun _ => "")
           (fun _ => false) (fun _ => "") emptyListing (welcomeEmail None) authedWorld).
  - reflexivity.
  - reflexivity.
Defined.

(** X21.  [sendTransactionalEmail] checks the recipient before anything
    else: an address [isValidEmail] rejects makes it throw "Invalid
    recipient email format" with nothing sent.  With a valid recipient
    and a [list_id] given, no list is looked up: apart from the account
    lookup, every request is the [POST] to [/v2/emails] of the composed
    email with [list_id] set to [String(data.list_id)]. *)
Theorem sendTransactionalEmail_with_list_id
    (stringify : json -> string) (toText : option json -> string)
    (positive : json -> bool) (describe : Error -> string)
    (net : nat -> Reply) (data : TransactionalEmailData.t) (w : World) :
  let r := run net (sendTransactionalEmail stringify toText positive describe data) w in
  (isValidEmail (TransactionalEmailData.to_email data) = false ->
   r = failed (JsError "Invalid recipient email format") w) /\
  (isValidEmail (TransactionalEmailData.to_email data) = true ->
   truthy_opt (TransactionalEmailData.list_id data) = true ->
   Forall (lookupOrPost "/v2/emails"
             (stringify
                (JObj (emailData toText data ++
                       [("list_id",
                         JStr (toText (TransactionalEmailData.list_id data)))]))))
     (log r)).
Proof.
  cbv zeta. unfold sendTransactionalEmail. split.
  - intros Hbad. rewrite Hbad. reflexivity.
  - intros Hvalid Hlist. rewrite Hvalid. cbn [negb].
    unfold resolveListId. rewrite Hlist. cbn [negb bind].
    apply allEvents_bind.
    + intros w'. eapply Forall_impl; [|apply allEvents_getCurrentAccountId].
      intros ev Hev. destruct ev as [t q x|ms|s]; try exact I.
      destruct q; try exact I. left. exact Hev.
    + intros accountId. apply allEvents_makeRequest; intros; try exact I.
      * destruct r; [exact I|exact I|discriminate].
      * right. repeat split.
Qed.

(** ** The attempts of one call *)

(** X22.  All authentication of a [makeRequest] call happens first, in
    its one credential check.  What follows sends API requests only, and
    in every attempt the same one: same base URL, endpoint, method,
    headers (hence the same bearer token) and body. *)
Theorem makeRequest_attempts_identical
    (net : nat -> Reply) (endpoint : Endpoint) (options : RequestInit) (w : World) :
  exists baseUrl hdrs rest,
    log (run net (makeRequest endpoint options) w) =
      log (run net ensureValidToken w) ++ rest /\
    Forall (fun q => q = ApiCall baseUrl endpoint (method options) hdrs (reqBody options))
      (requests rest).
Proof.
  unfold makeRequest. cbv zeta. fold (operation endpoint options).
  rewrite run_bind. unfold andThen.
  destruct (res (run net ensureValidToken w)) as [[]|e] eqn:Hv; cbn [log].
  - set (w1 := post (run net ensureValidToken w)).
    pose proof (ensureValidToken_ok_token net w Hv) as Htok. fold w1 in Htok.
    destruct (activeToken (self w1)) as [tok|] eqn:Hact; [|discriminate].
    set (Inv := fun c : Client =>
                  activeToken c = Some tok /\ baseUrl c = baseUrl (self w1)).
    set (P := fun ev : Event =>
                match ev with
                | EvFetch _ q _ => q = apiRequest (self w1) tok endpoint options
                | _ => True
                end).
    assert (H : ensures net Inv P
                  (requestQueue_add
                     (c <- this ;;
                      match circuitBreaker c with
                      | Some b =>
                          circuitBreaker_execute b
                            (executeWithRetry (operation endpoint options))
                      | None => executeWithRetry (operation endpoint options)
                      end)) anything).
    { apply ensures_pipeline; try (intros; exact I); try (intros c x Hc; exact Hc).
      unfold executeRequest.
      eapply ensures_bind; [apply ensures_this|]. intros c [Ha Hb].
      rewrite Ha.
      eapply ensures_bind with (Q := anything).
      - apply ensures_catch.
        + apply ensures_Fetch. intros t x. unfold P, apiRequest. rewrite Hb. reflexivity.
        + intros e. destruct e; apply ensures_Throw.
      - intros response _.
        destruct (negb (ok response)); [apply ensures_Throw|].
        destruct (is_json_content response); [|apply ensures_Ret; exact I].
        eapply ensures_bind with (Q := anything).
        + apply ensures_lift. destruct (response_json response); exact I.
        + intros result _. apply ensures_lift.
          destruct (inspected (debugMode c) result); exact I. }
    destruct (H w1 (conj Hact eq_refl)) as [_ [Hl _]].
    eexists. eexists. eexists. split; [reflexivity|].
    apply requests_Forall. exact Hl.
  - exists "", [], []. split; [rewrite app_nil_r; reflexivity|constructor].
Qed.

Lemma sendTransactionalEmail_with_list_id_witness :
  Forall (lookupOrPost "/v2/emails"
            ((fun _ => "email")
               (JObj (emailData (fun _ => "5") (welcomeEmail (Some (JNum 5))) ++
                      [("list_id", JStr "5")]))))
    (log (run accountThenCampaigns
            (sendTransactionalEmail (fun _ => "email") (fun _ => "5") (fun _ => false)
               (fun _ => "") (welcomeEmail (Some (JNum 5))))
            authedWorld)).
Proof.
  apply (proj2 (@sendTransactionalEmail_with_list_id (fun _ => "email") (fun _ => "5")
                  (fun _ => false) (fun _ => "") accountThenCampaigns
                  (welcomeEmail (Some (JNum 5))) authedWorld)).
  - reflexivity.
  - reflexivity.
Defined.
